(** * Cycles scene mesh (intern/cycles/scene/mesh.cpp)

    A shallow embedding of the mesh core of the Cycles scene database:
    the triangle and subdivision-face accessors, incremental construction,
    bounds, vertex normals, shader packing and the motion-blur predicates. *)

From Stdlib Require Import ZArith List ListSet Bool Lia SpecFloat.
Import ListNotations.

Local Open Scope Z_scope.

(** * Machine integers

    [size_t] is a 64-bit unsigned integer, [uint] a 32-bit unsigned integer
    and [int] a 32-bit two's complement integer.  Values live in [Z]; every
    operation of the source that can leave the range is followed by the
    matching wrap. *)

Definition wrap_size_t (z : Z) : Z := z mod 2 ^ 64.
Definition wrap_uint (z : Z) : Z := z mod 2 ^ 32.
Definition wrap_int (z : Z) : Z := (z + 2 ^ 31) mod 2 ^ 32 - 2 ^ 31.

Definition INT_MAX : Z := 2 ^ 31 - 1.
Definition INT_MIN : Z := - 2 ^ 31.

Definition in_int (z : Z) : Prop := INT_MIN <= z <= INT_MAX.
Definition in_size_t (z : Z) : Prop := 0 <= z < 2 ^ 64.

(** * Single-precision values

    A [float] is an IEEE-754 binary32 value: a signed zero, a finite number
    [(-1)^s * m * 2^e], a signed infinity or NaN.  The operations are those
    of the standard library's specification of IEEE-754 arithmetic at
    precision 24 and exponent bound 128: a result is rounded to the nearest
    value, ties to even; it overflows to an infinity and underflows through
    the subnormal numbers to a zero. *)

Definition float : Type := spec_float.

(** The mantissa and the exponent of a finite value are those of a binary32
    number; the machine holds no other finite value. *)
Definition float_valid (a : float) : bool := valid_binary 24 128 a.

Definition fzero : float := S754_zero false.
Definition fone : float := S754_finite false 8388608 (-23).

(** [FLT_MAX] = (2^24 - 1) * 2^104. *)
Definition FLT_MAX : float := S754_finite false 16777215 104.

Definition fneg (a : float) : float := SFopp a.
Definition fadd (a b : float) : float := SFadd 24 128 a b.
Definition fsub (a b : float) : float := SFsub 24 128 a b.
Definition fmul (a b : float) : float := SFmul 24 128 a b.
Definition fdiv (a b : float) : float := SFdiv 24 128 a b.
Definition fsqrt (a : float) : float := SFsqrt 24 128 a.

(** The comparisons [==], [<] and [<=]; every comparison with NaN is false
    and the two zeros compare equal. *)
Definition feqb (a b : float) : bool := SFeqb a b.
Definition fltb (a b : float) : bool := SFltb a b.
Definition fleb (a b : float) : bool := SFleb a b.

Definition isnan (a : float) : bool :=
  match a with S754_nan => true | _ => false end.

Definition isinf (a : float) : bool :=
  match a with S754_infinity _ => true | _ => false end.

(** Modelled from the spec: [isfinite_safe(float)] of util/math.h, neither
    NaN nor an infinity. *)
Definition isfinite_safe (a : float) : bool :=
  match a with S754_zero _ | S754_finite _ _ _ => true | _ => false end.

(** The conversion of an integer to [float], rounded to the nearest value. *)
Definition float_of_Z (n : Z) : float := binary_normalize 24 128 n 0 false.

(** Conversion [size_t -> float]. *)
Definition float_of_size_t (n : Z) : float := float_of_Z n.

(** The cast [(size_t)f] truncates toward zero.  It is undefined in C++ when
    the truncated value is not a [size_t] (or [f] is not finite); the model
    returns 0 there. *)
Definition size_t_of_float (a : float) : Z :=
  match a with
  | S754_finite false m e =>
      let t := if 0 <=? e then Zpos m * 2 ^ e else Zpos m / 2 ^ (- e) in
      if t <? 2 ^ 64 then t else 0
  | _ => 0
  end.

(** * float3

    The vector type and its operators belong to util/types_float3.h and
    util/math_float3.h, which are not part of the mesh source.  They act
    componentwise. *)

Record float3 : Type := make_float3 { fx : float; fy : float; fz : float }.

Definition zero_float3 : float3 := make_float3 fzero fzero fzero.

(** Modelled from the spec: [operator+] of util/math_float3.h, the
    componentwise sum. *)
Definition f3_add (a b : float3) : float3 :=
  make_float3 (fadd (fx a) (fx b)) (fadd (fy a) (fy b)) (fadd (fz a) (fz b)).

(** Modelled from the spec: [operator-] of util/math_float3.h, the
    componentwise difference. *)
Definition f3_sub (a b : float3) : float3 :=
  make_float3 (fsub (fx a) (fx b)) (fsub (fy a) (fy b)) (fsub (fz a) (fz b)).

(** Modelled from the spec: unary [operator-] of util/math_float3.h. *)
Definition f3_neg (a : float3) : float3 :=
  make_float3 (fneg (fx a)) (fneg (fy a)) (fneg (fz a)).

(** Modelled from the spec: [float * float3] of util/math_float3.h. *)
Definition f3_scale (s : float) (a : float3) : float3 :=
  make_float3 (fmul s (fx a)) (fmul s (fy a)) (fmul s (fz a)).

(** Modelled from the spec: [float3 / float] of util/math_float3.h. *)
Definition f3_div (a : float3) (s : float) : float3 :=
  make_float3 (fdiv (fx a) s) (fdiv (fy a) s) (fdiv (fz a) s).

(** Modelled from the spec: [isfinite_safe(float3)] of util/math_float3.h,
    true when no component is NaN or infinite. *)
Definition isfinite3 (a : float3) : bool :=
  isfinite_safe (fx a) && isfinite_safe (fy a) && isfinite_safe (fz a).

(** Modelled from the spec: [cross] of util/math_float3.h, the vector
    product. *)
Definition cross (a b : float3) : float3 :=
  make_float3 (fsub (fmul (fy a) (fz b)) (fmul (fz a) (fy b)))
              (fsub (fmul (fz a) (fx b)) (fmul (fx a) (fz b)))
              (fsub (fmul (fx a) (fy b)) (fmul (fy a) (fx b))).

(** Modelled from the spec: [dot] of util/math_float3.h, the scalar
    product. *)
Definition dot (a b : float3) : float :=
  fadd (fadd (fmul (fx a) (fx b)) (fmul (fy a) (fy b))) (fmul (fz a) (fz b)).

(** Modelled from the spec: [len] of util/math_float3.h, the Euclidean
    length. *)
Definition len (a : float3) : float := fsqrt (dot a a).

(** Modelled from the spec: [normalize] of util/math_float3.h, the vector
    divided by its length, with no guard. *)
Definition normalize (a : float3) : float3 := f3_div a (len a).

(** * array<T> *)

(** Modelled from the spec: [array<T>] of util/array.h, which is not part of
    the mesh source.  An array has a logical content and a capacity. *)
Record array (T : Type) : Type := mk_array { elems : list T; capacity : Z }.
Arguments mk_array {T} _ _.
Arguments elems {T} _.
Arguments capacity {T} _.

Definition array_empty {T : Type} : array T := mk_array [] 0.

Definition size {T : Type} (a : array T) : Z := Z.of_nat (length (elems a)).

(** Modelled from the spec: [array::reserve] of util/array.h raises the
    capacity and leaves the logical content alone. *)
Definition reserve {T : Type} (newcapacity : Z) (a : array T) : array T :=
  if capacity a <? newcapacity then mk_array (elems a) newcapacity else a.

(** Modelled from the spec: the [push_back] variants of util/array.h append
    one element; [push_back_reserved] expects the room to be there,
    [push_back_slow] makes it. *)
Definition push_back {T : Type} (t : T) (a : array T) : array T :=
  mk_array (elems a ++ [t]) (Z.max (capacity a) (size a + 1)).

Definition push_back_reserved {T : Type} (t : T) (a : array T) : array T :=
  push_back t a.

Definition push_back_slow {T : Type} (t : T) (a : array T) : array T :=
  push_back t a.

(** Modelled from the spec: [array::data()] of util/array.h is the null
    pointer as long as nothing was ever allocated. *)
Definition data_is_null {T : Type} (a : array T) : bool := capacity a =? 0.

(** Reading a buffer at an index.  An index outside the buffer is undefined
    behaviour in C++; the model returns the default [d] there. *)
Definition buf_get {T : Type} (d : T) (l : list T) (i : Z) : T :=
  if 0 <=? i then nth (Z.to_nat i) l d else d.

(** Writing a buffer at an index; outside the buffer the model writes
    nothing. *)
Fixpoint list_update {T : Type} (l : list T) (n : nat) (f : T -> T) : list T :=
  match l, n with
  | [], _ => []
  | a :: l', O => f a :: l'
  | a :: l', S n' => a :: list_update l' n' f
  end.

Definition buf_update {T : Type} (l : list T) (i : Z) (f : T -> T) : list T :=
  if 0 <=? i then list_update l (Z.to_nat i) f else l.

Definition array_get {T : Type} (d : T) (a : array T) (i : Z) : T :=
  buf_get d (elems a) i.

(** A [const float3 *] is modelled by what can be read through it. *)
Definition float3_ptr : Type := Z -> float3.

Definition ptr_of (l : list float3) : float3_ptr := buf_get zero_float3 l.

(** [p + off]. *)
Definition ptr_add (p : float3_ptr) (off : Z) : float3_ptr := fun i => p (off + i).

(** * BoundBox *)

(** Modelled from the spec: [min] of util/math.h, which is not part of the
    mesh source and of which the specification says no more than the name:
    the comparison [a < b ? a : b] of C.  It hands back [b] when one of the
    two is NaN. *)
Definition fmin (a b : float) : float := if fltb a b then a else b.

(** Modelled from the spec: [max] of util/math.h, [a > b ? a : b]. *)
Definition fmax (a b : float) : float := if fltb b a then a else b.

Definition f3_min (a b : float3) : float3 :=
  make_float3 (fmin (fx a) (fx b)) (fmin (fy a) (fy b)) (fmin (fz a) (fz b)).

Definition f3_max (a b : float3) : float3 :=
  make_float3 (fmax (fx a) (fx b)) (fmax (fy a) (fy b)) (fmax (fz a) (fz b)).

(** Modelled from the spec: [BoundBox] of util/boundbox.h, which is not part
    of the mesh source; a box is its two corners [min] and [max]. *)
Record BoundBox : Type := mk_BoundBox { bmin : float3; bmax : float3 }.

(** Modelled from the spec: [BoundBox::empty], the box with its corners
    inverted. *)
Definition BoundBox_empty : BoundBox :=
  mk_BoundBox (make_float3 FLT_MAX FLT_MAX FLT_MAX)
              (make_float3 (fneg FLT_MAX) (fneg FLT_MAX) (fneg FLT_MAX)).

(** Modelled from the spec: [BoundBox::grow] expands the box by a point,
    [min = min(pt, min)] and [max = max(pt, max)].  The point is the first
    operand, so a NaN coordinate of the point leaves that coordinate of the
    box as it was, while an infinite one is taken. *)
Definition grow (b : BoundBox) (pt : float3) : BoundBox :=
  mk_BoundBox (f3_min pt (bmin b)) (f3_max pt (bmax b)).

(** Modelled from the spec: [BoundBox::grow_safe], the grow that skips a
    point with a NaN or infinite coordinate, [min = min(min, pt)] and
    [max = max(max, pt)] for any other point. *)
Definition grow_safe (b : BoundBox) (pt : float3) : BoundBox :=
  if isfinite3 pt
  then mk_BoundBox (f3_min (bmin b) pt) (f3_max (bmax b) pt)
  else b.

(** Modelled from the spec: [BoundBox::valid], the corners are finite and
    ordered. *)
Definition valid (b : BoundBox) : bool :=
  fleb (fx (bmin b)) (fx (bmax b)) && fleb (fy (bmin b)) (fy (bmax b))
  && fleb (fz (bmin b)) (fz (bmax b))
  && isfinite3 (bmin b) && isfinite3 (bmax b).

(** * Attribute sets *)

(** The well-known attribute keys the mesh reads and writes. *)
Inductive AttributeStandard : Type :=
  | ATTR_STD_VERTEX_NORMAL
  | ATTR_STD_MOTION_VERTEX_POSITION
  | ATTR_STD_MOTION_VERTEX_NORMAL
  | ATTR_STD_POSITION_UNDISPLACED
  | ATTR_STD_UV.

Definition AttributeStandard_eqb (a b : AttributeStandard) : bool :=
  match a, b with
  | ATTR_STD_VERTEX_NORMAL, ATTR_STD_VERTEX_NORMAL
  | ATTR_STD_MOTION_VERTEX_POSITION, ATTR_STD_MOTION_VERTEX_POSITION
  | ATTR_STD_MOTION_VERTEX_NORMAL, ATTR_STD_MOTION_VERTEX_NORMAL
  | ATTR_STD_POSITION_UNDISPLACED, ATTR_STD_POSITION_UNDISPLACED
  | ATTR_STD_UV, ATTR_STD_UV => true
  | _, _ => false
  end.

(** Modelled from the spec: [Attribute] of scene/attribute.h, which is not
    part of the mesh source; a key and its buffer. *)
Record Attribute : Type :=
  mk_Attribute { attr_std : AttributeStandard; data_float3 : list float3 }.

(** Modelled from the spec: [AttributeSet] of scene/attribute.h, a store of
    buffers by key. *)
Definition AttributeSet : Type := list Attribute.

(** Modelled from the spec: [AttributeSet::find] gives the attribute of a
    key when there is one. *)
Definition attr_find (s : AttributeSet) (std : AttributeStandard)
  : option Attribute :=
  find (fun a => AttributeStandard_eqb (attr_std a) std) s.

Definition attr_found (s : AttributeSet) (std : AttributeStandard) : bool :=
  match attr_find s std with Some _ => true | None => false end.

(** Modelled from the spec: [AttributeSet::add] creates the attribute of a
    key; [data] is what the writes through the returned pointer leave in its
    buffer. *)
Definition attr_add (s : AttributeSet) (std : AttributeStandard)
                    (data : list float3) : AttributeSet :=
  s ++ [mk_Attribute std data].

(** * Sockets and their modified flags *)

Inductive Socket : Type :=
  | SOCKET_verts | SOCKET_triangles | SOCKET_shader | SOCKET_smooth
  | SOCKET_subd_face_corners | SOCKET_subd_start_corner
  | SOCKET_subd_num_corners | SOCKET_subd_shader | SOCKET_subd_smooth
  | SOCKET_subd_ptex_offset | SOCKET_subd_creases_edge
  | SOCKET_subd_creases_weight | SOCKET_subd_vert_creases
  | SOCKET_subd_vert_creases_weight.

Definition Socket_eq_dec (a b : Socket) : {a = b} + {a <> b}.
Proof. decide equality. Defined.

Inductive SubdivisionType : Type :=
  | SUBDIVISION_NONE
  | SUBDIVISION_LINEAR
  | SUBDIVISION_CATMULL_CLARK.

Definition SubdivisionType_eqb (a b : SubdivisionType) : bool :=
  match a, b with
  | SUBDIVISION_NONE, SUBDIVISION_NONE
  | SUBDIVISION_LINEAR, SUBDIVISION_LINEAR
  | SUBDIVISION_CATMULL_CLARK, SUBDIVISION_CATMULL_CLARK => true
  | _, _ => false
  end.

(** * Mesh

    The mesh with the part of its [Geometry] base that the functions below
    read: the attribute set of the triangle domain, the motion-blur flag and
    step count, the negative-scale flag, the used shaders (node handles),
    the bounds and the sockets' modified flags. *)

Record Mesh : Type := mk_Mesh {
  attributes : AttributeSet;
  use_motion_blur : bool;
  motion_steps : Z;
  transform_negative_scaled : bool;
  used_shaders : array Z;
  bounds : BoundBox;
  socket_modified : list Socket;
  triangles : array Z;
  verts : array float3;
  shader : array Z;
  smooth : array bool;
  subdivision_type : SubdivisionType;
  subd_vert_creases : array Z;
  subd_vert_creases_weight : array float;
  subd_creases_edge : array Z;
  subd_creases_weight : array float;
  subd_face_corners : array Z;
  subd_start_corner : array Z;
  subd_num_corners : array Z;
  subd_shader : array Z;
  subd_smooth : array bool;
  subd_ptex_offset : array Z;
  num_subd_faces : Z;
  subd_attributes : AttributeSet
}.

Definition set_attributes (v : AttributeSet) (m : Mesh) : Mesh :=
  mk_Mesh v (use_motion_blur m) (motion_steps m)
    (transform_negative_scaled m) (used_shaders m) (bounds m)
    (socket_modified m) (triangles m) (verts m) (shader m) (smooth m)
    (subdivision_type m) (subd_vert_creases m) (subd_vert_creases_weight m)
    (subd_creases_edge m) (subd_creases_weight m) (subd_face_corners m)
    (subd_start_corner m) (subd_num_corners m) (subd_shader m)
    (subd_smooth m) (subd_ptex_offset m) (num_subd_faces m)
    (subd_attributes m).

Definition set_bounds (v : BoundBox) (m : Mesh) : Mesh :=
  mk_Mesh (attributes m) (use_motion_blur m) (motion_steps m)
    (transform_negative_scaled m) (used_shaders m) v (socket_modified m)
    (triangles m) (verts m) (shader m) (smooth m) (subdivision_type m)
    (subd_vert_creases m) (subd_vert_creases_weight m) (subd_creases_edge m)
    (subd_creases_weight m) (subd_face_corners m) (subd_start_corner m)
    (subd_num_corners m) (subd_shader m) (subd_smooth m)
    (subd_ptex_offset m) (num_subd_faces m) (subd_attributes m).

Definition set_socket_modified (v : list Socket) (m : Mesh) : Mesh :=
  mk_Mesh (attributes m) (use_motion_blur m) (motion_steps m)
    (transform_negative_scaled m) (used_shaders m) (bounds m) v
    (triangles m) (verts m) (shader m) (smooth m) (subdivision_type m)
    (subd_vert_creases m) (subd_vert_creases_weight m) (subd_creases_edge m)
    (subd_creases_weight m) (subd_face_corners m) (subd_start_corner m)
    (subd_num_corners m) (subd_shader m) (subd_smooth m)
    (subd_ptex_offset m) (num_subd_faces m) (subd_attributes m).

Definition set_triangles (v : array Z) (m : Mesh) : Mesh :=
  mk_Mesh (attributes m) (use_motion_blur m) (motion_steps m)
    (transform_negative_scaled m) (used_shaders m) (bounds m)
    (socket_modified m) v (verts m) (shader m) (smooth m)
    (subdivision_type m) (subd_vert_creases m) (subd_vert_creases_weight m)
    (subd_creases_edge m) (subd_creases_weight m) (subd_face_corners m)
    (subd_start_corner m) (subd_num_corners m) (subd_shader m)
    (subd_smooth m) (subd_ptex_offset m) (num_subd_faces m)
    (subd_attributes m).

Definition set_verts (v : array float3) (m : Mesh) : Mesh :=
  mk_Mesh (attributes m) (use_motion_blur m) (motion_steps m)
    (transform_negative_scaled m) (used_shaders m) (bounds m)
    (socket_modified m) (triangles m) v (shader m) (smooth m)
    (subdivision_type m) (subd_vert_creases m) (subd_vert_creases_weight m)
    (subd_creases_edge m) (subd_creases_weight m) (subd_face_corners m)
    (subd_start_corner m) (subd_num_corners m) (subd_shader m)
    (subd_smooth m) (subd_ptex_offset m) (num_subd_faces m)
    (subd_attributes m).

Definition set_shader (v : array Z) (m : Mesh) : Mesh :=
  mk_Mesh (attributes m) (use_motion_blur m) (motion_steps m)
    (transform_negative_scaled m) (used_shaders m) (bounds m)
    (socket_modified m) (triangles m) (verts m) v (smooth m)
    (subdivision_type m) (subd_vert_creases m) (subd_vert_creases_weight m)
    (subd_creases_edge m) (subd_creases_weight m) (subd_face_corners m)
    (subd_start_corner m) (subd_num_corners m) (subd_shader m)
    (subd_smooth m) (subd_ptex_offset m) (num_subd_faces m)
    (subd_attributes m).

Definition set_smooth (v : array bool) (m : Mesh) : Mesh :=
  mk_Mesh (attributes m) (use_motion_blur m) (motion_steps m)
    (transform_negative_scaled m) (used_shaders m) (bounds m)
    (socket_modified m) (triangles m) (verts m) (shader m) v
    (subdivision_type m) (subd_vert_creases m) (subd_vert_creases_weight m)
    (subd_creases_edge m) (subd_creases_weight m) (subd_face_corners m)
    (subd_start_corner m) (subd_num_corners m) (subd_shader m)
    (subd_smooth m) (subd_ptex_offset m) (num_subd_faces m)
    (subd_attributes m).

Definition set_subd_vert_creases (v : array Z) (m : Mesh) : Mesh :=
  mk_Mesh (attributes m) (use_motion_blur m) (motion_steps m)
    (transform_negative_scaled m) (used_shaders m) (bounds m)
    (socket_modified m) (triangles m) (verts m) (shader m) (smooth m)
    (subdivision_type m) v (subd_vert_creases_weight m)
    (subd_creases_edge m) (subd_creases_weight m) (subd_face_corners m)
    (subd_start_corner m) (subd_num_corners m) (subd_shader m)
    (subd_smooth m) (subd_ptex_offset m) (num_subd_faces m)
    (subd_attributes m).

Definition set_subd_vert_creases_weight (v : array float) (m : Mesh) : Mesh :=
  mk_Mesh (attributes m) (use_motion_blur m) (motion_steps m)
    (transform_negative_scaled m) (used_shaders m) (bounds m)
    (socket_modified m) (triangles m) (verts m) (shader m) (smooth m)
    (subdivision_type m) (subd_vert_creases m) v (subd_creases_edge m)
    (subd_creases_weight m) (subd_face_corners m) (subd_start_corner m)
    (subd_num_corners m) (subd_shader m) (subd_smooth m)
    (subd_ptex_offset m) (num_subd_faces m) (subd_attributes m).

Definition set_subd_creases_edge (v : array Z) (m : Mesh) : Mesh :=
  mk_Mesh (attributes m) (use_motion_blur m) (motion_steps m)
    (transform_negative_scaled m) (used_shaders m) (bounds m)
    (socket_modified m) (triangles m) (verts m) (shader m) (smooth m)
    (subdivision_type m) (subd_vert_creases m) (subd_vert_creases_weight m)
    v (subd_creases_weight m) (subd_face_corners m) (subd_start_corner m)
    (subd_num_corners m) (subd_shader m) (subd_smooth m)
    (subd_ptex_offset m) (num_subd_faces m) (subd_attributes m).

Definition set_subd_creases_weight (v : array float) (m : Mesh) : Mesh :=
  mk_Mesh (attributes m) (use_motion_blur m) (motion_steps m)
    (transform_negative_scaled m) (used_shaders m) (bounds m)
    (socket_modified m) (triangles m) (verts m) (shader m) (smooth m)
    (subdivision_type m) (subd_vert_creases m) (subd_vert_creases_weight m)
    (subd_creases_edge m) v (subd_face_corners m) (subd_start_corner m)
    (subd_num_corners m) (subd_shader m) (subd_smooth m)
    (subd_ptex_offset m) (num_subd_faces m) (subd_attributes m).

Definition set_subd_face_corners (v : array Z) (m : Mesh) : Mesh :=
  mk_Mesh (attributes m) (use_motion_blur m) (motion_steps m)
    (transform_negative_scaled m) (used_shaders m) (bounds m)
    (socket_modified m) (triangles m) (verts m) (shader m) (smooth m)
    (subdivision_type m) (subd_vert_creases m) (subd_vert_creases_weight m)
    (subd_creases_edge m) (subd_creases_weight m) v (subd_start_corner m)
    (subd_num_corners m) (subd_shader m) (subd_smooth m)
    (subd_ptex_offset m) (num_subd_faces m) (subd_attributes m).

Definition set_subd_start_corner (v : array Z) (m : Mesh) : Mesh :=
  mk_Mesh (attributes m) (use_motion_blur m) (motion_steps m)
    (transform_negative_scaled m) (used_shaders m) (bounds m)
    (socket_modified m) (triangles m) (verts m) (shader m) (smooth m)
    (subdivision_type m) (subd_vert_creases m) (subd_vert_creases_weight m)
    (subd_creases_edge m) (subd_creases_weight m) (subd_face_corners m) v
    (subd_num_corners m) (subd_shader m) (subd_smooth m)
    (subd_ptex_offset m) (num_subd_faces m) (subd_attributes m).

Definition set_subd_num_corners (v : array Z) (m : Mesh) : Mesh :=
  mk_Mesh (attributes m) (use_motion_blur m) (motion_steps m)
    (transform_negative_scaled m) (used_shaders m) (bounds m)
    (socket_modified m) (triangles m) (verts m) (shader m) (smooth m)
    (subdivision_type m) (subd_vert_creases m) (subd_vert_creases_weight m)
    (subd_creases_edge m) (subd_creases_weight m) (subd_face_corners m)
    (subd_start_corner m) v (subd_shader m) (subd_smooth m)
    (subd_ptex_offset m) (num_subd_faces m) (subd_attributes m).

Definition set_subd_shader (v : array Z) (m : Mesh) : Mesh :=
  mk_Mesh (attributes m) (use_motion_blur m) (motion_steps m)
    (transform_negative_scaled m) (used_shaders m) (bounds m)
    (socket_modified m) (triangles m) (verts m) (shader m) (smooth m)
    (subdivision_type m) (subd_vert_creases m) (subd_vert_creases_weight m)
    (subd_creases_edge m) (subd_creases_weight m) (subd_face_corners m)
    (subd_start_corner m) (subd_num_corners m) v (subd_smooth m)
    (subd_ptex_offset m) (num_subd_faces m) (subd_attributes m).

Definition set_subd_smooth (v : array bool) (m : Mesh) : Mesh :=
  mk_Mesh (attributes m) (use_motion_blur m) (motion_steps m)
    (transform_negative_scaled m) (used_shaders m) (bounds m)
    (socket_modified m) (triangles m) (verts m) (shader m) (smooth m)
    (subdivision_type m) (subd_vert_creases m) (subd_vert_creases_weight m)
    (subd_creases_edge m) (subd_creases_weight m) (subd_face_corners m)
    (subd_start_corner m) (subd_num_corners m) (subd_shader m) v
    (subd_ptex_offset m) (num_subd_faces m) (subd_attributes m).

Definition set_subd_ptex_offset (v : array Z) (m : Mesh) : Mesh :=
  mk_Mesh (attributes m) (use_motion_blur m) (motion_steps m)
    (transform_negative_scaled m) (used_shaders m) (bounds m)
    (socket_modified m) (triangles m) (verts m) (shader m) (smooth m)
    (subdivision_type m) (subd_vert_creases m) (subd_vert_creases_weight m)
    (subd_creases_edge m) (subd_creases_weight m) (subd_face_corners m)
    (subd_start_corner m) (subd_num_corners m) (subd_shader m)
    (subd_smooth m) v (num_subd_faces m) (subd_attributes m).

Definition set_num_subd_faces (v : Z) (m : Mesh) : Mesh :=
  mk_Mesh (attributes m) (use_motion_blur m) (motion_steps m)
    (transform_negative_scaled m) (used_shaders m) (bounds m)
    (socket_modified m) (triangles m) (verts m) (shader m) (smooth m)
    (subdivision_type m) (subd_vert_creases m) (subd_vert_creases_weight m)
    (subd_creases_edge m) (subd_creases_weight m) (subd_face_corners m)
    (subd_start_corner m) (subd_num_corners m) (subd_shader m)
    (subd_smooth m) (subd_ptex_offset m) v (subd_attributes m).

Definition set_subd_attributes (v : AttributeSet) (m : Mesh) : Mesh :=
  mk_Mesh (attributes m) (use_motion_blur m) (motion_steps m)
    (transform_negative_scaled m) (used_shaders m) (bounds m)
    (socket_modified m) (triangles m) (verts m) (shader m) (smooth m)
    (subdivision_type m) (subd_vert_creases m) (subd_vert_creases_weight m)
    (subd_creases_edge m) (subd_creases_weight m) (subd_face_corners m)
    (subd_start_corner m) (subd_num_corners m) (subd_shader m)
    (subd_smooth m) (subd_ptex_offset m) (num_subd_faces m) v.

(** [tag_*_modified()]. *)
Definition tag_modified (s : Socket) (m : Mesh) : Mesh :=
  set_socket_modified (set_add Socket_eq_dec s (socket_modified m)) m.

(** [Mesh::Mesh()] over a geometry base with no attributes: every array is
    empty and [num_subd_faces] is 0. *)
Definition Mesh_new : Mesh :=
  mk_Mesh [] false 3 false array_empty BoundBox_empty []
    array_empty array_empty array_empty array_empty SUBDIVISION_NONE
    array_empty array_empty array_empty array_empty
    array_empty array_empty array_empty array_empty array_empty array_empty
    0 [].

(** * Triangle *)

(** [int v[3]]. *)
Record Triangle : Type := mk_Triangle { v_0 : Z; v_1 : Z; v_2 : Z }.

(** The three positions written to [r_verts]. *)
Definition float3x3 : Type := (float3 * float3 * float3)%type.

Definition bounds_grow (tri : Triangle) (verts : float3_ptr) (b : BoundBox)
  : BoundBox :=
  grow (grow (grow b (verts (v_0 tri))) (verts (v_1 tri))) (verts (v_2 tri)).

Definition verts_for_step (tri : Triangle) (verts vert_steps : float3_ptr)
    (num_verts num_steps step : Z) : float3x3 :=
  let center_step := wrap_size_t (num_steps - 1) / 2 in
  if step =? center_step then
    (verts (v_0 tri), verts (v_1 tri), verts (v_2 tri))
  else
    let step := if center_step <? step then wrap_size_t (step - 1) else step in
    let offset := wrap_size_t (step * num_verts) in
    (vert_steps (wrap_size_t (offset + v_0 tri)),
     vert_steps (wrap_size_t (offset + v_1 tri)),
     vert_steps (wrap_size_t (offset + v_2 tri))).

(** [(1.0f - t) * a + t * b]. *)
Definition lerp3 (t : float) (a b : float3) : float3 :=
  f3_add (f3_scale (fsub fone t) a) (f3_scale t b).

Definition motion_verts (tri : Triangle) (verts vert_steps : float3_ptr)
    (num_verts num_steps : Z) (time : float) : float3x3 :=
  let max_step := wrap_size_t (num_steps - 1) in
  let step := Z.min (size_t_of_float (fmul time (float_of_size_t max_step)))
                    (wrap_size_t (max_step - 1)) in
  let t := fsub (fmul time (float_of_size_t max_step)) (float_of_size_t step) in
  let '(c0, c1, c2) :=
    verts_for_step tri verts vert_steps num_verts num_steps step in
  let '(n0, n1, n2) :=
    verts_for_step tri verts vert_steps num_verts num_steps
                   (wrap_size_t (step + 1)) in
  (lerp3 t c0 n0, lerp3 t c1 n1, lerp3 t c2 n2).

Definition compute_normal (tri : Triangle) (verts : float3_ptr) : float3 :=
  let v0 := verts (v_0 tri) in
  let v1 := verts (v_1 tri) in
  let v2 := verts (v_2 tri) in
  let norm := cross (f3_sub v1 v0) (f3_sub v2 v0) in
  let normlen := len norm in
  if feqb normlen fzero then make_float3 fone fzero fzero
  else f3_div norm normlen.


(** Modelled from the spec: [num_triangles] of scene/mesh.h; the index
    array holds three vertex indices per triangle. *)
Definition num_triangles (m : Mesh) : Z := size (triangles m) / 3.

(** Modelled from the spec: [get_triangle] of scene/mesh.h, the three
    consecutive indices of triangle [i] in the flattened index array. *)
Definition get_triangle (m : Mesh) (i : Z) : Triangle :=
  mk_Triangle (array_get 0 (triangles m) (wrap_size_t (i * 3 + 0)))
              (array_get 0 (triangles m) (wrap_size_t (i * 3 + 1)))
              (array_get 0 (triangles m) (wrap_size_t (i * 3 + 2))).

(** * SubdFace *)

Record SubdFace : Type := mk_SubdFace {
  start_corner : Z;
  num_corners : Z;
  face_shader : Z;
  face_smooth : bool;
  ptex_offset : Z
}.

(** Modelled from the spec: [num_ptex_faces] of scene/mesh.h, 1 for a face
    of 4 corners and the number of corners otherwise. *)
Definition num_ptex_faces (s : SubdFace) : Z :=
  if num_corners s =? 4 then 1 else num_corners s.

Definition get_subd_face (m : Mesh) (index : Z) : SubdFace :=
  mk_SubdFace (array_get 0 (subd_start_corner m) index)
              (array_get 0 (subd_num_corners m) index)
              (array_get 0 (subd_shader m) index)
              (array_get false (subd_smooth m) index)
              (array_get 0 (subd_ptex_offset m) index).

(** Modelled from the spec: [get_num_subd_faces] of scene/mesh.h reports the
    stored face count. *)
Definition get_num_subd_faces (m : Mesh) : Z := num_subd_faces m.

Section SubdFaceNormal.

(** [safe_normalize] of util/math_float3.h is not part of the mesh source
    and the specification does not describe it: it is a parameter. *)
Variable safe_normalize : float3 -> float3.

Definition corner_position (mesh : Mesh) (s : SubdFace) (k : Z) : float3 :=
  array_get zero_float3 (verts mesh)
    (wrap_size_t
       (array_get 0 (subd_face_corners mesh)
          (wrap_size_t (start_corner s + k)))).

Definition SubdFace_normal (s : SubdFace) (mesh : Mesh) : float3 :=
  let v0 := corner_position mesh s 0 in
  let v1 := corner_position mesh s 1 in
  let v2 := corner_position mesh s 2 in
  safe_normalize (cross (f3_sub v1 v0) (f3_sub v2 v0)).

End SubdFaceNormal.

(** * Mesh: reservation and incremental construction *)

Definition reserve_mesh (numverts numtris : Z) (m : Mesh) : Mesh :=
  let m := set_verts (reserve (wrap_size_t numverts) (verts m)) m in
  let m := set_triangles
             (reserve (wrap_size_t (wrap_int (numtris * 3))) (triangles m)) m in
  let m := set_shader (reserve (wrap_size_t numtris) (shader m)) m in
  let m := set_smooth (reserve (wrap_size_t numtris) (smooth m)) m in
  (* attributes.resize(true): reserve only *)
  m.

Definition reserve_subd_faces (numfaces numcorners : Z) (m : Mesh) : Mesh :=
  let n := wrap_size_t numfaces in
  let m := set_subd_start_corner (reserve n (subd_start_corner m)) m in
  let m := set_subd_num_corners (reserve n (subd_num_corners m)) m in
  let m := set_subd_shader (reserve n (subd_shader m)) m in
  let m := set_subd_smooth (reserve n (subd_smooth m)) m in
  let m := set_subd_ptex_offset (reserve n (subd_ptex_offset m)) m in
  let m := set_subd_face_corners
             (reserve (wrap_size_t numcorners) (subd_face_corners m)) m in
  let m := set_num_subd_faces n m in
  (* subd_attributes.resize(true): reserve only *)
  m.

Definition reserve_subd_creases (num_creases : Z) (m : Mesh) : Mesh :=
  let m := set_subd_creases_edge
             (reserve (wrap_size_t (num_creases * 2)) (subd_creases_edge m)) m in
  let m := set_subd_creases_weight
             (reserve num_creases (subd_creases_weight m)) m in
  m.

Definition add_vertex (P : float3) (m : Mesh) : Mesh :=
  let m := set_verts (push_back_reserved P (verts m)) m in
  tag_modified SOCKET_verts m.

Definition add_vertex_slow (P : float3) (m : Mesh) : Mesh :=
  let m := set_verts (push_back_slow P (verts m)) m in
  tag_modified SOCKET_verts m.

Definition add_triangle (v0 v1 v2 shader_ : Z) (smooth_ : bool) (m : Mesh)
  : Mesh :=
  let m := set_triangles (push_back_reserved v0 (triangles m)) m in
  let m := set_triangles (push_back_reserved v1 (triangles m)) m in
  let m := set_triangles (push_back_reserved v2 (triangles m)) m in
  let m := set_shader (push_back_reserved shader_ (shader m)) m in
  let m := set_smooth (push_back_reserved smooth_ (smooth m)) m in
  let m := tag_modified SOCKET_triangles m in
  let m := tag_modified SOCKET_shader m in
  let m := tag_modified SOCKET_smooth m in
  m.

(** The loop [for (int i = 0; i < num_corners; i++)] of [add_subd_face],
    which appends [corners[i]] to the corner array.  [corners] is what the
    caller's [const int *] points to. *)
Definition push_corners (corners : list Z) (num_corners : Z)
    (subd_face_corners : array Z) : array Z :=
  fold_left
    (fun a i => push_back_reserved (buf_get 0 corners (Z.of_nat i)) a)
    (seq 0 (Z.to_nat num_corners)) subd_face_corners.

Definition add_subd_face (corners : list Z) (num_corners shader_ : Z)
    (smooth_ : bool) (m : Mesh) : Mesh :=
  let start_corner := wrap_int (size (subd_face_corners m)) in
  let m :=
    set_subd_face_corners
      (push_corners corners num_corners (subd_face_corners m)) m in
  let ptex_offset :=
    if size (subd_shader m) =? 0 then 0
    else
      (* the size is not 0 here: the subtraction stays a size_t *)
      let s := get_subd_face m (size (subd_shader m) - 1) in
      wrap_int (ptex_offset s + num_ptex_faces s) in
  let m := set_subd_start_corner
             (push_back_reserved start_corner (subd_start_corner m)) m in
  let m := set_subd_num_corners
             (push_back_reserved num_corners (subd_num_corners m)) m in
  let m := set_subd_shader (push_back_reserved shader_ (subd_shader m)) m in
  let m := set_subd_smooth (push_back_reserved smooth_ (subd_smooth m)) m in
  let m := set_subd_ptex_offset
             (push_back_reserved ptex_offset (subd_ptex_offset m)) m in
  let m := tag_modified SOCKET_subd_face_corners m in
  let m := tag_modified SOCKET_subd_start_corner m in
  let m := tag_modified SOCKET_subd_num_corners m in
  let m := tag_modified SOCKET_subd_shader m in
  let m := tag_modified SOCKET_subd_smooth m in
  let m := tag_modified SOCKET_subd_ptex_offset m in
  m.

Definition add_edge_crease (v0 v1 : Z) (weight : float) (m : Mesh) : Mesh :=
  let m := set_subd_creases_edge (push_back_slow v0 (subd_creases_edge m)) m in
  let m := set_subd_creases_edge (push_back_slow v1 (subd_creases_edge m)) m in
  let m := set_subd_creases_weight
             (push_back_slow weight (subd_creases_weight m)) m in
  let m := tag_modified SOCKET_subd_creases_edge m in
  let m := tag_modified SOCKET_subd_creases_edge m in
  let m := tag_modified SOCKET_subd_creases_weight m in
  m.

Definition add_vertex_crease (v : Z) (weight : float) (m : Mesh) : Mesh :=
  let m := set_subd_vert_creases (push_back_slow v (subd_vert_creases m)) m in
  let m := set_subd_vert_creases_weight
             (push_back_slow weight (subd_vert_creases_weight m)) m in
  let m := tag_modified SOCKET_subd_vert_creases m in
  let m := tag_modified SOCKET_subd_vert_creases_weight m in
  m.

(** * Mesh: derived data *)

(** The values [p[0], ..., p[n-1]] a loop [for (i = 0; i < n; i++)] reads. *)
Definition read_n (p : float3_ptr) (n : Z) : list float3 :=
  map (fun i => p (Z.of_nat i)) (seq 0 (Z.to_nat n)).

(** [verts.size() * (motion_steps - 1)], a [size_t] times a [uint]. *)
Definition steps_size (m : Mesh) : Z :=
  wrap_size_t (size (verts m) * wrap_uint (motion_steps m - 1)).

Definition compute_bounds (m : Mesh) : Mesh :=
  let bnds := BoundBox_empty in
  let verts_size := size (verts m) in
  let bnds :=
    if 0 <? verts_size then
      let bnds := fold_left grow (elems (verts m)) bnds in
      let attr := attr_find (attributes m) ATTR_STD_MOTION_VERTEX_POSITION in
      let bnds :=
        match attr with
        | Some a =>
            if use_motion_blur m then
              fold_left grow
                (read_n (ptr_of (data_float3 a)) (steps_size m)) bnds
            else bnds
        | None => bnds
        end in
      if negb (valid bnds) then
        let bnds := BoundBox_empty in
        (* skip nan or inf coordinates *)
        let bnds := fold_left grow_safe (elems (verts m)) bnds in
        match attr with
        | Some a =>
            if use_motion_blur m then
              fold_left grow_safe
                (read_n (ptr_of (data_float3 a)) (steps_size m)) bnds
            else bnds
        | None => bnds
        end
      else bnds
    else bnds in
  let bnds :=
    if negb (valid bnds) then
      (* empty mesh *)
      grow bnds zero_float3
    else bnds in
  set_bounds bnds m.

Definition has_motion_blur (m : Mesh) : bool :=
  use_motion_blur m
  && (attr_found (attributes m) ATTR_STD_MOTION_VERTEX_POSITION
      || (negb (SubdivisionType_eqb (subdivision_type m) SUBDIVISION_NONE)
          && attr_found (subd_attributes m) ATTR_STD_MOTION_VERTEX_POSITION)).

Inductive PrimitiveType : Type :=
  | PRIMITIVE_TRIANGLE
  | PRIMITIVE_MOTION_TRIANGLE.

Definition primitive_type (m : Mesh) : PrimitiveType :=
  if has_motion_blur m then PRIMITIVE_MOTION_TRIANGLE else PRIMITIVE_TRIANGLE.

(** ** Vertex normals *)

(** [std::fill_n(N + off, n, val)]. *)
Definition fill_n (N : list float3) (off n : Z) (val : float3) : list float3 :=
  fold_left (fun N i => buf_update N (off + Z.of_nat i) (fun _ => val))
            (seq 0 (Z.to_nat n)) N.

(** The loop over the triangles: the face normal computed from the positions
    [P] is added to the three vertices of the triangle in [N + off]. *)
Definition add_face_normals (m : Mesh) (P : float3_ptr) (off : Z)
    (triangles_size : Z) (N : list float3) : list float3 :=
  fold_left
    (fun N i =>
       let tri := get_triangle m (Z.of_nat i) in
       let fN := compute_normal tri P in
       let N := buf_update N (off + v_0 tri) (fun a => f3_add a fN) in
       let N := buf_update N (off + v_1 tri) (fun a => f3_add a fN) in
       let N := buf_update N (off + v_2 tri) (fun a => f3_add a fN) in
       N)
    (seq 0 (Z.to_nat triangles_size)) N.

(** The closing loop: every entry is normalized, and negated afterwards when
    [flip] is set. *)
Definition normalize_normals (flip : bool) (off verts_size : Z)
    (N : list float3) : list float3 :=
  fold_left
    (fun N i =>
       buf_update N (off + Z.of_nat i)
         (fun a => if flip then f3_neg (normalize a) else normalize a))
    (seq 0 (Z.to_nat verts_size)) N.

(** One pass of the three loops over the buffer [N + off]. *)
Definition vertex_normals_pass (m : Mesh) (P : float3_ptr) (off : Z)
    (N : list float3) : list float3 :=
  let N := fill_n N off (size (verts m)) zero_float3 in
  let N := add_face_normals m P off (num_triangles m) N in
  normalize_normals (transform_negative_scaled m) off (size (verts m)) N.

(** The motion steps [for (int step = 0; step < motion_steps - 1; step++)]. *)
Definition motion_normal_steps (m : Mesh) (mP : list float3)
    (mN : list float3) : list float3 :=
  fold_left
    (fun mN step =>
       let off := wrap_size_t (Z.of_nat step * size (verts m)) in
       vertex_normals_pass m (ptr_add (ptr_of mP) off) off mN)
    (seq 0 (Z.to_nat (wrap_uint (motion_steps m - 1)))) mN.

Section AddVertexNormals.

Variable safe_normalize : float3 -> float3.

(** The loop over the subdivision faces. *)
Definition add_subd_face_normals (m : Mesh) (vN : list float3)
  : list float3 :=
  fold_left
    (fun vN i =>
       let face := get_subd_face m (Z.of_nat i) in
       let fN := SubdFace_normal safe_normalize face m in
       fold_left
         (fun vN j =>
            let corner :=
              wrap_size_t
                (array_get 0 (subd_face_corners m)
                   (wrap_size_t (start_corner face + Z.of_nat j))) in
            buf_update vN corner (fun a => f3_add a fN))
         (seq 0 (Z.to_nat (wrap_size_t (num_corners face)))) vN)
    (seq 0 (Z.to_nat (get_num_subd_faces m))) vN.

(** The block [/* static vertex normals */]. *)
Definition static_vertex_normals (verts_size triangles_size : Z) (m : Mesh)
  : Mesh :=
  if negb (attr_found (attributes m) ATTR_STD_VERTEX_NORMAL)
     && negb (triangles_size =? 0)
  then
    let vN := repeat zero_float3 (Z.to_nat verts_size) in
    let vN := vertex_normals_pass m (ptr_of (elems (verts m))) 0 vN in
    set_attributes (attr_add (attributes m) ATTR_STD_VERTEX_NORMAL vN) m
  else m.

(** The block [/* motion vertex normals */]. *)
Definition motion_vertex_normals (triangles_size : Z) (m : Mesh) : Mesh :=
  let attr_mP := attr_find (attributes m) ATTR_STD_MOTION_VERTEX_POSITION in
  let attr_mN := attr_find (attributes m) ATTR_STD_MOTION_VERTEX_NORMAL in
  match attr_mP, attr_mN with
  | Some mP, None =>
      if has_motion_blur m && negb (triangles_size =? 0) then
        let mN := repeat zero_float3 (Z.to_nat (steps_size m)) in
        let mN := motion_normal_steps m (data_float3 mP) mN in
        set_attributes
          (attr_add (attributes m) ATTR_STD_MOTION_VERTEX_NORMAL mN) m
      else m
  | _, _ => m
  end.

(** The block [/* subd vertex normals */]. *)
Definition subd_vertex_normals (flip : bool) (verts_size : Z) (m : Mesh)
  : Mesh :=
  if negb (attr_found (subd_attributes m) ATTR_STD_VERTEX_NORMAL)
     && negb (get_num_subd_faces m =? 0)
  then
    let vN := repeat zero_float3 (Z.to_nat verts_size) in
    let vN := fill_n vN 0 (size (verts m)) zero_float3 in
    let vN := add_subd_face_normals m vN in
    let vN := normalize_normals flip 0 verts_size vN in
    set_subd_attributes
      (attr_add (subd_attributes m) ATTR_STD_VERTEX_NORMAL vN) m
  else m.

Definition add_vertex_normals (m : Mesh) : Mesh :=
  let flip := transform_negative_scaled m in
  let verts_size := size (verts m) in
  let triangles_size := num_triangles m in
  let m := static_vertex_normals verts_size triangles_size m in
  let m := motion_vertex_normals triangles_size m in
  let m := subd_vertex_normals flip verts_size m in
  m.

End AddVertexNormals.

(** * Mesh: packing *)

(** The part of the scene [pack_shaders] reads: the default surface shader
    (a node handle) and the shader manager's [get_shader_id]. *)
Record Scene : Type := mk_Scene {
  default_surface : Z;
  get_shader_id : Z -> bool -> Z
}.

(** The loop of [pack_shaders] over the triangle indices [idx], started with
    the locals [shader_id], [last_shader] and [last_smooth]; the result is
    what is written to [tri_shader]. *)
Fixpoint pack_shaders_loop (scene : Scene) (m : Mesh) (idx : list nat)
    (shader_id last_shader : Z) (last_smooth : bool) : list Z :=
  match idx with
  | [] => []
  | i :: idx' =>
      let new_shader :=
        if data_is_null (shader m) then INT_MAX
        else array_get 0 (shader m) (Z.of_nat i) in
      let new_smooth :=
        if data_is_null (smooth m) then false
        else array_get false (smooth m) (Z.of_nat i) in
      if negb (wrap_uint new_shader =? last_shader)
         || negb (Bool.eqb last_smooth new_smooth)
      then
        let last_shader := wrap_uint new_shader in
        let last_smooth := new_smooth in
        let shader :=
          if last_shader <? size (used_shaders m)
          then array_get 0 (used_shaders m) last_shader
          else default_surface scene in
        let shader_id := get_shader_id scene shader last_smooth in
        shader_id :: pack_shaders_loop scene m idx' shader_id last_shader last_smooth
      else
        shader_id :: pack_shaders_loop scene m idx' shader_id last_shader last_smooth
  end.

Definition pack_shaders (scene : Scene) (m : Mesh) : list Z :=
  let shader_id := 0 in
  let last_shader := wrap_uint (-1) in
  let last_smooth := false in
  let triangles_size := num_triangles m in
  pack_shaders_loop scene m (seq 0 (Z.to_nat triangles_size))
                    shader_id last_shader last_smooth.

(** * Construction sequences

    The reservation and append operations of the mesh as a datatype, and the
    mesh a sequence of them builds. *)

Inductive BuildOp : Type :=
  | OpReserveMesh (numverts numtris : Z)
  | OpReserveSubdFaces (numfaces numcorners : Z)
  | OpReserveSubdCreases (num_creases : Z)
  | OpAddVertex (P : float3)
  | OpAddVertexSlow (P : float3)
  | OpAddTriangle (v0 v1 v2 shader_ : Z) (smooth_ : bool)
  | OpAddSubdFace (corners : list Z) (num_corners shader_ : Z) (smooth_ : bool)
  | OpAddEdgeCrease (v0 v1 : Z) (weight : float)
  | OpAddVertexCrease (v : Z) (weight : float).

Definition apply_op (m : Mesh) (op : BuildOp) : Mesh :=
  match op with
  | OpReserveMesh nv nt => reserve_mesh nv nt m
  | OpReserveSubdFaces nf nc => reserve_subd_faces nf nc m
  | OpReserveSubdCreases n => reserve_subd_creases n m
  | OpAddVertex P => add_vertex P m
  | OpAddVertexSlow P => add_vertex_slow P m
  | OpAddTriangle v0 v1 v2 s b => add_triangle v0 v1 v2 s b m
  | OpAddSubdFace cs n s b => add_subd_face cs n s b m
  | OpAddEdgeCrease v0 v1 w => add_edge_crease v0 v1 w m
  | OpAddVertexCrease v w => add_vertex_crease v w m
  end.

Definition run (ops : list BuildOp) (m : Mesh) : Mesh :=
  fold_left apply_op ops m.

(** * The statements of the specification *)

(** ** Triangle arrays in lock-step *)

Definition triangles_in_sync (m : Mesh) : Prop :=
  size (triangles m) = 3 * size (shader m)
  /\ 3 * size (shader m) = 3 * size (smooth m).

(** ** Ptex offsets *)

(** The ptex faces of a face with [n] corners. *)
Definition ptex_face_count (n : Z) : Z := if n =? 4 then 1 else n.

(** The corner counts of the faces a construction sequence appends, in
    order. *)
Fixpoint appended_faces (ops : list BuildOp) : list Z :=
  match ops with
  | [] => []
  | OpAddSubdFace _ n _ _ :: ops' => n :: appended_faces ops'
  | _ :: ops' => appended_faces ops'
  end.

(** The sum of [ptex_face_count] over a list of corner counts. *)
Fixpoint ptex_sum (ns : list Z) : Z :=
  match ns with
  | [] => 0
  | n :: ns' => ptex_face_count n + ptex_sum ns'
  end.

(** No prefix of the faces before face [i] has a ptex total outside [int]. *)
Definition ptex_sums_in_int (ns : list Z) (i : nat) : Prop :=
  forall k : nat, (k <= i)%nat -> in_int (ptex_sum (firstn k ns)).

(** ** Logical sizes *)

(** The sizes of the arrays: vertices, triangle indices, shader and smooth
    entries, the five per-face arrays, corners, edge and vertex creases. *)
Definition array_sizes (m : Mesh) : list Z :=
  [ size (verts m); size (triangles m); size (shader m); size (smooth m);
    size (subd_start_corner m); size (subd_num_corners m);
    size (subd_shader m); size (subd_smooth m); size (subd_ptex_offset m);
    size (subd_face_corners m);
    size (subd_creases_edge m); size (subd_creases_weight m);
    size (subd_vert_creases m); size (subd_vert_creases_weight m) ].

(** The logical sizes the specification lists: the array sizes, the triangle
    count and the stored face count. *)
Definition logical_sizes (m : Mesh) : list Z :=
  num_triangles m :: get_num_subd_faces m :: array_sizes m.

(** A mesh operation that changes no logical size. *)
Definition keeps_logical_sizes (f : Mesh -> Mesh) : Prop :=
  forall m : Mesh, logical_sizes (f m) = logical_sizes m.

(** The capacities of the arrays, in the order of [array_sizes]. *)
Definition array_capacities (m : Mesh) : list Z :=
  [ capacity (verts m); capacity (triangles m); capacity (shader m);
    capacity (smooth m);
    capacity (subd_start_corner m); capacity (subd_num_corners m);
    capacity (subd_shader m); capacity (subd_smooth m);
    capacity (subd_ptex_offset m); capacity (subd_face_corners m);
    capacity (subd_creases_edge m); capacity (subd_creases_weight m);
    capacity (subd_vert_creases m); capacity (subd_vert_creases_weight m) ].

(** The mesh with every capacity forgotten: what is left is its logical
    state. *)
Definition forget_capacity {T : Type} (a : array T) : array T :=
  mk_array (elems a) 0.

Definition logical_state (m : Mesh) : Mesh :=
  mk_Mesh (attributes m) (use_motion_blur m) (motion_steps m)
    (transform_negative_scaled m) (forget_capacity (used_shaders m))
    (bounds m) (socket_modified m)
    (forget_capacity (triangles m)) (forget_capacity (verts m))
    (forget_capacity (shader m)) (forget_capacity (smooth m))
    (subdivision_type m)
    (forget_capacity (subd_vert_creases m))
    (forget_capacity (subd_vert_creases_weight m))
    (forget_capacity (subd_creases_edge m))
    (forget_capacity (subd_creases_weight m))
    (forget_capacity (subd_face_corners m))
    (forget_capacity (subd_start_corner m))
    (forget_capacity (subd_num_corners m))
    (forget_capacity (subd_shader m)) (forget_capacity (subd_smooth m))
    (forget_capacity (subd_ptex_offset m))
    (num_subd_faces m) (subd_attributes m).

(** ** Motion blur *)

Inductive Domain : Type :=
  | DOMAIN_TRIANGLE
  | DOMAIN_SUBD.

Definition domain_attributes (m : Mesh) (d : Domain) : AttributeSet :=
  match d with
  | DOMAIN_TRIANGLE => attributes m
  | DOMAIN_SUBD => subd_attributes m
  end.

(** The active domain: the triangle domain normally, the subdivision domain
    when subdivision is enabled and the motion-position attribute exists
    there instead. *)
Definition active_motion_domain (m : Mesh) : Domain :=
  if negb (SubdivisionType_eqb (subdivision_type m) SUBDIVISION_NONE)
     && attr_found (subd_attributes m) ATTR_STD_MOTION_VERTEX_POSITION
     && negb (attr_found (attributes m) ATTR_STD_MOTION_VERTEX_POSITION)
  then DOMAIN_SUBD
  else DOMAIN_TRIANGLE.

(** ** Temporal samples *)

(** The temporal sample [s] of a triangle by the rule of the data model: the
    center sample is the vertex array itself, any other sample [s] starts at
    offset [(s < center ? s : s - 1) * num_verts] of the motion buffer. *)
Definition temporal_sample (tri : Triangle) (verts vert_steps : float3_ptr)
    (num_verts num_steps s : Z) : float3x3 :=
  let center := (num_steps - 1) / 2 in
  if s =? center then (verts (v_0 tri), verts (v_1 tri), verts (v_2 tri))
  else
    let offset := (if s <? center then s else s - 1) * num_verts in
    (vert_steps (offset + v_0 tri), vert_steps (offset + v_1 tri),
     vert_steps (offset + v_2 tri)).

(** [step = min(floor(time * (num_steps - 1)), num_steps - 2)], with the
    product rounded to single precision before it is truncated. *)
Definition motion_step (num_steps : Z) (time : float) : Z :=
  Z.min (size_t_of_float (fmul time (float_of_size_t (num_steps - 1))))
        (num_steps - 2).

(** [t = time * (num_steps - 1) - step], in single precision. *)
Definition motion_t (num_steps : Z) (time : float) : float :=
  fsub (fmul time (float_of_size_t (num_steps - 1)))
       (float_of_size_t (motion_step num_steps time)).

(** [floor(time * n)] of the product without rounding, for a finite
    [time]. *)
Definition floor_mul (time : float) (n : Z) : Z :=
  match time with
  | S754_finite s m e =>
      let z := (if s then Zneg m else Zpos m) * n in
      if 0 <=? e then z * 2 ^ e else z / 2 ^ (- e)
  | _ => 0
  end.

(** [min(floor(time * (num_steps - 1)), num_steps - 2)] without rounding. *)
Definition exact_motion_step (num_steps : Z) (time : float) : Z :=
  Z.min (floor_mul time (num_steps - 1)) (num_steps - 2).

(** [time] lies in [0,1]. *)
Definition in_unit_interval (time : float) : Prop :=
  fleb fzero time = true /\ fleb time fone = true.

Definition lerp3x3 (t : float) (a b : float3x3) : float3x3 :=
  let '(a0, a1, a2) := a in
  let '(b0, b1, b2) := b in
  (lerp3 t a0 b0, lerp3 t a1 b1, lerp3 t a2 b2).

Definition isfinite3x3 (a : float3x3) : bool :=
  let '(a0, a1, a2) := a in isfinite3 a0 && isfinite3 a1 && isfinite3 a2.

Definition float_valid3 (a : float3) : bool :=
  float_valid (fx a) && float_valid (fy a) && float_valid (fz a).

Definition float_valid3x3 (a : float3x3) : bool :=
  let '(a0, a1, a2) := a in
  float_valid3 a0 && float_valid3 a1 && float_valid3 a2.

(** The value [r] is the value [a], except that it can be the positive zero
    where [a] is the negative zero. *)
Definition same_value (r a : float) : Prop :=
  r = a \/ (r = S754_zero false /\ a = S754_zero true).

Definition same_value3 (r a : float3) : Prop :=
  same_value (fx r) (fx a) /\ same_value (fy r) (fy a)
  /\ same_value (fz r) (fz a).

Definition same_value3x3 (r a : float3x3) : Prop :=
  same_value3 (fst (fst r)) (fst (fst a))
  /\ same_value3 (snd (fst r)) (snd (fst a))
  /\ same_value3 (snd r) (snd a).

(** ** Bounds *)

(** The motion-step samples: the buffer of the motion-position attribute of
    the triangle domain, when motion blur is on and the attribute exists. *)
Definition motion_samples (m : Mesh) : list float3 :=
  match attr_find (attributes m) ATTR_STD_MOTION_VERTEX_POSITION with
  | Some a => if use_motion_blur m then data_float3 a else []
  | None => []
  end.

(** The points the bounds are taken over: the vertices and the motion-step
    samples. *)
Definition bound_points (m : Mesh) : list float3 :=
  elems (verts m) ++ motion_samples m.

(** The motion-position attribute, when there is one, holds one position
    for each vertex and each motion step but the center, and that many
    positions can be counted in a [size_t] ([motion_steps] is a [uint]). *)
Definition motion_samples_stored (m : Mesh) : Prop :=
  forall a : Attribute,
    attr_find (attributes m) ATTR_STD_MOTION_VERTEX_POSITION = Some a ->
    1 <= motion_steps m < 2 ^ 32
    /\ Z.of_nat (length (data_float3 a))
       = size (verts m) * (motion_steps m - 1)
    /\ size (verts m) * (motion_steps m - 1) < 2 ^ 64.

(** The box grown from the empty box over a list of points. *)
Definition box_of (pts : list float3) : BoundBox :=
  fold_left grow pts BoundBox_empty.

(** The box grown from the empty box by the grow that skips the points that
    are not finite. *)
Definition safe_box_of (pts : list float3) : BoundBox :=
  fold_left grow_safe pts BoundBox_empty.

(** The box that contains exactly the origin. *)
Definition origin_box : BoundBox := mk_BoundBox zero_float3 zero_float3.

(** A point lies in a box. *)
Definition inside (b : BoundBox) (p : float3) : Prop :=
  fleb (fx (bmin b)) (fx p) = true /\ fleb (fx p) (fx (bmax b)) = true
  /\ fleb (fy (bmin b)) (fy p) = true /\ fleb (fy p) (fy (bmax b)) = true
  /\ fleb (fz (bmin b)) (fz p) = true /\ fleb (fz p) (fz (bmax b)) = true.

(** A point with an infinite coordinate. *)
Definition has_infinity (p : float3) : bool :=
  isinf (fx p) || isinf (fy p) || isinf (fz p).

(** ** Corners of subdivision faces *)



(** ** Shader ids *)

(** The renderer id of a triangle with shader index [sh] and smooth flag
    [sm]: resolved from the indexed shader when the index, seen as unsigned,
    is inside the used-shaders list, from the default surface shader
    otherwise. *)
Definition resolved_shader_id (scene : Scene) (m : Mesh) (sh : Z) (sm : bool)
  : Z :=
  let u := wrap_uint sh in
  get_shader_id scene
    (if u <? size (used_shaders m) then array_get 0 (used_shaders m) u
     else default_surface scene)
    sm.

(** * Invariants and auxiliary notions of the proofs *)

(** The preconditions of the triangle accessors: the motion buffer of
    [num_verts * (num_steps - 1)] elements has a [size_t] size and the
    triangle's indices are vertex indices. *)
Definition motion_layout (tri : Triangle) (num_verts num_steps : Z) : Prop :=
  2 <= num_steps
  /\ num_verts * (num_steps - 1) < 2 ^ 64
  /\ 0 <= v_0 tri < num_verts
  /\ 0 <= v_1 tri < num_verts
  /\ 0 <= v_2 tri < num_verts.


(** What a construction sequence leaves in the per-face arrays: the corner
    counts as given, as many shader entries and ptex offsets as faces, and
    at every index whose running totals fit an [int] the total of the faces
    before. *)
Definition ptex_invariant (ns : list Z) (m : Mesh) : Prop :=
  elems (subd_num_corners m) = ns
  /\ length (elems (subd_shader m)) = length ns
  /\ length (elems (subd_ptex_offset m)) = length ns
  /\ forall i : nat, (i < length ns)%nat -> ptex_sums_in_int ns i ->
       nth i (elems (subd_ptex_offset m)) 0 = ptex_sum (firstn i ns).

(** A coordinate of the box that no later point repairs: a NaN corner, an
    upper corner at +infinity, a lower corner at -infinity. *)
Definition poisoned (lo hi : float) : bool :=
  isnan lo || isnan hi
  || match hi with S754_infinity false => true | _ => false end
  || match lo with S754_infinity true => true | _ => false end.

(** A box with a coordinate that no later point repairs. *)
Definition box_poisoned (b : BoundBox) : bool :=
  poisoned (fx (bmin b)) (fx (bmax b))
  || poisoned (fy (bmin b)) (fy (bmax b))
  || poisoned (fz (bmin b)) (fz (bmax b)).

(** Both corners of the box are finite (they need not be ordered, as in the
    empty box). *)
Definition corners_finite (b : BoundBox) : bool :=
  isfinite3 (bmin b) && isfinite3 (bmax b).

(** No coordinate of the point is NaN. *)
Definition no_nan3 (p : float3) : bool :=
  negb (isnan (fx p)) && negb (isnan (fy p)) && negb (isnan (fz p)).

(** No corner coordinate of the box is NaN. *)
Definition corners_no_nan (b : BoundBox) : bool :=
  no_nan3 (bmin b) && no_nan3 (bmax b).

(** [a] is a zero, a finite value or an infinity of the sign [s]. *)
Definition has_sign (s : bool) (a : float) : Prop :=
  match a with
  | S754_nan => False
  | S754_zero s' | S754_infinity s' | S754_finite s' _ _ => s' = s
  end.

(** One of the three coordinate projections. *)
Definition is_coord (c : float3 -> float) : Prop := c = fx \/ c = fy \/ c = fz.

(** A coordinate within the range of the finite single-precision values. *)
Definition in_float_range (a : float) : bool :=
  fleb (fneg FLT_MAX) a && fleb a FLT_MAX.

Definition in_float_range3 (p : float3) : bool :=
  in_float_range (fx p) && in_float_range (fy p) && in_float_range (fz p).

(** Every corner coordinate of the box is the coordinate of one of the
    points. *)
Definition attained (b : BoundBox) (pts : list float3) : Prop :=
  forall c : float3 -> float, is_coord c ->
    (exists p, In p pts /\ c (bmin b) = c p)
    /\ (exists p, In p pts /\ c (bmax b) = c p).

(** The guards of the three blocks of [add_vertex_normals], as seen from a
    mesh in which the block has nothing left to do; first the static
    block. *)
Definition static_done (triangles_size : Z) (m : Mesh) : Prop :=
  attr_found (attributes m) ATTR_STD_VERTEX_NORMAL = true
  \/ triangles_size = 0.

(** The motion block has nothing left to do. *)
Definition motion_done (triangles_size : Z) (m : Mesh) : Prop :=
  attr_found (attributes m) ATTR_STD_MOTION_VERTEX_POSITION = false
  \/ attr_found (attributes m) ATTR_STD_MOTION_VERTEX_NORMAL = true
  \/ has_motion_blur m = false
  \/ triangles_size = 0.

(** The subdivision block has nothing left to do. *)
Definition subd_done (m : Mesh) : Prop :=
  attr_found (subd_attributes m) ATTR_STD_VERTEX_NORMAL = true
  \/ get_num_subd_faces m = 0.

(** What a block leaves alone. *)
Definition same_geometry (m m' : Mesh) : Prop :=
  verts m' = verts m /\ triangles m' = triangles m
  /\ transform_negative_scaled m' = transform_negative_scaled m
  /\ use_motion_blur m' = use_motion_blur m
  /\ subdivision_type m' = subdivision_type m
  /\ num_subd_faces m' = num_subd_faces m.

(** What the loop of [pack_shaders] reads for triangle [i]: [new_shader] and
    [new_smooth]. *)
Definition triangle_shader (m : Mesh) (i : nat) : Z :=
  if data_is_null (shader m) then INT_MAX
  else array_get 0 (shader m) (Z.of_nat i).

Definition triangle_smooth (m : Mesh) (i : nat) : bool :=
  if data_is_null (smooth m) then false
  else array_get false (smooth m) (Z.of_nat i).

(** The pair the loop compares with [last_shader] and [last_smooth]. *)
Definition same_as_last (m : Mesh) (last_shader : Z) (last_smooth : bool)
    (i : nat) : bool :=
  (wrap_uint (triangle_shader m i) =? last_shader)
  && Bool.eqb last_smooth (triangle_smooth m i).

(** No triangle up to [i] differs from the initial [last_shader = -1],
    [last_smooth = false]. *)
Definition never_resolved (m : Mesh) (i : nat) : bool :=
  forallb (same_as_last m (wrap_uint (-1)) false) (seq 0 (S i)).


(** A normalization that hands a vector of zero length back unchanged; one
    function that [safe_normalize] can stand for. *)
Definition zero_guarded_normalize (a : float3) : float3 :=
  if feqb (len a) fzero then a else normalize a.

(** * Example meshes *)

Definition point (px py pz : Z) : float3 :=
  make_float3 (float_of_Z px) (float_of_Z py) (float_of_Z pz).

(** The triangle [(0,0,0), (1,0,0), (0,1,0)]. *)
Definition unit_triangle_verts : list float3 :=
  [point 0 0 0; point 1 0 0; point 0 1 0].

(** A triangle over three motion steps: the positions of step 1 are the
    vertex array, those of steps 0 and 2 the motion buffer. *)
Definition moving_triangle_steps : list float3 :=
  [point 0 0 (-1); point 1 0 (-1); point 0 1 (-1);
   point 0 0 1; point 1 0 1; point 0 1 1].

(** A unit square as one subdivision face. *)
Definition square_mesh : Mesh :=
  run [OpAddVertex (point 0 0 0); OpAddVertex (point 1 0 0);
       OpAddVertex (point 1 1 0); OpAddVertex (point 0 1 0);
       OpAddSubdFace [0; 1; 2; 3] 4 0 true] Mesh_new.

(** Three vertices, the second with a NaN coordinate. *)
Definition nan_vertex_mesh : Mesh :=
  run [OpAddVertex (point 1 2 3);
       OpAddVertex (make_float3 S754_nan fzero fzero);
       OpAddVertex (point (-1) 5 0)] Mesh_new.

(** The triangle over the three vertices of the examples. *)
Definition first_triangle : Triangle := mk_Triangle 0 1 2.

(** The unit triangle with its first vertex moved to infinity along x. *)
Definition infinite_vertex_verts : list float3 :=
  [make_float3 (S754_infinity false) fzero fzero; make_float3 fone fzero fzero;
   make_float3 fzero fone fzero].






(** One vertex at the origin over two motion steps: step 0 is the vertex
    array, step 1 the motion buffer, with an infinite coordinate. *)
Definition point_triangle : Triangle := mk_Triangle 0 0 0.

Definition origin_verts : list float3 := [zero_float3].

Definition infinite_step : list float3 :=
  [make_float3 (S754_infinity false) fzero fzero].

(** One vertex with a negative zero coordinate. *)
Definition negative_zero_verts : list float3 :=
  [make_float3 (S754_zero true) fzero fzero].

(** One vertex over seven motion steps: the sample [s] is the point
    [(s, 0, 0)], but the last, which is at infinity; the center sample 3 is
    the vertex array. *)
Definition seven_steps : list float3 :=
  [point 0 0 0; point 1 0 0; point 2 0 0; point 4 0 0; point 5 0 0;
   make_float3 (S754_infinity false) fzero fzero].

Definition seven_steps_verts : list float3 := [point 3 0 0].

(** The largest [float] below 5/6. *)
Definition time_below_five_sixths : float := S754_finite false 13981013 (-24).

(** One vertex over [2^24 + 2] motion steps; the position at the index [i]
    of the motion buffer is [(i, 0, 0)]. *)
Definition counting_steps : float3_ptr :=
  fun i => make_float3 (float_of_Z i) fzero fzero.





(** A quad followed by a pentagon. *)
Definition quad_pentagon_ops : list BuildOp :=
  [OpAddSubdFace [0; 1; 2; 3] 4 0 true;
   OpAddSubdFace [3; 2; 4; 5; 6] 5 0 true].

(** A mesh with motion blur on and a motion-position attribute in the
    triangle domain. *)
Definition motion_blur_mesh : Mesh :=
  mk_Mesh [mk_Attribute ATTR_STD_MOTION_VERTEX_POSITION []] true 3 false
    array_empty BoundBox_empty []
    array_empty array_empty array_empty array_empty SUBDIVISION_NONE
    array_empty array_empty array_empty array_empty
    array_empty array_empty array_empty array_empty array_empty array_empty
    0 [].

(** One vertex at the origin over three motion steps, with motion blur on:
    the sample of step 0 is [(5, 0, 0)], that of step 2 has an infinite
    coordinate. *)
Definition escaping_vertex_mesh : Mesh :=
  mk_Mesh [mk_Attribute ATTR_STD_MOTION_VERTEX_POSITION
             [point 5 0 0; make_float3 (S754_infinity false) fzero fzero]]
    true 3 false array_empty BoundBox_empty []
    array_empty (mk_array [point 0 0 0] 1) array_empty array_empty
    SUBDIVISION_NONE
    array_empty array_empty array_empty array_empty
    array_empty array_empty array_empty array_empty array_empty array_empty
    0 [].

(** * Further operations of the mesh *)

(** Modelled from the spec: [array::resize] of util/array.h sets the logical
    size; the slots it adds are zero-initialized ([d] is the zero of the
    element type) and the slots it keeps are unchanged. *)
Definition resize {T : Type} (d : T) (newsize : Z) (a : array T) : array T :=
  mk_array
    (firstn (Z.to_nat newsize) (elems a)
     ++ repeat d (Z.to_nat newsize - length (elems a)))
    (Z.max (capacity a) newsize).

Section Resize.

(** [AttributeSet::resize()] of scene/attribute.h, which fits the buffers of
    an attribute set to the geometry, is not part of the mesh source: it is
    a parameter, given the domain of the set and the mesh it belongs to. *)
Variable resize_attributes : Domain -> Mesh -> AttributeSet.

Definition resize_mesh (numverts numtris : Z) (m : Mesh) : Mesh :=
  let m := set_verts (resize zero_float3 (wrap_size_t numverts) (verts m)) m in
  let m := set_triangles
             (resize 0 (wrap_size_t (wrap_int (numtris * 3)))
                     (triangles m)) m in
  let m := set_shader (resize 0 (wrap_size_t numtris) (shader m)) m in
  let m := set_smooth (resize false (wrap_size_t numtris) (smooth m)) m in
  set_attributes (resize_attributes DOMAIN_TRIANGLE m) m.

Definition resize_subd_faces (numfaces numcorners : Z) (m : Mesh) : Mesh :=
  let n := wrap_size_t numfaces in
  let m := set_subd_start_corner (resize 0 n (subd_start_corner m)) m in
  let m := set_subd_num_corners (resize 0 n (subd_num_corners m)) m in
  let m := set_subd_shader (resize 0 n (subd_shader m)) m in
  let m := set_subd_smooth (resize false n (subd_smooth m)) m in
  let m := set_subd_ptex_offset (resize 0 n (subd_ptex_offset m)) m in
  let m := set_subd_face_corners
             (resize 0 (wrap_size_t numcorners) (subd_face_corners m)) m in
  let m := set_num_subd_faces n m in
  set_subd_attributes (resize_attributes DOMAIN_SUBD m) m.

End Resize.

(** The writes through the pointer [data_float3()] of the attribute that
    [find(std)] gives: [f] is what they make of its buffer. *)
Fixpoint attr_write (s : AttributeSet) (std : AttributeStandard)
    (f : list float3 -> list float3) : AttributeSet :=
  match s with
  | [] => []
  | a :: s' =>
      if AttributeStandard_eqb (attr_std a) std
      then mk_Attribute (attr_std a) (f (data_float3 a)) :: s'
      else a :: attr_write s' std f
  end.

(** [std::copy_n(src, n, dst + off)]. *)
Definition copy_n (src : float3_ptr) (n : Z) (dst : list float3) (off : Z)
  : list float3 :=
  fold_left
    (fun d i => buf_update d (off + Z.of_nat i) (fun _ => src (Z.of_nat i)))
    (seq 0 (Z.to_nat n)) dst.

(** What is read through a null pointer is undefined in C++; the model reads
    zeros. *)
Definition null_ptr : float3_ptr := fun _ => zero_float3.

(** [copy_center_to_motion_step]; the offset [motion_step * numverts] is a
    product in [size_t]. *)
Definition copy_center_to_motion_step (motion_step : Z) (m : Mesh) : Mesh :=
  match attr_find (attributes m) ATTR_STD_MOTION_VERTEX_POSITION with
  | Some _ =>
      let attr_mN := attr_find (attributes m) ATTR_STD_MOTION_VERTEX_NORMAL in
      let attr_N := attr_find (attributes m) ATTR_STD_VERTEX_NORMAL in
      let P := ptr_of (elems (verts m)) in
      let N := match attr_N with
               | Some a => ptr_of (data_float3 a)
               | None => null_ptr
               end in
      let numverts := size (verts m) in
      let off := wrap_size_t (motion_step * numverts) in
      let attrs :=
        attr_write (attributes m) ATTR_STD_MOTION_VERTEX_POSITION
                   (fun d => copy_n P numverts d off) in
      let attrs :=
        match attr_mN with
        | Some _ =>
            attr_write attrs ATTR_STD_MOTION_VERTEX_NORMAL
                       (fun d => copy_n N numverts d off)
        | None => attrs
        end in
      set_attributes attrs m
  | None => m
  end.

Section AddUndisplaced.

(** [Attribute::element_size] of scene/attribute.h, the number of elements
    of a per-vertex attribute of the mesh in a domain, is not part of the
    mesh source: it is a parameter. *)
Variable element_size : Mesh -> Domain -> Z.

Definition add_undisplaced (m : Mesh) : Mesh :=
  let d := if SubdivisionType_eqb (subdivision_type m) SUBDIVISION_NONE
           then DOMAIN_TRIANGLE else DOMAIN_SUBD in
  let attrs := domain_attributes m d in
  (* don't compute if already there *)
  if attr_found attrs ATTR_STD_POSITION_UNDISPLACED then m
  else
    let data := repeat zero_float3 (Z.to_nat (element_size m d)) in
    (* copy verts *)
    let size := element_size m DOMAIN_TRIANGLE in
    let data :=
      if size =? 0 then data
      else copy_n (ptr_of (elems (verts m))) size data 0 in
    let attrs := attr_add attrs ATTR_STD_POSITION_UNDISPLACED data in
    match d with
    | DOMAIN_TRIANGLE => set_attributes attrs m
    | DOMAIN_SUBD => set_subd_attributes attrs m
    end.

End AddUndisplaced.

(** [packed_uint3]. *)
Definition packed_uint3 : Type := (Z * Z * Z)%type.

(** The second loop of [pack_verts], over [n] triangles from the running
    [int off].  An [off] that leaves the [int] range is undefined in C++;
    the model wraps it. *)
Fixpoint pack_vindex_loop (p_tris : Z -> Z) (vert_offset : Z) (n : nat)
    (off : Z) : list packed_uint3 :=
  match n with
  | O => []
  | S n' =>
      (wrap_uint (p_tris (off + 0) + vert_offset),
       wrap_uint (p_tris (off + 1) + vert_offset),
       wrap_uint (p_tris (off + 2) + vert_offset))
      :: pack_vindex_loop p_tris vert_offset n' (wrap_int (off + 3))
  end.

(** [pack_verts]: what is written to [tri_verts] and to [tri_vindex].  The
    member [vert_offset] of the mesh is passed in. *)
Definition pack_verts (vert_offset : Z) (m : Mesh)
  : list float3 * list packed_uint3 :=
  let verts_size := size (verts m) in
  let triangles_size := num_triangles m in
  let p_tris := buf_get 0 (elems (triangles m)) in
  (map (fun i => array_get zero_float3 (verts m) (Z.of_nat i))
       (seq 0 (Z.to_nat verts_size)),
   pack_vindex_loop p_tris vert_offset (Z.to_nat triangles_size) 0).

Definition set_subdivision_type (v : SubdivisionType) (m : Mesh) : Mesh :=
  mk_Mesh (attributes m) (use_motion_blur m) (motion_steps m)
    (transform_negative_scaled m) (used_shaders m) (bounds m)
    (socket_modified m) (triangles m) (verts m) (shader m) (smooth m)
    v (subd_vert_creases m) (subd_vert_creases_weight m)
    (subd_creases_edge m) (subd_creases_weight m) (subd_face_corners m)
    (subd_start_corner m) (subd_num_corners m) (subd_shader m)
    (subd_smooth m) (subd_ptex_offset m) (num_subd_faces m)
    (subd_attributes m).

(** Modelled from the spec: [array::clear] of util/array.h drops the
    content of the array. *)
Definition array_clear {T : Type} (a : array T) : array T := array_empty.

Section Clear.

(** [Geometry::clear] of scene/geometry.h, which resets the geometry base
    and keeps the used shaders when asked to, is not part of the mesh
    source: it is a parameter.  So is what [AttributeSet::clear] of
    scene/attribute.h keeps of an attribute set when the voxel data is to
    be preserved. *)
Variable Geometry_clear : bool -> Mesh -> Mesh.
Variable voxel_attributes : AttributeSet -> AttributeSet.

Definition clear_non_sockets (m : Mesh) : Mesh :=
  let m := Geometry_clear true m in
  (* num_subd_added_verts = 0: the member is not part of the model *)
  set_num_subd_faces 0 m.

Definition clear (preserve_shaders preserve_voxel_data : bool) (m : Mesh)
  : Mesh :=
  let m := Geometry_clear preserve_shaders m in
  (* clear all verts and triangles *)
  let m := set_verts (array_clear (verts m)) m in
  let m := set_triangles (array_clear (triangles m)) m in
  let m := set_shader (array_clear (shader m)) m in
  let m := set_smooth (array_clear (smooth m)) m in
  let m := set_subd_start_corner (array_clear (subd_start_corner m)) m in
  let m := set_subd_num_corners (array_clear (subd_num_corners m)) m in
  let m := set_subd_shader (array_clear (subd_shader m)) m in
  let m := set_subd_smooth (array_clear (subd_smooth m)) m in
  let m := set_subd_ptex_offset (array_clear (subd_ptex_offset m)) m in
  let m := set_subd_face_corners (array_clear (subd_face_corners m)) m in
  let m := set_subd_creases_edge (array_clear (subd_creases_edge m)) m in
  let m := set_subd_creases_weight (array_clear (subd_creases_weight m)) m in
  let m := set_subd_attributes [] m in
  let m := set_attributes
             (if preserve_voxel_data then voxel_attributes (attributes m)
              else []) m in
  let m := set_subdivision_type SUBDIVISION_NONE m in
  clear_non_sockets m.

End Clear.

(** A loop [for (i = 0; i < n; i++) buf[i] = f(buf[i])]. *)
Definition transform_n (f : float3 -> float3) (n : Z) (buf : list float3)
  : list float3 :=
  fold_left (fun b i => buf_update b (Z.of_nat i) f) (seq 0 (Z.to_nat n)) buf.

Section ApplyTransform.

(** [transform_point(&tfm, .)] and [transform_direction(&ntfm, .)] of
    util/transform.h, for the transform [tfm] that is applied and for
    [ntfm = transform_transposed_inverse(tfm)], are not part of the mesh
    source: they are parameters.  The member [transform_normal], which
    keeps [ntfm], is not part of the model. *)
Variable transform_point : float3 -> float3.
Variable transform_direction_normal : float3 -> float3.

Definition apply_transform (apply_to_motion : bool) (m : Mesh) : Mesh :=
  (* apply to mesh vertices *)
  let m :=
    set_verts (mk_array (transform_n transform_point (size (verts m))
                                     (elems (verts m)))
                        (capacity (verts m))) m in
  let m := tag_modified SOCKET_verts m in
  if apply_to_motion then
    let m :=
      match attr_find (attributes m) ATTR_STD_MOTION_VERTEX_POSITION with
      | Some _ =>
          set_attributes
            (attr_write (attributes m) ATTR_STD_MOTION_VERTEX_POSITION
                        (transform_n transform_point (steps_size m))) m
      | None => m
      end in
    let m :=
      match attr_find (attributes m) ATTR_STD_MOTION_VERTEX_NORMAL with
      | Some _ =>
          set_attributes
            (attr_write (attributes m) ATTR_STD_MOTION_VERTEX_NORMAL
               (transform_n
                  (fun a => normalize (transform_direction_normal a))
                  (steps_size m))) m
      | None => m
      end in
    m
  else m.

End ApplyTransform.

Section PackNormals.

(** [safe_normalize] of util/math_float3.h and [transform_direction] of
    util/transform.h, here with the normal transform of the mesh, are not
    part of the mesh source: they are parameters. *)
Variable safe_normalize : float3 -> float3.
Variable transform_direction_normal : float3 -> float3.

(** [pack_normals]: what is written to [vnormal], nothing when the mesh has
    no vertex normals.  The member [transform_applied] of the mesh is passed
    in. *)
Definition pack_normals (transform_applied : bool) (m : Mesh)
  : option (list float3) :=
  match attr_find (attributes m) ATTR_STD_VERTEX_NORMAL with
  | None => None
  | Some attr_vN =>
      let do_transform := transform_applied in
      let vN := ptr_of (data_float3 attr_vN) in
      let verts_size := size (verts m) in
      if do_transform then
        Some (map (fun i =>
                     safe_normalize
                       (transform_direction_normal (vN (Z.of_nat i))))
                  (seq 0 (Z.to_nat verts_size)))
      else
        Some (map (fun i => vN (Z.of_nat i)) (seq 0 (Z.to_nat verts_size)))
  end.

End PackNormals.

(** Modelled from the spec: [*_is_modified()] of graph/node.h, the modified
    flag of a socket. *)
Definition is_modified (s : Socket) (m : Mesh) : bool :=
  set_mem Socket_eq_dec s (socket_modified m).

(** [need_tesselation].  The modified flags of the subdivision parameters
    (dicing rate, object transform, maximum level) are passed in. *)
Definition need_tesselation
    (subd_dicing_rate_is_modified subd_objecttoworld_is_modified
     subd_max_level_is_modified : bool) (m : Mesh) : bool :=
  negb (SubdivisionType_eqb (subdivision_type m) SUBDIVISION_NONE)
  && (is_modified SOCKET_verts m || subd_dicing_rate_is_modified
      || subd_objecttoworld_is_modified || subd_max_level_is_modified).

(** * Further statements *)

(** ** Subdivision faces and creases *)

(** The five per-face arrays hold one entry per face. *)
Definition subd_faces_in_sync (m : Mesh) : Prop :=
  size (subd_start_corner m) = size (subd_shader m)
  /\ size (subd_num_corners m) = size (subd_shader m)
  /\ size (subd_smooth m) = size (subd_shader m)
  /\ size (subd_ptex_offset m) = size (subd_shader m).

(** The corners a list of faces takes in the corner array: the loop of
    [add_subd_face] appends nothing for a corner count below 1. *)
Fixpoint corner_sum (ns : list Z) : Z :=
  match ns with
  | [] => 0
  | n :: ns' => Z.max 0 n + corner_sum ns'
  end.

(** What a construction sequence leaves in the corner array and in the
    array of start corners. *)
Definition corner_invariant (ns : list Z) (m : Mesh) : Prop :=
  size (subd_face_corners m) = corner_sum ns
  /\ length (elems (subd_start_corner m)) = length ns
  /\ forall i : nat, (i < length ns)%nat ->
       nth i (elems (subd_start_corner m)) 0
       = wrap_int (corner_sum (firstn i ns)).

(** Two indices per edge crease weight, one index per vertex crease
    weight. *)
Definition creases_in_sync (m : Mesh) : Prop :=
  size (subd_creases_edge m) = 2 * size (subd_creases_weight m)
  /\ size (subd_vert_creases m) = size (subd_vert_creases_weight m).

(** ** Packed shader ids *)

(** The resolved id of every triangle, in order. *)
Definition resolved_ids (scene : Scene) (m : Mesh) : list Z :=
  map (fun i => resolved_shader_id scene m (triangle_shader m i)
                                   (triangle_smooth m i))
      (seq 0 (Z.to_nat (num_triangles m))).

(** ** Interpolated positions *)

(** Two pointers that read the same from the first [n] elements. *)
Definition same_reads (n : Z) (p q : float3_ptr) : Prop :=
  forall i : Z, 0 <= i < n -> p i = q i.

(** ** Motion steps filled from the center *)

(** The block of the motion buffer that holds the temporal sample [s], for
    [s] other than the center. *)
Definition motion_block (num_steps s : Z) : Z :=
  if s <? (num_steps - 1) / 2 then s else s - 1.

(** The three positions of a triangle in the vertex array. *)
Definition center_positions (tri : Triangle) (verts : float3_ptr) : float3x3 :=
  (verts (v_0 tri), verts (v_1 tri), verts (v_2 tri)).

(** The buffer of the motion-position attribute of the triangle domain. *)
Definition motion_positions (m : Mesh) : list float3 :=
  match attr_find (attributes m) ATTR_STD_MOTION_VERTEX_POSITION with
  | Some a => data_float3 a
  | None => []
  end.

(** ** Vertex normals *)

(** The mesh [m'] is the mesh [m] with attributes added at the end of its
    two attribute sets, and nothing else changed. *)
Definition extends_attributes (m m' : Mesh) : Prop :=
  exists added subd_added : list Attribute,
    m' = set_subd_attributes (subd_attributes m ++ subd_added)
           (set_attributes (attributes m ++ added) m).

(** What the loop over the triangles adds up for the vertex [v]: the face
    normal of every triangle, once for each of its corners that is [v], in
    the order of the triangles. *)
Definition vertex_normal_sum (m : Mesh) (P : float3_ptr) (v : Z) : float3 :=
  fold_left
    (fun acc i =>
       let tri := get_triangle m (Z.of_nat i) in
       let fN := compute_normal tri P in
       let acc := if v_0 tri =? v then f3_add acc fN else acc in
       let acc := if v_1 tri =? v then f3_add acc fN else acc in
       let acc := if v_2 tri =? v then f3_add acc fN else acc in
       acc)
    (seq 0 (Z.to_nat (num_triangles m))) zero_float3.

(** The closing step: normalized, and negated when the transform of the
    object has a negative scale. *)
Definition finish_normal (flip : bool) (a : float3) : float3 :=
  if flip then f3_neg (normalize a) else normalize a.

(** The buffer of the vertex-normal attribute of the triangle domain, when
    there is one. *)
Definition vertex_normals (m : Mesh) : option (list float3) :=
  option_map data_float3 (attr_find (attributes m) ATTR_STD_VERTEX_NORMAL).

(** ** Undisplaced positions *)

(** The domain [add_undisplaced] works on: the subdivision domain when
    subdivision is enabled, the triangle domain otherwise. *)
Definition undisplaced_domain (m : Mesh) : Domain :=
  if SubdivisionType_eqb (subdivision_type m) SUBDIVISION_NONE
  then DOMAIN_TRIANGLE else DOMAIN_SUBD.

(** ** Packed vertex indices *)

(** The three indices of a triangle, each moved by the vertex offset of the
    mesh and taken as an unsigned value. *)
Definition packed_triangle (vert_offset : Z) (tri : Triangle) : packed_uint3 :=
  (wrap_uint (v_0 tri + vert_offset), wrap_uint (v_1 tri + vert_offset),
   wrap_uint (v_2 tri + vert_offset)).

(** ** Clearing *)

(** Two meshes hold the same vertices and triangles, the same subdivision
    faces and the same edge creases. *)
Definition same_data (m m' : Mesh) : Prop :=
  elems (verts m') = elems (verts m)
  /\ elems (triangles m') = elems (triangles m)
  /\ elems (shader m') = elems (shader m)
  /\ elems (smooth m') = elems (smooth m)
  /\ elems (subd_face_corners m') = elems (subd_face_corners m)
  /\ elems (subd_start_corner m') = elems (subd_start_corner m)
  /\ elems (subd_num_corners m') = elems (subd_num_corners m)
  /\ elems (subd_shader m') = elems (subd_shader m)
  /\ elems (subd_smooth m') = elems (subd_smooth m)
  /\ elems (subd_ptex_offset m') = elems (subd_ptex_offset m)
  /\ elems (subd_creases_edge m') = elems (subd_creases_edge m)
  /\ elems (subd_creases_weight m') = elems (subd_creases_weight m).

(** A function on the geometry base leaves the members of the mesh
    alone. *)
Definition keeps_mesh_members (f : Mesh -> Mesh) : Prop :=
  forall m : Mesh,
    same_data m (f m)
    /\ subd_vert_creases (f m) = subd_vert_creases m
    /\ subd_vert_creases_weight (f m) = subd_vert_creases_weight m
    /\ subdivision_type (f m) = subdivision_type m
    /\ num_subd_faces (f m) = num_subd_faces m
    /\ subd_attributes (f m) = subd_attributes m.

(** * Further examples *)

(** A scene whose shader ids tell the shader and the smooth flag apart. *)
Definition example_scene : Scene :=
  mk_Scene 7 (fun sh sm => 2 * sh + (if sm then 1 else 0)).

(** Two triangles over four vertices, with the shader indices 0 and 1. *)
Definition two_triangle_mesh : Mesh :=
  run [OpAddVertex (point 0 0 0); OpAddVertex (point 1 0 0);
       OpAddVertex (point 0 1 0); OpAddVertex (point 1 1 0);
       OpAddTriangle 0 1 2 0 true; OpAddTriangle 2 1 3 1 false] Mesh_new.

(** The buffers of the moving triangle, each followed by one more element
    that belongs to neither. *)
Definition padded_triangle_verts : list float3 :=
  unit_triangle_verts ++ [point 9 9 9].

Definition padded_triangle_steps : list float3 :=
  moving_triangle_steps ++ [point 9 9 9].

(** The triangle of the examples as a mesh with three motion steps. *)
Definition moving_triangle_mesh : Mesh :=
  mk_Mesh [mk_Attribute ATTR_STD_MOTION_VERTEX_POSITION moving_triangle_steps]
    true 3 false array_empty BoundBox_empty []
    (mk_array [0; 1; 2] 3) (mk_array unit_triangle_verts 3)
    (mk_array [0] 1) (mk_array [true] 1) SUBDIVISION_NONE
    array_empty array_empty array_empty array_empty
    array_empty array_empty array_empty array_empty array_empty array_empty
    0 [].

(** One triangle over the three vertices of the examples. *)
Definition unit_triangle_mesh : Mesh :=
  run [OpAddVertex (point 0 0 0); OpAddVertex (point 1 0 0);
       OpAddVertex (point 0 1 0); OpAddTriangle 0 1 2 0 true] Mesh_new.

(** An attribute store in which a per-vertex attribute has one element per
    vertex, in either domain. *)
Definition per_vertex_size (m : Mesh) (d : Domain) : Z := size (verts m).

(** Modelled from the spec: a [Geometry::clear] that drops the used shaders
    unless they are to be preserved. *)
Definition drop_used_shaders (preserve_shaders : bool) (m : Mesh) : Mesh :=
  if preserve_shaders then m
  else mk_Mesh (attributes m) (use_motion_blur m) (motion_steps m)
         (transform_negative_scaled m) array_empty (bounds m)
         (socket_modified m) (triangles m) (verts m) (shader m) (smooth m)
         (subdivision_type m) (subd_vert_creases m)
         (subd_vert_creases_weight m) (subd_creases_edge m)
         (subd_creases_weight m) (subd_face_corners m) (subd_start_corner m)
         (subd_num_corners m) (subd_shader m) (subd_smooth m)
         (subd_ptex_offset m) (num_subd_faces m) (subd_attributes m).

(** A subdivided quad with an edge crease and a vertex crease. *)
Definition creased_square_mesh : Mesh :=
  run [OpAddEdgeCrease 0 1 fone; OpAddVertexCrease 2 fone] square_mesh.

(** * Proofs *)

(** ** Single-precision values: comparisons *)

Ltac float_cases :=
  repeat match goal with
  | a : float |- _ => destruct a as [[|]|[|]| |[|] ? ?]
  end.

Ltac order_cases :=
  repeat match goal with
  | |- context [Z.compare ?a ?b] =>
      let E := fresh "E" in destruct (Z.compare_spec a b) as [E|E|E]
  | H : context [Z.compare ?a ?b] |- _ =>
      let E := fresh "E" in destruct (Z.compare_spec a b) as [E|E|E]
  | |- context [Pos.compare_cont Eq ?a ?b] =>
      change (Pos.compare_cont Eq a b) with (Pos.compare a b)
  | H : context [Pos.compare_cont Eq ?a ?b] |- _ =>
      change (Pos.compare_cont Eq a b) with (Pos.compare a b) in H
  | |- context [Pos.compare ?a ?b] =>
      let E := fresh "E" in destruct (Pos.compare_spec a b) as [E|E|E]
  | H : context [Pos.compare ?a ?b] |- _ =>
      let E := fresh "E" in destruct (Pos.compare_spec a b) as [E|E|E]
  end.

(** Decides a statement on the order of floats by the cases of their
    signs, exponents and mantissas. *)
Ltac order_solve :=
  unfold fleb, fltb, feqb, SFleb, SFltb, SFeqb, SFcompare, isnan in *;
  float_cases; cbn in *;
  try discriminate; try reflexivity;
  order_cases; cbn in *; try discriminate; try reflexivity; try lia.

Lemma fleb_refl (a : float) : isnan a = false -> fleb a a = true.
Proof. intros H. order_solve. Qed.

Lemma fltb_fleb (a b : float) : fltb a b = true -> fleb a b = true.
Proof. intros H. order_solve. Qed.

Lemma fltb_false_fleb (a b : float) :
  isnan a = false -> isnan b = false -> fltb a b = false -> fleb b a = true.
Proof. intros Ha Hb H. order_solve. Qed.

Lemma fleb_not_fltb (a b : float) : fleb a b = true -> fltb b a = false.
Proof. intros H. order_solve. Qed.

Lemma fltb_not_nan (a b : float) :
  fltb a b = true -> isnan a = false /\ isnan b = false.
Proof. intros H. split; order_solve. Qed.

Lemma fleb_trans (a b c : float) :
  fleb a b = true -> fleb b c = true -> fleb a c = true.
Proof. intros H1 H2. order_solve. Qed.

Lemma isfinite_safe_not_nan (a : float) :
  isfinite_safe a = true -> isnan a = false.
Proof. destruct a; simpl; congruence. Qed.

(** ** Single-precision values: results that are not rounded *)

Lemma iter_xO_value (m d : positive) :
  Zpos (Pos.iter xO m d) = Zpos m * 2 ^ Zpos d.
Proof.
  induction d as [|d IH] using Pos.peano_ind.
  - cbn. lia.
  - rewrite Pos.iter_succ. rewrite Pos2Z.inj_xO, IH.
    rewrite Pos2Z.inj_succ, Z.pow_succ_r by lia. lia.
Qed.

Lemma iter_xO_digits (m d : positive) :
  Zpos (digits2_pos (Pos.iter xO m d)) = Zpos (digits2_pos m) + Zpos d.
Proof.
  induction d as [|d IH] using Pos.peano_ind.
  - cbn. lia.
  - rewrite Pos.iter_succ. cbn [digits2_pos]. lia.
Qed.

Lemma digits2_pos_bound (p : positive) :
  2 ^ (Zpos (digits2_pos p) - 1) <= Zpos p < 2 ^ Zpos (digits2_pos p).
Proof.
  induction p as [p IH|p IH|]; cbn [digits2_pos].
  - rewrite Pos2Z.inj_succ, (Pos2Z.inj_xI p).
    replace (Z.succ (Zpos (digits2_pos p)) - 1)
      with (Z.succ (Zpos (digits2_pos p) - 1)) by lia.
    rewrite !Z.pow_succ_r by lia.
    destruct IH as [L U]. revert L U.
    generalize (2 ^ (Zpos (digits2_pos p) - 1)), (2 ^ Zpos (digits2_pos p)).
    lia.
  - rewrite Pos2Z.inj_succ, (Pos2Z.inj_xO p).
    replace (Z.succ (Zpos (digits2_pos p)) - 1)
      with (Z.succ (Zpos (digits2_pos p) - 1)) by lia.
    rewrite !Z.pow_succ_r by lia.
    destruct IH as [L U]. revert L U.
    generalize (2 ^ (Zpos (digits2_pos p) - 1)), (2 ^ Zpos (digits2_pos p)).
    lia.
  - cbn. lia.
Qed.

Lemma digits2_pos_le (p : positive) (k : Z) :
  Zpos p < 2 ^ k -> Zpos (digits2_pos p) <= k.
Proof.
  intros H. destruct (digits2_pos_bound p) as [L _].
  destruct (Z.le_gt_cases (Zpos (digits2_pos p)) k) as [|G]; [assumption|].
  exfalso. assert (2 ^ k <= 2 ^ (Zpos (digits2_pos p) - 1)).
  { destruct (Z.le_gt_cases 0 k); [apply Z.pow_le_mono_r; lia|].
    rewrite (Z.pow_neg_r 2 k) by lia. apply Z.pow_nonneg. lia. }
  lia.
Qed.

Lemma shl_align_value (m : positive) (e e' : Z) :
  e' <= e -> Zpos (fst (shl_align m e e')) = Zpos m * 2 ^ (e - e')
             /\ snd (shl_align m e e') = e'.
Proof.
  intros H. unfold shl_align. destruct (e' - e) as [|d|d] eqn:E.
  - replace (e - e') with 0 by lia. cbn [fst snd]. split; lia.
  - lia.
  - cbn [fst snd]. rewrite iter_xO_value. replace (e - e') with (Zpos d) by lia.
    split; reflexivity.
Qed.

(** A mantissa that fits its exponent is not rounded. *)
Lemma binary_round_aux_exact (s : bool) (m : positive) (e : Z) :
  bounded 24 128 m e = true ->
  binary_round_aux 24 128 s (Zpos m) e loc_Exact = S754_finite s m e.
Proof.
  unfold bounded, canonical_mantissa. intros H.
  apply andb_prop in H. destruct H as [Hc He]. apply Z.eqb_eq in Hc.
  unfold binary_round_aux, shr_fexp. cbn [Zdigits2 shr_record_of_loc].
  rewrite Hc, Z.sub_diag. cbn -[Z.add Z.sub Z.leb fexp].
  rewrite Hc, Z.sub_diag. cbn -[Z.sub Z.leb]. now rewrite He.
Qed.

(** The product with 1 is not rounded. *)
Lemma fmul_1_l (a : float) : float_valid a = true -> fmul fone a = a.
Proof.
  destruct a as [s|s| |s m e]; try reflexivity.
  unfold float_valid, valid_binary, bounded, canonical_mantissa.
  intros H. apply andb_prop in H. destruct H as [Hc He].
  apply Z.eqb_eq in Hc.
  unfold fmul, fone, SFmul. cbn [xorb].
  change (Pos.mul 8388608 m) with (Pos.iter xO m 23).
  unfold binary_round_aux.
  assert (D : Zdigits2 (Zpos (Pos.iter xO m 23)) = Zpos (digits2_pos m) + 23).
  { cbn. lia. }
  unfold shr_fexp at 1. rewrite D.
  replace (Z.pos (digits2_pos m) + 23 + (-23 + e))
    with (Z.pos (digits2_pos m) + e) by lia.
  rewrite Hc. replace (e - (-23 + e)) with 23 by lia.
  cbn -[fexp Z.add Z.sub Z.leb].
  unfold shr_fexp. cbn [Zdigits2]. replace (-23 + e + 23) with e by lia.
  rewrite Hc. rewrite Z.sub_diag. cbn -[Z.sub Z.leb]. rewrite He. reflexivity.
Qed.

(** The conversion of a positive integer below 2^24 is not rounded. *)
Lemma float_of_small (p : positive) :
  Zpos p < 2 ^ 24 ->
  exists (m : positive) (e : Z),
    float_of_size_t (Zpos p) = S754_finite false m e
    /\ bounded 24 128 m e = true
    /\ -23 <= e <= 0
    /\ Zpos m = Zpos p * 2 ^ (- e).
Proof.
  intros H. pose proof (digits2_pos_le p 24 H) as Hd.
  set (d := Zpos (digits2_pos p)) in *.
  assert (Hd1 : 1 <= d) by (unfold d; lia).
  unfold float_of_size_t, float_of_Z, binary_normalize, binary_round.
  rewrite Z.add_0_r. fold d.
  assert (Hf : fexp 24 128 d = d - 24) by (unfold fexp, emin; lia).
  rewrite Hf.
  destruct (shl_align_value p 0 (d - 24)) as [Hm He]; [lia|].
  destruct (shl_align p 0 (d - 24)) as [mz ez] eqn:E. cbn [fst snd] in Hm, He.
  subst ez.
  assert (Hdig : Zpos (digits2_pos mz) = 24).
  { revert E. unfold shl_align. destruct (d - 24 - 0) as [|k|k] eqn:Ek.
    - intros [= <-]. fold d. lia.
    - lia.
    - intros [= <-]. rewrite iter_xO_digits. fold d. lia. }
  assert (Hb : bounded 24 128 mz (d - 24) = true).
  { unfold bounded, canonical_mantissa. rewrite Hdig.
    apply andb_true_intro.
    split; [apply Z.eqb_eq; unfold fexp, emin|apply Z.leb_le]; lia. }
  exists mz, (d - 24). split; [now apply binary_round_aux_exact|].
  split; [exact Hb|]. split; [lia|].
  rewrite Hm. now rewrite Z.sub_0_l.
Qed.

Lemma size_t_of_float_of_small (n : Z) :
  0 <= n <= 2 ^ 24 -> size_t_of_float (float_of_size_t n) = n.
Proof.
  intros H. destruct (Z.eq_dec n (2 ^ 24)) as [->|Hn]; [reflexivity|].
  destruct n as [|p|p]; [reflexivity| |lia].
  destruct (float_of_small p) as (m & e & -> & _ & He & Hm); [lia|].
  unfold size_t_of_float. cbv zeta.
  assert (P : 0 < 2 ^ (- e)) by (apply Z.pow_pos_nonneg; lia).
  assert (T : (if 0 <=? e then Zpos m * 2 ^ e else Zpos m / 2 ^ (- e))
              = Zpos p).
  { destruct (0 <=? e) eqn:E0.
    - apply Z.leb_le in E0. assert (e = 0) by lia. subst e.
      change (2 ^ (- 0)) with 1 in Hm. change (2 ^ 0) with 1. lia.
    - rewrite Hm. apply Z.div_mul. lia. }
  rewrite T. destruct (Zpos p <? 2 ^ 64) eqn:E; [reflexivity|].
  apply Z.ltb_ge in E. lia.
Qed.

Lemma float_of_small_valid (n : Z) :
  0 <= n <= 2 ^ 24 -> float_valid (float_of_size_t n) = true.
Proof.
  intros H. destruct (Z.eq_dec n (2 ^ 24)) as [->|Hn]; [reflexivity|].
  destruct n as [|p|p]; [reflexivity| |lia].
  destruct (float_of_small p) as (m & e & -> & Hb & _); [lia|]. exact Hb.
Qed.

Lemma power_is_one (k : Z) :
  0 <= k <= 23 -> binary_normalize 24 128 (2 ^ k) (- k) false = fone.
Proof.
  intros H.
  assert (C : k = 0 \/ k = 1 \/ k = 2 \/ k = 3 \/ k = 4 \/ k = 5 \/ k = 6
              \/ k = 7 \/ k = 8 \/ k = 9 \/ k = 10 \/ k = 11 \/ k = 12
              \/ k = 13 \/ k = 14 \/ k = 15 \/ k = 16 \/ k = 17 \/ k = 18
              \/ k = 19 \/ k = 20 \/ k = 21 \/ k = 22 \/ k = 23) by lia.
  repeat (destruct C as [-> | C]; [reflexivity|]). subst k. reflexivity.
Qed.

(** Two consecutive integers up to 2^24 are one apart as floats. *)
Lemma float_of_succ_sub (n : Z) :
  1 <= n <= 2 ^ 24 ->
  fsub (float_of_size_t n) (float_of_size_t (n - 1)) = fone.
Proof.
  intros H. destruct (Z.eq_dec n (2 ^ 24)) as [->|Hn]; [reflexivity|].
  destruct (Z.eq_dec n 1) as [->|H1]; [reflexivity|].
  destruct n as [|p|p]; try lia.
  destruct (Zpos p - 1) as [|q|q] eqn:Eq; try lia.
  destruct (float_of_small p) as (m & e & -> & _ & He & Hm); [lia|].
  destruct (float_of_small q) as (m' & e' & -> & _ & He' & Hm'); [lia|].
  unfold fsub, SFsub. cbv zeta. cbn [cond_Zopp].
  destruct (shl_align_value m e (Z.min e e')) as [-> _]; [lia|].
  destruct (shl_align_value m' e' (Z.min e e')) as [-> _]; [lia|].
  set (z := Z.min e e').
  assert (Hz : -23 <= z <= 0) by (unfold z; lia).
  rewrite Hm, Hm'.
  replace (Zpos p * 2 ^ (- e) * 2 ^ (e - z)) with (Zpos p * 2 ^ (- z)).
  2:{ rewrite <- Z.mul_assoc, <- Z.pow_add_r by lia. f_equal. f_equal. lia. }
  replace (Zpos q * 2 ^ (- e') * 2 ^ (e' - z)) with (Zpos q * 2 ^ (- z)).
  2:{ rewrite <- Z.mul_assoc, <- Z.pow_add_r by lia. f_equal. f_equal. lia. }
  replace (Zpos p * 2 ^ (- z) - Zpos q * 2 ^ (- z)) with (2 ^ (- z)) by lia.
  replace z with (- (- z)) at 2 by lia.
  apply power_is_one. lia.
Qed.

Lemma size_t_of_float_nonneg (a : float) : 0 <= size_t_of_float a.
Proof.
  destruct a as [s|s| |[|] m e]; unfold size_t_of_float; cbv zeta;
    try apply Z.le_refl.
  destruct (0 <=? e) eqn:E.
  - destruct (Zpos m * 2 ^ e <? 2 ^ 64); [|apply Z.le_refl].
    apply Z.mul_nonneg_nonneg; [apply Pos2Z.is_nonneg|].
    apply Z.pow_nonneg. discriminate.
  - destruct (Zpos m / 2 ^ (- e) <? 2 ^ 64); [|apply Z.le_refl].
    apply Z.div_pos; [apply Pos2Z.is_nonneg|]. apply Z.leb_gt in E.
    apply Z.pow_pos_nonneg; [reflexivity|]. apply Z.opp_nonneg_nonpos.
    now apply Z.lt_le_incl.
Qed.

(** ** Single-precision values: the blend at its two ends *)

Lemma flerp_0 (a b : float) :
  float_valid a = true -> isfinite_safe b = true ->
  same_value (fadd (fmul (fsub fone fzero) a) (fmul fzero b)) a.
Proof.
  intros Ha Hb. change (fsub fone fzero) with fone. rewrite fmul_1_l by exact Ha.
  destruct b as [[|]| | |[|] mb eb]; try discriminate;
    destruct a as [[|]|[|]| |sa ma ea];
    first [ left; reflexivity | right; split; reflexivity ].
Qed.

Lemma flerp_1 (a b : float) :
  float_valid b = true -> isfinite_safe a = true ->
  same_value (fadd (fmul (fsub fone fone) a) (fmul fone b)) b.
Proof.
  intros Hb Ha. change (fsub fone fone) with fzero. rewrite fmul_1_l by exact Hb.
  destruct a as [[|]| | |[|] ma ea]; try discriminate;
    destruct b as [[|]|[|]| |sb mb eb];
    first [ left; reflexivity | right; split; reflexivity ].
Qed.

Lemma lerp3_0 (a b : float3) :
  float_valid3 a = true -> isfinite3 b = true ->
  same_value3 (lerp3 fzero a b) a.
Proof.
  unfold float_valid3, isfinite3. intros Ha Hb.
  apply andb_prop in Ha. destruct Ha as [Ha Haz].
  apply andb_prop in Ha. destruct Ha as [Hax Hay].
  apply andb_prop in Hb. destruct Hb as [Hb Hbz].
  apply andb_prop in Hb. destruct Hb as [Hbx Hby].
  unfold same_value3, lerp3, f3_add, f3_scale. cbn [fx fy fz].
  repeat split; now apply flerp_0.
Qed.

Lemma lerp3_1 (a b : float3) :
  float_valid3 b = true -> isfinite3 a = true ->
  same_value3 (lerp3 fone a b) b.
Proof.
  unfold float_valid3, isfinite3. intros Hb Ha.
  apply andb_prop in Ha. destruct Ha as [Ha Haz].
  apply andb_prop in Ha. destruct Ha as [Hax Hay].
  apply andb_prop in Hb. destruct Hb as [Hb Hbz].
  apply andb_prop in Hb. destruct Hb as [Hbx Hby].
  unfold same_value3, lerp3, f3_add, f3_scale. cbn [fx fy fz].
  repeat split; now apply flerp_1.
Qed.

Lemma lerp3x3_0 (a b : float3x3) :
  float_valid3x3 a = true -> isfinite3x3 b = true ->
  same_value3x3 (lerp3x3 fzero a b) a.
Proof.
  destruct a as [[a0 a1] a2], b as [[b0 b1] b2].
  unfold float_valid3x3, isfinite3x3, lerp3x3, same_value3x3.
  intros Ha Hb.
  apply andb_prop in Ha. destruct Ha as [Ha Ha2].
  apply andb_prop in Ha. destruct Ha as [Ha0 Ha1].
  apply andb_prop in Hb. destruct Hb as [Hb Hb2].
  apply andb_prop in Hb. destruct Hb as [Hb0 Hb1].
  cbn [fst snd]. repeat split; now apply lerp3_0.
Qed.

Lemma lerp3x3_1 (a b : float3x3) :
  float_valid3x3 b = true -> isfinite3x3 a = true ->
  same_value3x3 (lerp3x3 fone a b) b.
Proof.
  destruct a as [[a0 a1] a2], b as [[b0 b1] b2].
  unfold float_valid3x3, isfinite3x3, lerp3x3, same_value3x3.
  intros Hb Ha.
  apply andb_prop in Ha. destruct Ha as [Ha Ha2].
  apply andb_prop in Ha. destruct Ha as [Ha0 Ha1].
  apply andb_prop in Hb. destruct Hb as [Hb Hb2].
  apply andb_prop in Hb. destruct Hb as [Hb0 Hb1].
  cbn [fst snd]. repeat split; now apply lerp3_1.
Qed.

(** ** Single-precision values: results that are not NaN *)

Lemma iter_pos_invariant {A : Type} (P : A -> Prop) (f : A -> A) :
  (forall x, P x -> P (f x)) ->
  forall (n : positive) (x : A), P x -> P (iter_pos f n x).
Proof.
  intros Hf. induction n as [n IH|n IH|]; intros x Hx; cbn [iter_pos]; auto.
Qed.

Lemma shr_1_nonneg (r : shr_record) : 0 <= shr_m r -> 0 <= shr_m (shr_1 r).
Proof.
  destruct r as [m r s]. cbn [shr_m]. intros H.
  destruct m as [|[p|p|]|p]; cbn; lia.
Qed.

Lemma shr_nonneg (r : shr_record) (e n : Z) :
  0 <= shr_m r -> 0 <= shr_m (fst (shr r e n)).
Proof.
  intros H. unfold shr. destruct n as [|p|p]; cbn [fst]; try exact H.
  apply (iter_pos_invariant (fun r => 0 <= shr_m r)); [|exact H].
  apply shr_1_nonneg.
Qed.

Lemma shr_fexp_nonneg (m e : Z) (l : location) :
  0 <= m -> 0 <= shr_m (fst (shr_fexp 24 128 m e l)).
Proof.
  intros H. unfold shr_fexp. apply shr_nonneg.
  destruct l as [|[| |]]; exact H.
Qed.

Lemma round_nearest_even_nonneg (m : Z) (l : location) :
  0 <= m -> 0 <= round_nearest_even m l.
Proof.
  intros H. unfold round_nearest_even.
  destruct l as [|[| |]]; try destruct (Z.even m); lia.
Qed.

(** Rounding keeps the sign and does not make a NaN. *)
Lemma binary_round_aux_sign (s : bool) (m e : Z) (l : location) :
  0 <= m -> has_sign s (binary_round_aux 24 128 s m e l).
Proof.
  intros H. unfold binary_round_aux.
  pose proof (shr_fexp_nonneg m e l H) as H1.
  destruct (shr_fexp 24 128 m e l) as [r1 e1]. cbn [fst] in H1.
  pose proof (shr_fexp_nonneg _ e1 loc_Exact
                (round_nearest_even_nonneg (shr_m r1) (loc_of_shr_record r1) H1))
    as H2.
  destruct (shr_fexp 24 128 _ e1 loc_Exact) as [r2 e2]. cbn [fst] in H2.
  destruct (shr_m r2) as [|p|p]; [reflexivity| |lia].
  destruct (e2 <=? 128 - 24); reflexivity.
Qed.







(** ** Single-precision values: integers that stay finite *)

Lemma shr_1_bounds (r : shr_record) :
  0 <= shr_m r -> 0 <= shr_m (shr_1 r) <= shr_m r.
Proof.
  destruct r as [m r s]. cbn [shr_m]. intros H.
  destruct m as [|[p|p|]|p]; cbn; lia.
Qed.

Lemma shr_fexp_bounds (m e : Z) (l : location) :
  0 <= m ->
  0 <= shr_m (fst (shr_fexp 24 128 m e l)) <= m
  /\ (snd (shr_fexp 24 128 m e l) = e
      \/ snd (shr_fexp 24 128 m e l) = fexp 24 128 (Zdigits2 m + e)).
Proof.
  intros H. unfold shr_fexp, shr.
  assert (R : shr_m (shr_record_of_loc m l) = m)
    by (destruct l as [|[| |]]; reflexivity).
  destruct (fexp 24 128 (Zdigits2 m + e) - e) as [|k|k] eqn:E; cbn [fst snd].
  - rewrite R. split; [lia | now left].
  - split; [|right; lia].
    apply (iter_pos_invariant (fun r => 0 <= shr_m r <= m)).
    + intros x Hx. pose proof (shr_1_bounds x). lia.
    + rewrite R. lia.
  - rewrite R. split; [lia | now left].
Qed.

Lemma round_nearest_even_bounds (m : Z) (l : location) :
  0 <= m -> 0 <= round_nearest_even m l <= m + 1.
Proof.
  intros H. unfold round_nearest_even.
  destruct l as [|[| |]]; try destruct (Z.even m); lia.
Qed.

Lemma Zdigits2_le (m k : Z) : 0 <= k -> 0 <= m < 2 ^ k -> 0 <= Zdigits2 m <= k.
Proof.
  intros Hk H. destruct m as [|p|p]; cbn [Zdigits2]; try lia.
  pose proof (digits2_pos_le p k). lia.
Qed.

(** An integer below 2^64 at the exponent 0 rounds to a finite value. *)
Lemma binary_round_aux_int_finite (s : bool) (p : positive) :
  Zpos p < 2 ^ 64 ->
  isfinite_safe (binary_round_aux 24 128 s (Zpos p) 0 loc_Exact) = true.
Proof.
  intros H. unfold binary_round_aux.
  destruct (shr_fexp_bounds (Zpos p) 0 loc_Exact) as [M1 X1]; [lia|].
  destruct (shr_fexp 24 128 (Zpos p) 0 loc_Exact) as [r1 e1].
  cbn [fst snd] in M1, X1.
  pose proof (round_nearest_even_bounds (shr_m r1) (loc_of_shr_record r1))
    as M'.
  set (m' := round_nearest_even (shr_m r1) (loc_of_shr_record r1)) in *.
  destruct (shr_fexp_bounds m' e1 loc_Exact) as [M2 X2]; [lia|].
  destruct (shr_fexp 24 128 m' e1 loc_Exact) as [r2 e2].
  cbn [fst snd] in M2, X2.
  assert (D1 : 0 <= Zdigits2 (Zpos p) <= 64) by (apply Zdigits2_le; lia).
  assert (D2 : 0 <= Zdigits2 m' <= 65).
  { apply Zdigits2_le; [lia|]. change (2 ^ 65) with (2 * 2 ^ 64). lia. }
  assert (B : e2 <= 104).
  { unfold fexp, emin in X1, X2. lia. }
  destruct (shr_m r2) as [|q|q]; [reflexivity| |lia].
  apply Z.leb_le in B. change (128 - 24) with 104. now rewrite B.
Qed.

Lemma float_of_size_t_finite (n : Z) :
  0 <= n < 2 ^ 64 ->
  isfinite_safe (float_of_size_t n) = true
  /\ has_sign false (float_of_size_t n).
Proof.
  intros H. destruct n as [|p|p]; [split; reflexivity| |lia].
  split.
  - destruct (Z.lt_ge_cases (Zpos p) (2 ^ 24)) as [S|L].
    + destruct (float_of_small p S) as (m & e & -> & _). reflexivity.
    + unfold float_of_size_t, float_of_Z, binary_normalize, binary_round.
      assert (D : 24 < Zpos (digits2_pos p)).
      { destruct (digits2_pos_bound p) as [_ U].
        apply (Z.pow_lt_mono_r_iff 2); lia. }
      assert (E : shl_align p 0 (fexp 24 128 (Zpos (digits2_pos p) + 0))
                  = (p, 0)).
      { unfold shl_align, fexp, emin.
        destruct (Z.max (Zpos (digits2_pos p) + 0 - 24) (3 - 128 - 24) - 0)
          eqn:Ek; try reflexivity. lia. }
      rewrite E. apply binary_round_aux_int_finite. lia.
  - unfold float_of_size_t, float_of_Z, binary_normalize, binary_round.
    destruct (shl_align p 0 _) as [mz ez].
    apply binary_round_aux_sign. lia.
Qed.

Lemma fmul_0_l (a : float) :
  isfinite_safe a = true -> has_sign false a -> fmul fzero a = fzero.
Proof.
  destruct a as [s|s| |s m e]; simpl; intros F S; try discriminate;
    subst; reflexivity.
Qed.

(** ** Vectors *)





Lemma isfinite3_no_nan (a : float3) : isfinite3 a = true -> no_nan3 a = true.
Proof.
  unfold isfinite3, no_nan3. intros H.
  apply andb_prop in H. destruct H as [H Hz].
  apply andb_prop in H. destruct H as [Hx Hy].
  now rewrite !isfinite_safe_not_nan.
Qed.



#[local] Arguments Z.mul : simpl never.
#[local] Arguments Z.add : simpl never.
#[local] Arguments Z.sub : simpl never.
#[local] Arguments Z.pow : simpl never.
#[local] Arguments Z.modulo : simpl never.
#[local] Arguments Z.div : simpl never.

(** ** Machine integers *)

Lemma wrap_size_t_small (z : Z) : 0 <= z < 2 ^ 64 -> wrap_size_t z = z.
Proof. intros H. unfold wrap_size_t. now apply Z.mod_small. Qed.

Lemma wrap_int_in_int (z : Z) : in_int z -> wrap_int z = z.
Proof.
  unfold in_int, wrap_int, INT_MIN, INT_MAX. intros H.
  rewrite Z.mod_small; lia.
Qed.

(** ** Arrays *)

Lemma elems_reserve {T : Type} (n : Z) (a : array T) :
  elems (reserve n a) = elems a.
Proof. unfold reserve. destruct (capacity a <? n); reflexivity. Qed.

Lemma size_reserve {T : Type} (n : Z) (a : array T) :
  size (reserve n a) = size a.
Proof. unfold size. now rewrite elems_reserve. Qed.

Lemma forget_capacity_reserve {T : Type} (n : Z) (a : array T) :
  forget_capacity (reserve n a) = forget_capacity a.
Proof. unfold forget_capacity. now rewrite elems_reserve. Qed.

Lemma capacity_reserve {T : Type} (n : Z) (a : array T) :
  capacity (reserve n a) = Z.max (capacity a) n.
Proof.
  unfold reserve. destruct (capacity a <? n) eqn:E; simpl.
  - apply Z.ltb_lt in E. lia.
  - apply Z.ltb_ge in E. lia.
Qed.

Lemma elems_push_back {T : Type} (t : T) (a : array T) :
  elems (push_back t a) = elems a ++ [t].
Proof. reflexivity. Qed.

Lemma size_push_back {T : Type} (t : T) (a : array T) :
  size (push_back t a) = size a + 1.
Proof. unfold size, push_back; simpl. rewrite length_app; simpl. lia. Qed.

Lemma size_nonneg {T : Type} (a : array T) : 0 <= size a.
Proof. unfold size. lia. Qed.

Lemma buf_get_nth {T : Type} (d : T) (l : list T) (k : nat) :
  buf_get d l (Z.of_nat k) = nth k l d.
Proof.
  unfold buf_get. destruct (0 <=? Z.of_nat k) eqn:E.
  - now rewrite Nat2Z.id.
  - apply Z.leb_gt in E. lia.
Qed.

(** ** Attribute sets *)

Lemma attr_find_add (s : AttributeSet) (std std' : AttributeStandard)
    (data : list float3) :
  attr_find (attr_add s std data) std'
  = match attr_find s std' with
    | Some a => Some a
    | None =>
        if AttributeStandard_eqb std std'
        then Some (mk_Attribute std data) else None
    end.
Proof.
  unfold attr_find, attr_add.
  induction s as [|a s IH]; simpl.
  - reflexivity.
  - destruct (AttributeStandard_eqb (attr_std a) std'); [reflexivity | exact IH].
Qed.

Lemma attr_found_add (s : AttributeSet) (std std' : AttributeStandard)
    (data : list float3) :
  attr_found (attr_add s std data) std'
  = attr_found s std' || AttributeStandard_eqb std std'.
Proof.
  unfold attr_found. rewrite attr_find_add.
  destruct (attr_find s std'); [reflexivity|].
  destruct (AttributeStandard_eqb std std'); reflexivity.
Qed.

(** ** Construction sequences *)

Lemma run_app (ops ops' : list BuildOp) (m : Mesh) :
  run (ops ++ ops') m = run ops' (run ops m).
Proof. unfold run. apply fold_left_app. Qed.

Lemma run_snoc (ops : list BuildOp) (op : BuildOp) (m : Mesh) :
  run (ops ++ [op]) m = apply_op (run ops m) op.
Proof. now rewrite run_app. Qed.

(** ** Motion-interpolated positions *)

Lemma verts_for_step_sample (tri : Triangle) (verts vert_steps : float3_ptr)
    (num_verts num_steps s : Z) :
  motion_layout tri num_verts num_steps ->
  0 <= s <= num_steps - 1 ->
  verts_for_step tri verts vert_steps num_verts num_steps s
  = temporal_sample tri verts vert_steps num_verts num_steps s.
Proof.
  intros (Hn & Hsz & H0 & H1 & H2) Hs.
  assert (Hns : num_steps - 1 < 2 ^ 64) by nia.
  unfold verts_for_step, temporal_sample.
  rewrite (wrap_size_t_small (num_steps - 1)) by lia.
  set (center := (num_steps - 1) / 2).
  assert (Hc : 0 <= center <= num_steps - 1).
  { unfold center. split; [apply Z.div_pos; lia|].
    apply Z.div_le_upper_bound; lia. }
  destruct (s =? center) eqn:Ec; [reflexivity|].
  apply Z.eqb_neq in Ec.
  assert (Hstep : (if center <? s then wrap_size_t (s - 1) else s)
                  = (if s <? center then s else s - 1)).
  { destruct (center <? s) eqn:E1; destruct (s <? center) eqn:E2;
      try apply Z.ltb_lt in E1; try apply Z.ltb_lt in E2;
      try apply Z.ltb_ge in E1; try apply Z.ltb_ge in E2; try lia.
    apply wrap_size_t_small. lia. }
  rewrite Hstep.
  set (s' := if s <? center then s else s - 1).
  assert (Hs' : 0 <= s' <= num_steps - 2).
  { unfold s'. destruct (s <? center) eqn:E2;
      [apply Z.ltb_lt in E2 | apply Z.ltb_ge in E2]; lia. }
  assert (Hoff : 0 <= s' * num_verts /\ (s' + 1) * num_verts < 2 ^ 64) by nia.
  rewrite (wrap_size_t_small (s' * num_verts)) by nia.
  rewrite !wrap_size_t_small by nia.
  reflexivity.
Qed.

Lemma motion_step_range (num_steps : Z) (time : float) :
  2 <= num_steps -> 0 <= motion_step num_steps time <= num_steps - 2.
Proof.
  intros Hn. unfold motion_step.
  pose proof (size_t_of_float_nonneg
                (fmul time (float_of_size_t (num_steps - 1)))).
  lia.
Qed.

Lemma motion_verts_lerp (tri : Triangle) (verts vert_steps : float3_ptr)
    (num_verts num_steps : Z) (time : float) :
  motion_layout tri num_verts num_steps ->
  motion_verts tri verts vert_steps num_verts num_steps time
  = lerp3x3 (motion_t num_steps time)
      (temporal_sample tri verts vert_steps num_verts num_steps
         (motion_step num_steps time))
      (temporal_sample tri verts vert_steps num_verts num_steps
         (motion_step num_steps time + 1)).
Proof.
  intros HL.
  pose proof HL as (Hn & Hsz & H0 & H1 & H2).
  assert (Hns : num_steps - 1 < 2 ^ 64) by nia.
  pose proof (motion_step_range num_steps time Hn) as Hstep.
  unfold motion_verts.
  rewrite (wrap_size_t_small (num_steps - 1)) by lia.
  rewrite (wrap_size_t_small (num_steps - 1 - 1)) by lia.
  replace (num_steps - 1 - 1) with (num_steps - 2) by lia.
  fold (motion_step num_steps time).
  rewrite (wrap_size_t_small (motion_step num_steps time + 1)) by lia.
  rewrite !verts_for_step_sample by (assumption || lia).
  reflexivity.
Qed.

Lemma motion_step_0 (num_steps : Z) :
  2 <= num_steps -> num_steps - 1 < 2 ^ 64 ->
  motion_step num_steps fzero = 0 /\ motion_t num_steps fzero = fzero.
Proof.
  intros Hn Hs. unfold motion_t, motion_step.
  destruct (float_of_size_t_finite (num_steps - 1)) as [F S]; [lia|].
  rewrite (fmul_0_l _ F S).
  change (size_t_of_float fzero) with 0.
  rewrite Z.min_l by lia. split; reflexivity.
Qed.

Lemma motion_step_1 (num_steps : Z) :
  2 <= num_steps -> num_steps - 1 <= 2 ^ 24 ->
  motion_step num_steps fone = num_steps - 2
  /\ motion_t num_steps fone = fone.
Proof.
  intros Hn Hs. unfold motion_t, motion_step.
  rewrite fmul_1_l by (apply float_of_small_valid; lia).
  rewrite size_t_of_float_of_small by lia.
  rewrite Z.min_r by lia. split; [reflexivity|].
  replace (num_steps - 2) with (num_steps - 1 - 1) by lia.
  apply float_of_succ_sub. lia.
Qed.

(** Four runs in which the result is not what the exact formulas give.
    The neighbouring sample weighs in with the factor 0 at time 0, and 0
    times infinity is NaN: with an infinite coordinate in sample 1, time 0
    does not give back sample 0.  A negative zero in sample 0 comes out as
    the positive zero.  The product [time * (num_steps - 1)] is
    rounded before it is truncated: for seven steps and the largest [time]
    below 5/6 the exact step is 4 and both samples 4 and 5 are finite, but
    the program takes the step 5 and blends in the infinite sample 6.  And
    [num_steps - 1 = 2^24 + 1] is not a [float]: rounded to [2^24] it makes
    time 1 give back the sample [num_steps - 2]. *)
Lemma motion_verts_not_exact :
  (motion_layout point_triangle 1 2
   /\ in_unit_interval fzero
   /\ ~ same_value3x3
          (motion_verts point_triangle (ptr_of origin_verts)
             (ptr_of infinite_step) 1 2 fzero)
          (temporal_sample point_triangle (ptr_of origin_verts)
             (ptr_of infinite_step) 1 2 0))
  /\ (isfinite3x3 (temporal_sample point_triangle (ptr_of negative_zero_verts)
                       (ptr_of origin_verts) 1 2 1) = true
      /\ motion_verts point_triangle (ptr_of negative_zero_verts)
           (ptr_of origin_verts) 1 2 fzero
         <> temporal_sample point_triangle (ptr_of negative_zero_verts)
              (ptr_of origin_verts) 1 2 0)
  /\ (motion_layout point_triangle 1 7
      /\ in_unit_interval time_below_five_sixths
      /\ exact_motion_step 7 time_below_five_sixths = 4
      /\ motion_step 7 time_below_five_sixths = 5
      /\ isfinite3x3 (temporal_sample point_triangle (ptr_of seven_steps_verts)
                        (ptr_of seven_steps) 1 7 4) = true
      /\ isfinite3x3 (temporal_sample point_triangle (ptr_of seven_steps_verts)
                        (ptr_of seven_steps) 1 7 5) = true
      /\ fx (fst (fst (motion_verts point_triangle (ptr_of seven_steps_verts)
                         (ptr_of seven_steps) 1 7 time_below_five_sixths)))
         = S754_nan)
  /\ (motion_layout point_triangle 1 (2 ^ 24 + 2)
      /\ in_unit_interval fone
      /\ motion_verts point_triangle (ptr_of origin_verts) counting_steps
           1 (2 ^ 24 + 2) fone
         = temporal_sample point_triangle (ptr_of origin_verts) counting_steps
             1 (2 ^ 24 + 2) (2 ^ 24)
      /\ ~ same_value3x3
             (motion_verts point_triangle (ptr_of origin_verts) counting_steps
                1 (2 ^ 24 + 2) fone)
             (temporal_sample point_triangle (ptr_of origin_verts)
                counting_steps 1 (2 ^ 24 + 2) (2 ^ 24 + 1))).
Proof.
  split; [|split; [|split]].
  - split; [unfold motion_layout; cbn; lia|].
    split; [split; reflexivity|].
    intros ((H & _) & _). revert H. vm_compute.
    intros [H | [H _]]; discriminate.
  - split; [reflexivity|]. vm_compute. discriminate.
  - split; [unfold motion_layout; cbn; lia|].
    split; [split; reflexivity|].
    repeat split; vm_compute; reflexivity.
  - split; [unfold motion_layout; cbn; lia|].
    split; [split; reflexivity|].
    split; [vm_compute; reflexivity|].
    intros ((H & _) & _). revert H. vm_compute.
    intros [H | [H _]]; discriminate.
Qed.

(** C1 (amended).  For every mesh with [num_steps >= 2] temporal samples and
    [time] in [0,1], [motion_verts] computes
    [step = min(floor(time * (num_steps - 1)), num_steps - 2)] and
    [t = time * (num_steps - 1) - step] in single precision, the product
    being rounded before it is truncated, fetches the triangle's three
    positions at [step] and [step + 1] by the center-omitting offset rule
    and returns the blend [(1 - t) * at(step) + t * at(step + 1)].  When the
    positions of the neighbouring sample are finite, [time = 0] yields
    sample 0 and, for [num_steps - 1 <= 2^24], [time = 1] yields sample
    [num_steps - 1]: every coordinate comes out as it is stored, but that a
    negative zero can come out as the positive zero. *)
Theorem motion_verts_spec (tri : Triangle) (verts vert_steps : float3_ptr)
    (num_verts num_steps : Z) (time : float) :
  motion_layout tri num_verts num_steps ->
  in_unit_interval time ->
  let sample := temporal_sample tri verts vert_steps num_verts num_steps in
  let step := motion_step num_steps time in
  let t := motion_t num_steps time in
  0 <= step <= num_steps - 2
  /\ motion_verts tri verts vert_steps num_verts num_steps time
     = lerp3x3 t (sample step) (sample (step + 1))
  /\ (time = fzero -> float_valid3x3 (sample 0) = true ->
      isfinite3x3 (sample 1) = true ->
        step = 0 /\ t = fzero
        /\ same_value3x3
             (motion_verts tri verts vert_steps num_verts num_steps time)
             (sample 0))
  /\ (time = fone -> num_steps - 1 <= 2 ^ 24 ->
      float_valid3x3 (sample (num_steps - 1)) = true ->
      isfinite3x3 (sample (num_steps - 2)) = true ->
        step = num_steps - 2 /\ t = fone
        /\ same_value3x3
             (motion_verts tri verts vert_steps num_verts num_steps time)
             (sample (num_steps - 1))).
Proof.
  intros HL Ht. cbv zeta.
  pose proof HL as (Hn & Hsz & H0 & _).
  assert (Hns : num_steps - 1 < 2 ^ 64) by nia.
  split; [now apply motion_step_range|].
  rewrite motion_verts_lerp by assumption.
  split; [reflexivity|]. split.
  - intros -> Ha Hb. destruct (motion_step_0 num_steps Hn Hns) as [-> ->].
    split; [reflexivity|]. split; [reflexivity|].
    now apply lerp3x3_0.
  - intros -> Hs Hb Ha. destruct (motion_step_1 num_steps Hn Hs) as [-> ->].
    split; [reflexivity|]. split; [reflexivity|].
    replace (num_steps - 2 + 1) with (num_steps - 1) by lia.
    now apply lerp3x3_1.
Qed.

Lemma motion_layout_moving_triangle : motion_layout first_triangle 3 3.
Proof. unfold motion_layout. simpl. lia. Defined.

Lemma motion_verts_spec_witness :
  motion_layout first_triangle 3 3
  /\ in_unit_interval fzero /\ in_unit_interval fone
  /\ same_value3x3
       (motion_verts first_triangle (ptr_of unit_triangle_verts)
          (ptr_of moving_triangle_steps) 3 3 fzero)
       (temporal_sample first_triangle (ptr_of unit_triangle_verts)
          (ptr_of moving_triangle_steps) 3 3 0)
  /\ same_value3x3
       (motion_verts first_triangle (ptr_of unit_triangle_verts)
          (ptr_of moving_triangle_steps) 3 3 fone)
       (temporal_sample first_triangle (ptr_of unit_triangle_verts)
          (ptr_of moving_triangle_steps) 3 3 2).
Proof.
  assert (I0 : in_unit_interval fzero) by (split; reflexivity).
  assert (I1 : in_unit_interval fone) by (split; reflexivity).
  split; [exact motion_layout_moving_triangle|].
  split; [exact I0|]. split; [exact I1|]. split.
  - exact (proj2 (proj2 (proj1 (proj2 (proj2
      (motion_verts_spec first_triangle (ptr_of unit_triangle_verts)
         (ptr_of moving_triangle_steps) 3 3 fzero
         motion_layout_moving_triangle I0))) eq_refl eq_refl eq_refl))).
  - refine (proj2 (proj2 (proj2 (proj2 (proj2
      (motion_verts_spec first_triangle (ptr_of unit_triangle_verts)
         (ptr_of moving_triangle_steps) 3 3 fone
         motion_layout_moving_triangle I1))) eq_refl _ eq_refl eq_refl))).
    vm_compute. congruence.
Defined.

(** ** Ptex offsets *)

Lemma appended_faces_app (ops ops' : list BuildOp) :
  appended_faces (ops ++ ops') = appended_faces ops ++ appended_faces ops'.
Proof.
  induction ops as [|op ops IH]; simpl; [reflexivity|].
  destruct op; simpl; now rewrite ?IH.
Qed.

Lemma ptex_sum_app (ns ns' : list Z) :
  ptex_sum (ns ++ ns') = ptex_sum ns + ptex_sum ns'.
Proof. induction ns as [|n ns IH]; simpl; [lia|]. rewrite IH. lia. Qed.

Lemma ptex_sum_firstn_succ (ns : list Z) (k : nat) :
  (k < length ns)%nat ->
  ptex_sum (firstn (S k) ns)
  = ptex_sum (firstn k ns) + ptex_face_count (nth k ns 0).
Proof.
  revert k. induction ns as [|n ns IH]; intros k H; simpl in H; [lia|].
  destruct k as [|k].
  - simpl. lia.
  - change (firstn (S (S k)) (n :: ns)) with (n :: firstn (S k) ns).
    change (firstn (S k) (n :: ns)) with (n :: firstn k ns).
    change (nth (S k) (n :: ns) 0) with (nth k ns 0).
    cbn [ptex_sum]. rewrite IH by lia. lia.
Qed.

Lemma ptex_sums_in_int_prefix (ns : list Z) (n : Z) (i : nat) :
  (i <= length ns)%nat ->
  ptex_sums_in_int (ns ++ [n]) i -> ptex_sums_in_int ns i.
Proof.
  intros Hi H k Hk. specialize (H k Hk).
  rewrite firstn_app in H.
  replace (k - length ns)%nat with 0%nat in H by lia.
  simpl in H. now rewrite app_nil_r in H.
Qed.

Lemma add_subd_face_invariant (ns : list Z) (m : Mesh)
    (corners : list Z) (n shader_ : Z) (smooth_ : bool) :
  ptex_invariant ns m ->
  ptex_invariant (ns ++ [n]) (add_subd_face corners n shader_ smooth_ m).
Proof.
  intros (Hn & Hs & Hp & Hoff).
  unfold ptex_invariant. simpl.
  unfold push_back_reserved, num_ptex_faces, array_get, size. simpl.
  rewrite Hn, !length_app, Hs, Hp. simpl.
  repeat split; try reflexivity.
  intros i Hi Hint.
  assert (Hcases : (i < length ns)%nat \/ i = length ns) by lia.
  destruct Hcases as [Hlt | ->].
  - rewrite app_nth1 by lia.
    rewrite firstn_app. replace (i - length ns)%nat with 0%nat by lia.
    simpl. rewrite app_nil_r.
    apply Hoff; [exact Hlt|].
    apply ptex_sums_in_int_prefix with n; [lia | exact Hint].
  - rewrite app_nth2 by lia. rewrite Hp, Nat.sub_diag. simpl.
    rewrite firstn_app, Nat.sub_diag, firstn_all. simpl. rewrite app_nil_r.
    destruct (Z.of_nat (length ns) =? 0) eqn:E.
    + apply Z.eqb_eq in E. destruct ns; simpl in *; [reflexivity | lia].
    + apply Z.eqb_neq in E.
      assert (Hpos : (0 < length ns)%nat) by lia.
      replace (Z.of_nat (length ns) - 1) with (Z.of_nat (length ns - 1)) by lia.
      rewrite !buf_get_nth.
      assert (Hprev : ptex_sums_in_int ns (length ns - 1)).
      { apply ptex_sums_in_int_prefix with n; [lia|].
        intros k Hk. apply Hint. lia. }
      rewrite (Hoff (length ns - 1)%nat) by (lia || exact Hprev).
      unfold array_get. rewrite !buf_get_nth, Hn.
      fold (ptex_face_count (nth (length ns - 1) ns 0)).
      rewrite <- ptex_sum_firstn_succ by lia.
      replace (S (length ns - 1)) with (length ns) by lia.
      rewrite firstn_all.
      apply wrap_int_in_int.
      specialize (Hint (length ns) (Nat.le_refl _)).
      rewrite firstn_app, Nat.sub_diag, firstn_all in Hint.
      simpl in Hint. now rewrite app_nil_r in Hint.
Qed.

Lemma apply_op_invariant (op : BuildOp) (ns : list Z) (m : Mesh) :
  ptex_invariant ns m ->
  ptex_invariant (ns ++ appended_faces [op]) (apply_op m op).
Proof.
  intros H.
  destruct op; simpl appended_faces; rewrite ?app_nil_r;
    lazymatch goal with
    | |- ptex_invariant (_ ++ [_]) _ =>
        apply add_subd_face_invariant; exact H
    | |- _ =>
        destruct H as (Hn & Hs & Hp & Hoff);
        unfold ptex_invariant; simpl; rewrite ?elems_reserve; auto
    end.
Qed.

Lemma run_invariant (ops : list BuildOp) :
  ptex_invariant (appended_faces ops) (run ops Mesh_new).
Proof.
  induction ops as [|op ops IH] using rev_ind.
  - unfold ptex_invariant. simpl. repeat split; try reflexivity.
    intros i Hi. simpl in Hi. lia.
  - rewrite run_snoc, appended_faces_app. now apply apply_op_invariant.
Qed.

(** C2.  For every construction sequence from a new mesh, the per-face
    arrays hold one entry per appended face, and the stored [ptex_offset] of
    face [i] is the sum of [num_ptex_faces] over the faces appended before
    it (1 for a face of 4 corners, the number of corners otherwise), as long
    as the running totals are [int] values.  The offset is derived at append
    time from the last face already stored: its offset plus its ptex-face
    count, and 0 for the first face. *)
Theorem ptex_offset_is_running_total (ops : list BuildOp) (i : nat) :
  let m := run ops Mesh_new in
  let faces := appended_faces ops in
  elems (subd_num_corners m) = faces
  /\ length (elems (subd_ptex_offset m)) = length faces
  /\ ((i < length faces)%nat -> ptex_sums_in_int faces i ->
        nth i (elems (subd_ptex_offset m)) 0 = ptex_sum (firstn i faces))
  /\ (forall (corners : list Z) (num_corners shader_ : Z) (smooth_ : bool),
        let last := get_subd_face m (size (subd_shader m) - 1) in
        elems (subd_ptex_offset
                 (add_subd_face corners num_corners shader_ smooth_ m))
        = elems (subd_ptex_offset m)
          ++ [if size (subd_shader m) =? 0 then 0
              else wrap_int (ptex_offset last + num_ptex_faces last)]).
Proof.
  cbv zeta.
  destruct (run_invariant ops) as (Hn & _ & Hp & H).
  split; [exact Hn|]. split; [exact Hp|]. split.
  - intros Hi Hint. now apply H.
  - intros corners num_corners shader_ smooth_. reflexivity.
Qed.

Lemma ptex_offset_is_running_total_witness :
  (1 < length (appended_faces quad_pentagon_ops))%nat
  /\ ptex_sums_in_int (appended_faces quad_pentagon_ops) 1
  /\ nth 1 (elems (subd_ptex_offset (run quad_pentagon_ops Mesh_new))) 0
     = ptex_sum (firstn 1 (appended_faces quad_pentagon_ops)).
Proof.
  assert (H1 : (1 < length (appended_faces quad_pentagon_ops))%nat)
    by (simpl; lia).
  assert (H2 : ptex_sums_in_int (appended_faces quad_pentagon_ops) 1).
  { intros k Hk. unfold in_int, INT_MIN, INT_MAX.
    destruct k as [|[|k]]; [vm_compute; split; discriminate ..| lia]. }
  split; [exact H1|]. split; [exact H2|].
  exact (proj1 (proj2 (proj2
           (ptex_offset_is_running_total quad_pentagon_ops 1))) H1 H2).
Defined.

(** A face of 4 corners followed by a face of 5 corners: offsets 0 and 1. *)
Lemma ptex_offset_quad_then_pentagon :
  elems (subd_ptex_offset (run quad_pentagon_ops Mesh_new)) = [0; 1].
Proof. vm_compute. reflexivity. Qed.

(** ** Reservation *)

(** [reserve_subd_faces] stores the requested face count in
    [num_subd_faces]: on a new mesh the stored count goes from 0 to 2. *)
Lemma reserve_subd_faces_sets_num_subd_faces :
  ~ keeps_logical_sizes (reserve_subd_faces 2 8).
Proof.
  intro H. specialize (H Mesh_new).
  apply (f_equal (fun l => nth 1 l 0)) in H.
  vm_compute in H. discriminate.
Qed.

(** A reservation lowers no capacity. *)
Lemma reserve_capacities_grow (m : Mesh) :
  (forall numverts numtris : Z,
      Forall2 Z.le (array_capacities m)
              (array_capacities (reserve_mesh numverts numtris m)))
  /\ (forall num_creases : Z,
      Forall2 Z.le (array_capacities m)
              (array_capacities (reserve_subd_creases num_creases m)))
  /\ (forall numfaces numcorners : Z,
      Forall2 Z.le (array_capacities m)
              (array_capacities (reserve_subd_faces numfaces numcorners m))).
Proof.
  repeat split; intros;
    unfold reserve_mesh, reserve_subd_creases, reserve_subd_faces,
      array_capacities; simpl;
    repeat (constructor; [rewrite ?capacity_reserve; lia|]); constructor.
Qed.

(** C3 (amended).  The reserve variants change no array of the mesh in its
    logical content: the vertex count, the triangle count, the sizes of the
    per-face arrays, the corner count and the crease counts stay as they
    were, and nothing but capacities differs afterwards.  [reserve_mesh] and
    [reserve_subd_creases] also leave the stored [num_subd_faces] alone;
    [reserve_subd_faces] sets it to the requested number of faces. *)
Theorem reserve_only_capacity (m : Mesh) :
  (forall numverts numtris : Z,
      let m' := reserve_mesh numverts numtris m in
      logical_state m' = logical_state m
      /\ logical_sizes m' = logical_sizes m)
  /\ (forall num_creases : Z,
      let m' := reserve_subd_creases num_creases m in
      logical_state m' = logical_state m
      /\ logical_sizes m' = logical_sizes m)
  /\ (forall numfaces numcorners : Z,
      let m' := reserve_subd_faces numfaces numcorners m in
      logical_state m'
      = logical_state (set_num_subd_faces (wrap_size_t numfaces) m)
      /\ array_sizes m' = array_sizes m
      /\ num_triangles m' = num_triangles m
      /\ get_num_subd_faces m' = wrap_size_t numfaces).
Proof.
  repeat split;
    unfold reserve_mesh, reserve_subd_creases, reserve_subd_faces,
      logical_state, logical_sizes, array_sizes, num_triangles,
      get_num_subd_faces; simpl;
    rewrite ?forget_capacity_reserve, ?size_reserve; reflexivity.
Qed.

(** ** Minimum and maximum *)

Lemma fmin_nan_l (a b : float) : isnan a = true -> fmin a b = b.
Proof. destruct a; try discriminate. reflexivity. Qed.

Lemma fmax_nan_l (a b : float) : isnan a = true -> fmax a b = b.
Proof. destruct a; try discriminate. intros _. unfold fmax. now destruct b. Qed.

Lemma fmin_choice (a b : float) : fmin a b = a \/ fmin a b = b.
Proof. unfold fmin. destruct (fltb a b); auto. Qed.

Lemma fmax_choice (a b : float) : fmax a b = a \/ fmax a b = b.
Proof. unfold fmax. destruct (fltb b a); auto. Qed.

Lemma fmin_not_nan (a b : float) : isnan b = false -> isnan (fmin a b) = false.
Proof.
  intros Hb. unfold fmin. destruct (fltb a b) eqn:E; [|exact Hb].
  now apply fltb_not_nan in E.
Qed.

Lemma fmax_not_nan (a b : float) : isnan b = false -> isnan (fmax a b) = false.
Proof.
  intros Hb. unfold fmax. destruct (fltb b a) eqn:E; [|exact Hb].
  now apply fltb_not_nan in E.
Qed.

Lemma fmin_le (a b : float) :
  isnan a = false -> isnan b = false ->
  fleb (fmin a b) a = true /\ fleb (fmin a b) b = true.
Proof.
  intros Ha Hb. unfold fmin. destruct (fltb a b) eqn:E.
  - split; [now apply fleb_refl | now apply fltb_fleb].
  - split; [now apply fltb_false_fleb | now apply fleb_refl].
Qed.

Lemma fmax_le (a b : float) :
  isnan a = false -> isnan b = false ->
  fleb a (fmax a b) = true /\ fleb b (fmax a b) = true.
Proof.
  intros Ha Hb. unfold fmax. destruct (fltb b a) eqn:E.
  - split; [now apply fleb_refl | now apply fltb_fleb].
  - split; [now apply fltb_false_fleb | now apply fleb_refl].
Qed.

(** ** Bounding boxes, one coordinate at a time *)

(** [lo] and [hi] are the bounds of one coordinate, [q] that coordinate of
    the point the box is grown by, [x] that of a point inside. *)
Lemma grow_coord_keeps (lo hi q x : float) :
  isnan lo = false -> isnan hi = false ->
  fleb lo x = true -> fleb x hi = true ->
  fleb (fmin q lo) x = true /\ fleb x (fmax q hi) = true.
Proof.
  intros Hl Hh Hlx Hxh. destruct (isnan q) eqn:Hq.
  - now rewrite fmin_nan_l, fmax_nan_l.
  - destruct (fmin_le q lo Hq Hl) as [_ L].
    destruct (fmax_le q hi Hq Hh) as [_ U].
    split; [now apply fleb_trans with lo | now apply fleb_trans with hi].
Qed.

Lemma grow_coord_point (lo hi q : float) :
  isnan lo = false -> isnan hi = false -> isnan q = false ->
  fleb (fmin q lo) q = true /\ fleb q (fmax q hi) = true.
Proof.
  intros Hl Hh Hq.
  destruct (fmin_le q lo Hq Hl) as [L _].
  destruct (fmax_le q hi Hq Hh) as [U _]. now split.
Qed.

Lemma grow_safe_coord_keeps (lo hi q x : float) :
  isnan lo = false -> isnan hi = false -> isnan q = false ->
  fleb lo x = true -> fleb x hi = true ->
  fleb (fmin lo q) x = true /\ fleb x (fmax hi q) = true.
Proof.
  intros Hl Hh Hq Hlx Hxh.
  destruct (fmin_le lo q Hl Hq) as [L _].
  destruct (fmax_le hi q Hh Hq) as [U _].
  split; [now apply fleb_trans with lo | now apply fleb_trans with hi].
Qed.

Lemma grow_safe_coord_point (lo hi q : float) :
  isnan lo = false -> isnan hi = false -> isnan q = false ->
  fleb (fmin lo q) q = true /\ fleb q (fmax hi q) = true.
Proof.
  intros Hl Hh Hq.
  destruct (fmin_le lo q Hl Hq) as [_ L].
  destruct (fmax_le hi q Hh Hq) as [_ U]. now split.
Qed.

Lemma grow_safe_coord_finite (lo hi q : float) :
  isfinite_safe lo = true -> isfinite_safe hi = true ->
  isfinite_safe q = true ->
  isfinite_safe (fmin lo q) = true /\ isfinite_safe (fmax hi q) = true.
Proof.
  intros Hl Hh Hq.
  destruct (fmin_choice lo q) as [-> | ->], (fmax_choice hi q) as [-> | ->];
    now split.
Qed.

Lemma poisoned_grow (lo hi q : float) :
  poisoned lo hi = true -> poisoned (fmin q lo) (fmax q hi) = true.
Proof.
  unfold poisoned, fmin, fmax, fltb, SFltb, SFcompare.
  destruct lo as [[|]|[|]| |[|] ml el], hi as [[|]|[|]| |[|] mh eh];
    simpl; intros H; try discriminate;
    destruct q as [[|]|[|]| |[|] mq eq]; simpl; try reflexivity;
    repeat match goal with
    | |- context [Z.compare ?a ?b] => destruct (Z.compare a b)
    | |- context [Pos.compare_cont ?c ?a ?b] => destruct (Pos.compare_cont c a b)
    end; reflexivity.
Qed.

Lemma poisoned_by_point (lo hi q : float) :
  isinf q = true -> poisoned (fmin q lo) (fmax q hi) = true.
Proof.
  unfold poisoned, fmin, fmax, fltb, SFltb, SFcompare.
  destruct q as [|[|]| |]; try discriminate; intros _;
    destruct lo as [[|]|[|]| |[|] ml el], hi as [[|]|[|]| |[|] mh eh];
    reflexivity.
Qed.

Lemma poisoned_not_finite (lo hi : float) :
  poisoned lo hi = true -> isfinite_safe lo && isfinite_safe hi = false.
Proof.
  unfold poisoned.
  destruct lo as [[|]|[|]| |[|] ml el], hi as [[|]|[|]| |[|] mh eh]; simpl;
    intros H; try discriminate; reflexivity.
Qed.

(** ** Bounding boxes *)

Lemma no_nan3_coords (p : float3) :
  no_nan3 p = true ->
  isnan (fx p) = false /\ isnan (fy p) = false /\ isnan (fz p) = false.
Proof.
  unfold no_nan3. intros H.
  apply andb_prop in H. destruct H as [H Hz].
  apply andb_prop in H. destruct H as [Hx Hy].
  now rewrite !negb_true_iff in *.
Qed.

Lemma no_nan3_intro (p : float3) :
  isnan (fx p) = false -> isnan (fy p) = false -> isnan (fz p) = false ->
  no_nan3 p = true.
Proof. unfold no_nan3. now intros -> -> ->. Qed.

Lemma isfinite3_coords (p : float3) :
  isfinite3 p = true ->
  isfinite_safe (fx p) = true /\ isfinite_safe (fy p) = true
  /\ isfinite_safe (fz p) = true.
Proof.
  unfold isfinite3. intros H.
  apply andb_prop in H. destruct H as [H Hz].
  apply andb_prop in H. now destruct H as [Hx Hy].
Qed.

Lemma isfinite3_intro (p : float3) :
  isfinite_safe (fx p) = true -> isfinite_safe (fy p) = true ->
  isfinite_safe (fz p) = true -> isfinite3 p = true.
Proof. unfold isfinite3. now intros -> -> ->. Qed.

Lemma corners_no_nan_coords (b : BoundBox) :
  corners_no_nan b = true -> no_nan3 (bmin b) = true /\ no_nan3 (bmax b) = true.
Proof. unfold corners_no_nan. intros H. now apply andb_prop in H. Qed.

Lemma grow_no_nan (b : BoundBox) (p : float3) :
  corners_no_nan b = true -> corners_no_nan (grow b p) = true.
Proof.
  intros H. apply corners_no_nan_coords in H. destruct H as [Hlo Hhi].
  apply no_nan3_coords in Hlo, Hhi.
  destruct Hlo as (Lx & Ly & Lz), Hhi as (Ux & Uy & Uz).
  unfold corners_no_nan, grow. cbn [bmin bmax].
  apply andb_true_intro. split; apply no_nan3_intro; cbn [f3_min f3_max fx fy fz];
    first [now apply fmin_not_nan | now apply fmax_not_nan].
Qed.

Lemma grow_keeps_inside (b : BoundBox) (p q : float3) :
  corners_no_nan b = true -> inside b q -> inside (grow b p) q.
Proof.
  intros H (I1 & I2 & I3 & I4 & I5 & I6).
  apply corners_no_nan_coords in H. destruct H as [Hlo Hhi].
  apply no_nan3_coords in Hlo, Hhi.
  destruct Hlo as (Lx & Ly & Lz), Hhi as (Ux & Uy & Uz).
  destruct (grow_coord_keeps _ _ (fx p) _ Lx Ux I1 I2).
  destruct (grow_coord_keeps _ _ (fy p) _ Ly Uy I3 I4).
  destruct (grow_coord_keeps _ _ (fz p) _ Lz Uz I5 I6).
  unfold inside, grow. cbn [bmin bmax f3_min f3_max fx fy fz]. auto 10.
Qed.

Lemma grow_inside_point (b : BoundBox) (p : float3) :
  corners_no_nan b = true -> no_nan3 p = true -> inside (grow b p) p.
Proof.
  intros H Hp.
  apply corners_no_nan_coords in H. destruct H as [Hlo Hhi].
  apply no_nan3_coords in Hlo, Hhi, Hp.
  destruct Hlo as (Lx & Ly & Lz), Hhi as (Ux & Uy & Uz), Hp as (Px & Py & Pz).
  destruct (grow_coord_point _ _ _ Lx Ux Px).
  destruct (grow_coord_point _ _ _ Ly Uy Py).
  destruct (grow_coord_point _ _ _ Lz Uz Pz).
  unfold inside, grow. cbn [bmin bmax f3_min f3_max fx fy fz]. auto 10.
Qed.

(** Growing a box without NaN keeps what was inside and takes in every
    point without NaN. *)
Lemma fold_grow_inside (pts : list float3) (b : BoundBox) :
  corners_no_nan b = true ->
  corners_no_nan (fold_left grow pts b) = true
  /\ (forall q, inside b q -> inside (fold_left grow pts b) q)
  /\ (forall q, In q pts -> no_nan3 q = true ->
        inside (fold_left grow pts b) q).
Proof.
  revert b. induction pts as [|p pts IH]; intros b Hb; simpl.
  - split; [exact Hb|]. split; [auto | intros q []].
  - destruct (IH (grow b p) (grow_no_nan b p Hb)) as (N & K & I).
    split; [exact N|]. split.
    + intros q Hq. apply K. now apply grow_keeps_inside.
    + intros q [E | Hq] Hn; [subst q; apply K; now apply grow_inside_point|].
      now apply I.
Qed.

Lemma grow_safe_finite_point (b : BoundBox) (p : float3) :
  isfinite3 p = true ->
  grow_safe b p = mk_BoundBox (f3_min (bmin b) p) (f3_max (bmax b) p).
Proof. intros H. unfold grow_safe. now rewrite H. Qed.

Lemma corners_finite_coords (b : BoundBox) :
  corners_finite b = true ->
  isfinite3 (bmin b) = true /\ isfinite3 (bmax b) = true.
Proof. unfold corners_finite. intros H. now apply andb_prop in H. Qed.

Lemma grow_safe_corners_finite (b : BoundBox) (p : float3) :
  corners_finite b = true -> corners_finite (grow_safe b p) = true.
Proof.
  intros H. unfold grow_safe. destruct (isfinite3 p) eqn:Hp; [|exact H].
  apply corners_finite_coords in H. destruct H as [Hlo Hhi].
  apply isfinite3_coords in Hlo, Hhi, Hp.
  destruct Hlo as (Lx & Ly & Lz), Hhi as (Ux & Uy & Uz), Hp as (Px & Py & Pz).
  destruct (grow_safe_coord_finite _ _ _ Lx Ux Px).
  destruct (grow_safe_coord_finite _ _ _ Ly Uy Py).
  destruct (grow_safe_coord_finite _ _ _ Lz Uz Pz).
  unfold corners_finite. cbn [bmin bmax].
  apply andb_true_intro.
  split; apply isfinite3_intro; cbn [f3_min f3_max fx fy fz]; assumption.
Qed.

Lemma grow_safe_keeps_inside (b : BoundBox) (p q : float3) :
  corners_finite b = true -> inside b q -> inside (grow_safe b p) q.
Proof.
  intros H (I1 & I2 & I3 & I4 & I5 & I6).
  unfold grow_safe. destruct (isfinite3 p) eqn:Hp; [|now repeat split].
  apply corners_finite_coords in H. destruct H as [Hlo Hhi].
  apply isfinite3_coords in Hlo, Hhi, Hp.
  destruct Hlo as (Lx & Ly & Lz), Hhi as (Ux & Uy & Uz), Hp as (Px & Py & Pz).
  apply isfinite_safe_not_nan in Lx, Ly, Lz, Ux, Uy, Uz, Px, Py, Pz.
  destruct (grow_safe_coord_keeps _ _ _ _ Lx Ux Px I1 I2).
  destruct (grow_safe_coord_keeps _ _ _ _ Ly Uy Py I3 I4).
  destruct (grow_safe_coord_keeps _ _ _ _ Lz Uz Pz I5 I6).
  unfold inside. cbn [bmin bmax f3_min f3_max fx fy fz]. auto 10.
Qed.

Lemma grow_safe_inside_point (b : BoundBox) (p : float3) :
  corners_finite b = true -> isfinite3 p = true -> inside (grow_safe b p) p.
Proof.
  intros H Hp. rewrite (grow_safe_finite_point b p Hp).
  apply corners_finite_coords in H. destruct H as [Hlo Hhi].
  apply isfinite3_coords in Hlo, Hhi, Hp.
  destruct Hlo as (Lx & Ly & Lz), Hhi as (Ux & Uy & Uz), Hp as (Px & Py & Pz).
  apply isfinite_safe_not_nan in Lx, Ly, Lz, Ux, Uy, Uz, Px, Py, Pz.
  destruct (grow_safe_coord_point _ _ _ Lx Ux Px).
  destruct (grow_safe_coord_point _ _ _ Ly Uy Py).
  destruct (grow_safe_coord_point _ _ _ Lz Uz Pz).
  unfold inside. cbn [bmin bmax f3_min f3_max fx fy fz]. auto 10.
Qed.

(** The tolerant grow keeps the corners finite, keeps what was inside and
    takes in every finite point. *)
Lemma fold_grow_safe_inside (pts : list float3) (b : BoundBox) :
  corners_finite b = true ->
  corners_finite (fold_left grow_safe pts b) = true
  /\ (forall q, inside b q -> inside (fold_left grow_safe pts b) q)
  /\ (forall q, In q pts -> isfinite3 q = true ->
        inside (fold_left grow_safe pts b) q).
Proof.
  revert b. induction pts as [|p pts IH]; intros b Hb; simpl.
  - split; [exact Hb|]. split; [auto | intros q []].
  - destruct (IH (grow_safe b p) (grow_safe_corners_finite b p Hb))
      as (N & K & I).
    split; [exact N|]. split.
    + intros q Hq. apply K. now apply grow_safe_keeps_inside.
    + intros q [E | Hq] Hn;
        [subst q; apply K; now apply grow_safe_inside_point|].
      now apply I.
Qed.

(** A box with finite corners that contains a point is valid. *)
Lemma inside_valid (b : BoundBox) (p : float3) :
  corners_finite b = true -> inside b p -> valid b = true.
Proof.
  intros H (I1 & I2 & I3 & I4 & I5 & I6).
  apply corners_finite_coords in H. destruct H as [Hlo Hhi].
  unfold valid. rewrite Hlo, Hhi.
  rewrite (fleb_trans _ _ _ I1 I2), (fleb_trans _ _ _ I3 I4),
    (fleb_trans _ _ _ I5 I6).
  reflexivity.
Qed.

Lemma fold_grow_safe_filter (pts : list float3) (b : BoundBox) :
  fold_left grow_safe pts b = fold_left grow_safe (filter isfinite3 pts) b.
Proof.
  revert b. induction pts as [|p pts IH]; intros b; simpl; [reflexivity|].
  destruct (isfinite3 p) eqn:E; simpl; [apply IH|].
  unfold grow_safe at 2. rewrite E. apply IH.
Qed.

Lemma forallb_filter {A : Type} (P : A -> bool) (l : list A) :
  forallb P (filter P l) = true.
Proof.
  induction l as [|a l IH]; simpl; [reflexivity|].
  destruct (P a) eqn:E; simpl; [now rewrite E|exact IH].
Qed.

Lemma grow_poisoned (b : BoundBox) (p : float3) :
  box_poisoned b = true -> box_poisoned (grow b p) = true.
Proof.
  unfold box_poisoned, grow. simpl. rewrite !orb_true_iff.
  intros [[H | H] | H]; [left; left | left; right | right];
    now apply poisoned_grow.
Qed.

Lemma grow_poisons (b : BoundBox) (p : float3) :
  has_infinity p = true -> box_poisoned (grow b p) = true.
Proof.
  unfold box_poisoned, grow, has_infinity. simpl. rewrite !orb_true_iff.
  intros [[H | H] | H]; [left; left | left; right | right];
    now apply poisoned_by_point.
Qed.

Lemma poisoned_invalid (b : BoundBox) :
  box_poisoned b = true -> valid b = false.
Proof.
  unfold box_poisoned, valid, isfinite3. rewrite !orb_true_iff.
  intros [[H | H] | H]; apply poisoned_not_finite in H;
    apply andb_false_iff in H; destruct H as [H | H]; rewrite H;
    rewrite ?andb_false_r; reflexivity.
Qed.

Lemma fold_grow_poisoned (pts : list float3) (b : BoundBox) :
  box_poisoned b = true -> box_poisoned (fold_left grow pts b) = true.
Proof.
  revert b. induction pts as [|p pts IH]; intros b H; simpl; [exact H|].
  apply IH. now apply grow_poisoned.
Qed.

(** A point with an infinite coordinate leaves the grown box invalid. *)
Lemma infinity_invalid (pts : list float3) (b : BoundBox) :
  existsb has_infinity pts = true -> valid (fold_left grow pts b) = false.
Proof.
  revert b. induction pts as [|p pts IH]; intros b H; simpl in *;
    [discriminate|].
  destruct (has_infinity p) eqn:E.
  - apply poisoned_invalid, fold_grow_poisoned. now apply grow_poisons.
  - now apply IH.
Qed.

Lemma corners_finite_empty : corners_finite BoundBox_empty = true.
Proof. reflexivity. Qed.

Lemma corners_no_nan_empty : corners_no_nan BoundBox_empty = true.
Proof. reflexivity. Qed.

Lemma valid_empty : valid BoundBox_empty = false.
Proof. reflexivity. Qed.

Lemma grow_empty_zero : grow BoundBox_empty zero_float3 = origin_box.
Proof. reflexivity. Qed.

Lemma valid_origin_box : valid origin_box = true.
Proof. reflexivity. Qed.

(** The tolerant grow over a list with a finite point gives a valid box
    that contains every finite point of the list. *)
Lemma safe_box_of_valid (pts : list float3) :
  filter isfinite3 pts <> [] ->
  valid (safe_box_of pts) = true
  /\ forall q, In q pts -> isfinite3 q = true -> inside (safe_box_of pts) q.
Proof.
  intros Hne. unfold safe_box_of.
  destruct (fold_grow_safe_inside pts BoundBox_empty corners_finite_empty)
    as (C & _ & I).
  split; [|exact I].
  destruct (filter isfinite3 pts) as [|p fin] eqn:E; [congruence|].
  assert (Hp : In p (filter isfinite3 pts)) by (rewrite E; now left).
  apply filter_In in Hp. destruct Hp as [Hin Hf].
  apply (inside_valid _ p C). now apply I.
Qed.

Lemma safe_box_of_nothing (pts : list float3) :
  filter isfinite3 pts = [] -> safe_box_of pts = BoundBox_empty.
Proof.
  intros H. unfold safe_box_of. now rewrite fold_grow_safe_filter, H.
Qed.

(** ** Tightness *)

Lemma coord_grow_safe (c : float3 -> float) (b : BoundBox) (p : float3) :
  is_coord c -> isfinite3 p = true ->
  c (bmin (grow_safe b p)) = fmin (c (bmin b)) (c p)
  /\ c (bmax (grow_safe b p)) = fmax (c (bmax b)) (c p).
Proof.
  intros Hc Hp. rewrite (grow_safe_finite_point b p Hp).
  destruct Hc as [-> | [-> | ->]]; split; reflexivity.
Qed.

Lemma coord_in_range (c : float3 -> float) (p : float3) :
  is_coord c -> in_float_range3 p = true -> in_float_range (c p) = true.
Proof.
  unfold in_float_range3. intros Hc H.
  apply andb_prop in H. destruct H as [H Hz].
  apply andb_prop in H. destruct H as [Hx Hy].
  destruct Hc as [-> | [-> | ->]]; assumption.
Qed.

Lemma fmin_fmax_first (q : float) :
  in_float_range q = true ->
  fmin FLT_MAX q = q /\ fmax (fneg FLT_MAX) q = q.
Proof.
  unfold in_float_range. intros H.
  apply andb_prop in H. destruct H as [H1 H2].
  unfold fmin, fmax.
  rewrite (fleb_not_fltb _ _ H1), (fleb_not_fltb _ _ H2). now split.
Qed.

Lemma fold_grow_safe_attained (pts seen : list float3) (b : BoundBox) :
  forallb isfinite3 pts = true ->
  attained b seen -> attained (fold_left grow_safe pts b) (seen ++ pts).
Proof.
  revert seen b. induction pts as [|p pts IH]; intros seen b Hf Ha; simpl.
  - now rewrite app_nil_r.
  - simpl in Hf. apply andb_prop in Hf. destruct Hf as [Hp Hf].
    replace (seen ++ p :: pts) with ((seen ++ [p]) ++ pts)
      by (now rewrite <- app_assoc).
    apply IH; [exact Hf|].
    intros c Hcoord. destruct (Ha c Hcoord) as ((pl & Il & El) & (ph & Ih & Eh)).
    destruct (coord_grow_safe c b p Hcoord Hp) as [-> ->].
    destruct (fmin_choice (c (bmin b)) (c p)) as [-> | ->],
             (fmax_choice (c (bmax b)) (c p)) as [-> | ->];
      split;
      first [ exists pl; split; [apply in_or_app; now left | exact El]
            | exists ph; split; [apply in_or_app; now left | exact Eh]
            | exists p; split; [apply in_or_app; right; now left | reflexivity] ].
Qed.

Lemma safe_box_of_attained (pts : list float3) :
  pts <> [] -> forallb isfinite3 pts = true ->
  forallb in_float_range3 pts = true ->
  attained (safe_box_of pts) pts.
Proof.
  destruct pts as [|p pts]; [congruence|]. intros _ Hf Hr.
  simpl in Hf, Hr.
  apply andb_prop in Hf. destruct Hf as [Hp Hf].
  apply andb_prop in Hr. destruct Hr as [Hrp Hr].
  unfold safe_box_of. simpl.
  change (p :: pts) with ([p] ++ pts).
  apply fold_grow_safe_attained; [exact Hf|].
  intros c Hc. destruct (coord_grow_safe c BoundBox_empty p Hc Hp) as [-> ->].
  assert (E : c (bmin BoundBox_empty) = FLT_MAX
              /\ c (bmax BoundBox_empty) = fneg FLT_MAX)
    by (destruct Hc as [-> | [-> | ->]]; split; reflexivity).
  destruct E as [-> ->].
  destruct (fmin_fmax_first (c p)) as [-> ->];
    [now apply coord_in_range |].
  split; exists p; split; try reflexivity; now left.
Qed.

(** ** Bounds of a mesh *)

Lemma read_n_all (l : list float3) :
  read_n (ptr_of l) (Z.of_nat (length l)) = l.
Proof.
  unfold read_n. rewrite Nat2Z.id.
  apply nth_ext with (d := zero_float3) (d' := zero_float3).
  - now rewrite length_map, length_seq.
  - intros i Hi. rewrite length_map, length_seq in Hi.
    rewrite (nth_indep _ zero_float3 (ptr_of l (Z.of_nat 0))) by
      (now rewrite length_map, length_seq).
    rewrite (map_nth (fun i => ptr_of l (Z.of_nat i))), seq_nth by exact Hi.
    unfold ptr_of. now rewrite buf_get_nth.
Qed.

Lemma steps_size_stored (m : Mesh) (a : Attribute) :
  motion_samples_stored m ->
  attr_find (attributes m) ATTR_STD_MOTION_VERTEX_POSITION = Some a ->
  steps_size m = Z.of_nat (length (data_float3 a)).
Proof.
  intros H E. destruct (H a E) as (Hs & -> & Hlt).
  unfold steps_size, wrap_uint.
  rewrite (Z.mod_small (motion_steps m - 1)) by lia.
  apply wrap_size_t_small. pose proof (size_nonneg (verts m)). nia.
Qed.

Lemma compute_bounds_points (m : Mesh) :
  motion_samples_stored m ->
  bounds (compute_bounds m)
  = let pts := bound_points m in
    let b :=
      if 0 <? size (verts m) then
        if negb (valid (box_of pts)) then safe_box_of pts else box_of pts
      else BoundBox_empty in
    if negb (valid b) then grow b zero_float3 else b.
Proof.
  intros H.
  unfold compute_bounds, bound_points, motion_samples, box_of, safe_box_of.
  cbn [bounds set_bounds]. cbv zeta.
  destruct (0 <? size (verts m)); [|reflexivity].
  destruct (attr_find (attributes m) ATTR_STD_MOTION_VERTEX_POSITION)
    as [a|] eqn:E.
  - rewrite (steps_size_stored m a H E), read_n_all.
    destruct (use_motion_blur m);
      rewrite ?app_nil_r, ?fold_left_app; reflexivity.
  - rewrite ?app_nil_r. reflexivity.
Qed.

Lemma no_vertices_no_points (m : Mesh) :
  motion_samples_stored m -> size (verts m) = 0 -> bound_points m = [].
Proof.
  intros H Hs. unfold bound_points, motion_samples.
  assert (Ev : elems (verts m) = []).
  { unfold size in Hs. destruct (elems (verts m)); [reflexivity|].
    simpl in Hs. lia. }
  rewrite Ev. simpl.
  destruct (attr_find (attributes m) ATTR_STD_MOTION_VERTEX_POSITION)
    as [a|] eqn:E; [|reflexivity].
  destruct (use_motion_blur m); [|reflexivity].
  destruct (H a E) as (_ & Hl & _). rewrite Hs in Hl.
  destruct (data_float3 a); [reflexivity|]. simpl in Hl. lia.
Qed.

(** The vertex with a NaN coordinate is not skipped: its other two
    coordinates are taken into the box, which stays valid, so that the
    tolerant grow is not reached and the bounds are not those of the two
    finite vertices. *)
Lemma compute_bounds_nan_vertex :
  motion_samples_stored nan_vertex_mesh
  /\ filter isfinite3 (bound_points nan_vertex_mesh)
     = [point 1 2 3; point (-1) 5 0]
  /\ bounds (compute_bounds nan_vertex_mesh)
     = mk_BoundBox (point (-1) 0 0) (point 1 5 3)
  /\ safe_box_of [point 1 2 3; point (-1) 5 0]
     = mk_BoundBox (point (-1) 2 0) (point 1 5 3).
Proof.
  split; [intros a E; discriminate|].
  repeat split; vm_compute; reflexivity.
Qed.

(** C4 (amended).  [compute_bounds] never leaves the bounds invalid, and
    every finite point among the vertices and, when motion blur is on and a
    motion-position attribute exists, the motion-step samples lies in them.
    On a mesh with zero vertices the bounds are the box that contains
    exactly the origin.  When the box grown over all points is valid it is
    kept.  When it is not, which is so whenever a point has an infinite
    coordinate, the result is what the tolerant grow that skips the points
    with a NaN or infinite coordinate computes: the box of exactly the
    finite points, each of whose corner coordinates is the coordinate of one
    of them, or the box of the origin when every point was skipped. *)
Theorem compute_bounds_never_invalid (m : Mesh) :
  motion_samples_stored m ->
  let b := bounds (compute_bounds m) in
  let pts := bound_points m in
  let finite_points := filter isfinite3 pts in
  valid b = true
  /\ (forall p : float3, In p finite_points -> inside b p)
  /\ (size (verts m) = 0 -> b = origin_box)
  /\ (0 < size (verts m) -> valid (box_of pts) = true -> b = box_of pts)
  /\ (0 < size (verts m) -> valid (box_of pts) = false ->
        safe_box_of pts = safe_box_of finite_points
        /\ (finite_points = [] -> b = origin_box)
        /\ (finite_points <> [] ->
              b = safe_box_of finite_points
              /\ (forallb in_float_range3 finite_points = true ->
                    attained b finite_points)))
  /\ (existsb has_infinity pts = true -> valid (box_of pts) = false).
Proof.
  intros Hst. cbv zeta. rewrite (compute_bounds_points m Hst). cbv zeta.
  set (pts := bound_points m). set (fin := filter isfinite3 pts).
  assert (Hfin : forallb isfinite3 fin = true) by apply forallb_filter.
  assert (Esafe : safe_box_of pts = safe_box_of fin)
    by apply fold_grow_safe_filter.
  assert (Hinf : existsb has_infinity pts = true -> valid (box_of pts) = false)
    by apply infinity_invalid.
  destruct (0 <? size (verts m)) eqn:Es.
  - apply Z.ltb_lt in Es.
    destruct (valid (box_of pts)) eqn:E1; cbn [negb].
    + rewrite E1. cbn [negb].
      destruct (fold_grow_inside pts BoundBox_empty corners_no_nan_empty)
        as (_ & _ & I).
      split; [exact E1|]. split.
      { intros p Hp. apply filter_In in Hp. destruct Hp as [Hin Hf].
        apply I; [exact Hin | now apply isfinite3_no_nan]. }
      split; [lia|]. split; [reflexivity|]. split; [discriminate|exact Hinf].
    + destruct fin as [|p fin'] eqn:Ef.
      * rewrite (safe_box_of_nothing pts Ef), valid_empty. cbn [negb].
        rewrite grow_empty_zero.
        split; [exact valid_origin_box|]. split; [intros p []|].
        split; [lia|]. split; [discriminate|].
        split; [|exact Hinf]. intros _ _.
        split; [reflexivity|]. split; [reflexivity|congruence].
      * assert (Hne : filter isfinite3 pts <> [])
          by (fold fin; rewrite Ef; discriminate).
        destruct (safe_box_of_valid pts Hne) as [V I].
        rewrite V. cbn [negb].
        split; [exact V|]. split.
        { intros q Hq. fold fin in Hq. rewrite <- Ef in Hq. unfold fin in Hq.
          apply filter_In in Hq. destruct Hq as [Hin Hf]. now apply I. }
        split; [lia|]. split; [discriminate|].
        split; [|exact Hinf]. intros _ _.
        split; [exact Esafe|]. split; [discriminate|]. intros _.
        split; [exact Esafe|].
        intros Hr. rewrite Esafe. apply safe_box_of_attained;
          [discriminate | exact Hfin | exact Hr].
  - apply Z.ltb_ge in Es. rewrite valid_empty. cbn [negb].
    rewrite grow_empty_zero.
    assert (Hz : size (verts m) = 0) by (pose proof (size_nonneg (verts m)); lia).
    assert (Hp : pts = []) by now apply no_vertices_no_points.
    split; [exact valid_origin_box|]. split.
    { intros p Hin. unfold fin in Hin. rewrite Hp in Hin. destruct Hin. }
    split; [reflexivity|]. split; [lia|]. split; [lia|exact Hinf].
Qed.

Lemma motion_samples_stored_escaping_vertex :
  motion_samples_stored escaping_vertex_mesh.
Proof.
  intros a E. injection E as <-. vm_compute. repeat split; congruence.
Defined.

Lemma compute_bounds_never_invalid_witness :
  motion_samples_stored escaping_vertex_mesh
  /\ 0 < size (verts escaping_vertex_mesh)
  /\ valid (box_of (bound_points escaping_vertex_mesh)) = false
  /\ bounds (compute_bounds escaping_vertex_mesh)
     = mk_BoundBox (point 0 0 0) (point 5 0 0)
  /\ attained (bounds (compute_bounds escaping_vertex_mesh))
       [point 0 0 0; point 5 0 0].
Proof.
  assert (H1 : 0 < size (verts escaping_vertex_mesh)) by reflexivity.
  assert (H2 : valid (box_of (bound_points escaping_vertex_mesh)) = false)
    by reflexivity.
  assert (H3 : filter isfinite3 (bound_points escaping_vertex_mesh) <> [])
    by discriminate.
  split; [exact motion_samples_stored_escaping_vertex|].
  split; [exact H1|]. split; [exact H2|].
  destruct (proj1 (proj2 (proj2 (proj2 (proj2
              (compute_bounds_never_invalid escaping_vertex_mesh
                 motion_samples_stored_escaping_vertex))))) H1 H2)
    as (_ & _ & N).
  destruct (N H3) as [E A].
  split; [exact E | exact (A eq_refl)].
Defined.

(** ** Motion blur *)

(** C5.  [has_motion_blur] is true if and only if motion blur is enabled
    and a motion-position attribute exists on the active domain: the
    triangle domain normally, the subdivision domain when subdivision is
    enabled and the attribute exists there instead. *)
Theorem has_motion_blur_iff (m : Mesh) :
  has_motion_blur m = true <->
  use_motion_blur m = true
  /\ attr_found (domain_attributes m (active_motion_domain m))
                ATTR_STD_MOTION_VERTEX_POSITION = true.
Proof.
  unfold has_motion_blur, active_motion_domain, domain_attributes.
  destruct (use_motion_blur m); simpl; [|intuition congruence].
  destruct (SubdivisionType_eqb (subdivision_type m) SUBDIVISION_NONE);
  destruct (attr_found (subd_attributes m) ATTR_STD_MOTION_VERTEX_POSITION) eqn:Es;
  destruct (attr_found (attributes m) ATTR_STD_MOTION_VERTEX_POSITION) eqn:Et;
  simpl; rewrite ?Es, ?Et; intuition congruence.
Qed.

Lemma has_motion_blur_iff_witness :
  has_motion_blur motion_blur_mesh = true.
Proof.
  apply (proj2 (has_motion_blur_iff motion_blur_mesh)).
  split; reflexivity.
Defined.

(** ** Face normals of subdivision faces *)




Section SubdFaceNormalSpec.

Variable safe_normalize : float3 -> float3.


End SubdFaceNormalSpec.




(** ** Triangle arrays in lock-step *)

Lemma add_triangle_appends (m : Mesh) (v0 v1 v2 s : Z) (b : bool) :
  let m' := add_triangle v0 v1 v2 s b m in
  elems (triangles m') = elems (triangles m) ++ [v0; v1; v2]
  /\ elems (shader m') = elems (shader m) ++ [s]
  /\ elems (smooth m') = elems (smooth m) ++ [b].
Proof.
  simpl. repeat split. now rewrite <- !app_assoc.
Qed.

Lemma apply_op_in_sync (op : BuildOp) (m : Mesh) :
  triangles_in_sync m -> triangles_in_sync (apply_op m op).
Proof.
  unfold triangles_in_sync.
  destruct op; simpl; unfold push_back_reserved, push_back_slow;
    rewrite ?size_reserve, ?size_push_back; lia.
Qed.

(** C7.  Every [add_triangle] call appends the three vertex indices of the
    triangle and its shader and smooth entries, and after any sequence of
    reservations and appends from a mesh whose triangle arrays are in sync,
    [triangle_index_count == 3 * shader_count == 3 * smooth_count] holds. *)
Theorem add_triangle_lock_step :
  (forall (m : Mesh) (v0 v1 v2 shader_ : Z) (smooth_ : bool),
      let m' := add_triangle v0 v1 v2 shader_ smooth_ m in
      elems (triangles m') = elems (triangles m) ++ [v0; v1; v2]
      /\ elems (shader m') = elems (shader m) ++ [shader_]
      /\ elems (smooth m') = elems (smooth m) ++ [smooth_])
  /\ (forall (ops : list BuildOp) (m : Mesh),
      triangles_in_sync m -> triangles_in_sync (run ops m)).
Proof.
  split.
  - intros. apply add_triangle_appends.
  - intros ops. induction ops as [|op ops IH]; intros m H; simpl.
    + exact H.
    + apply IH. now apply apply_op_in_sync.
Qed.

Lemma add_triangle_lock_step_witness :
  triangles_in_sync Mesh_new
  /\ triangles_in_sync
       (run [OpReserveMesh 3 1; OpAddVertex zero_float3;
             OpAddTriangle 0 0 0 0 true; OpAddEdgeCrease 0 0 fzero;
             OpAddSubdFace [0; 0; 0] 3 0 false; OpAddTriangle 0 0 0 1 false]
            Mesh_new).
Proof.
  assert (H : triangles_in_sync Mesh_new) by (split; reflexivity).
  split; [exact H|].
  exact (proj2 add_triangle_lock_step _ Mesh_new H).
Defined.

(** ** Vertex normals *)

Section VertexNormals.

Variable safe_normalize : float3 -> float3.

Lemma static_vertex_normals_done (vs ts : Z) (m : Mesh) :
  static_done ts m -> static_vertex_normals vs ts m = m.
Proof.
  unfold static_done, static_vertex_normals. intros [H | H].
  - now rewrite H.
  - subst ts. simpl. now rewrite andb_false_r.
Qed.

Lemma motion_vertex_normals_done (ts : Z) (m : Mesh) :
  motion_done ts m -> motion_vertex_normals ts m = m.
Proof.
  unfold motion_done, motion_vertex_normals, attr_found.
  destruct (attr_find (attributes m) ATTR_STD_MOTION_VERTEX_POSITION);
    [|reflexivity].
  destruct (attr_find (attributes m) ATTR_STD_MOTION_VERTEX_NORMAL);
    [reflexivity|].
  intros [H | [H | [H | H]]]; try discriminate.
  - now rewrite H.
  - subst ts. simpl. now rewrite andb_false_r.
Qed.

Lemma subd_vertex_normals_done (flip : bool) (vs : Z) (m : Mesh) :
  subd_done m -> subd_vertex_normals safe_normalize flip vs m = m.
Proof.
  unfold subd_done, subd_vertex_normals. intros [H | H].
  - now rewrite H.
  - rewrite H. simpl. now rewrite andb_false_r.
Qed.

Lemma static_vertex_normals_post (vs ts : Z) (m : Mesh) :
  let m' := static_vertex_normals vs ts m in
  same_geometry m m' /\ static_done ts m'
  /\ subd_attributes m' = subd_attributes m
  /\ (forall std, std <> ATTR_STD_VERTEX_NORMAL ->
        attr_found (attributes m') std = attr_found (attributes m) std).
Proof.
  unfold static_vertex_normals, static_done, same_geometry.
  destruct (attr_found (attributes m) ATTR_STD_VERTEX_NORMAL) eqn:E; simpl.
  - intuition.
  - destruct (ts =? 0) eqn:Ets; simpl.
    + apply Z.eqb_eq in Ets. intuition.
    + rewrite attr_found_add. simpl. rewrite orb_true_r.
      repeat split; auto.
      intros std Hstd. rewrite attr_found_add.
      destruct std; simpl; try apply orb_false_r. congruence.
Qed.

Lemma has_motion_blur_ext (m m' : Mesh) :
  same_geometry m m' ->
  attr_found (attributes m') ATTR_STD_MOTION_VERTEX_POSITION
  = attr_found (attributes m) ATTR_STD_MOTION_VERTEX_POSITION ->
  attr_found (subd_attributes m') ATTR_STD_MOTION_VERTEX_POSITION
  = attr_found (subd_attributes m) ATTR_STD_MOTION_VERTEX_POSITION ->
  has_motion_blur m' = has_motion_blur m.
Proof.
  intros (_ & _ & _ & Hu & Hs & _) Ha Hb. unfold has_motion_blur.
  now rewrite Hu, Hs, Ha, Hb.
Qed.

Lemma motion_vertex_normals_post (ts : Z) (m : Mesh) :
  let m' := motion_vertex_normals ts m in
  same_geometry m m' /\ motion_done ts m'
  /\ subd_attributes m' = subd_attributes m
  /\ (forall std, std <> ATTR_STD_MOTION_VERTEX_NORMAL ->
        attr_found (attributes m') std = attr_found (attributes m) std).
Proof.
  unfold motion_vertex_normals, motion_done, same_geometry.
  destruct (attr_find (attributes m) ATTR_STD_MOTION_VERTEX_POSITION) eqn:EP.
  2:{ unfold attr_found at 1. rewrite EP. intuition. }
  destruct (attr_find (attributes m) ATTR_STD_MOTION_VERTEX_NORMAL) eqn:EN.
  1:{ unfold attr_found at 2. rewrite EN. intuition. }
  destruct (has_motion_blur m) eqn:Eh; simpl.
  2:{ intuition. }
  destruct (ts =? 0) eqn:Ets; simpl.
  1:{ apply Z.eqb_eq in Ets. intuition. }
  rewrite !attr_found_add. simpl. rewrite orb_true_r.
  repeat split; auto.
  intros std Hstd. rewrite attr_found_add.
  destruct std; simpl; try apply orb_false_r. congruence.
Qed.

Lemma subd_vertex_normals_post (flip : bool) (vs : Z) (m : Mesh) :
  let m' := subd_vertex_normals safe_normalize flip vs m in
  same_geometry m m' /\ subd_done m'
  /\ attributes m' = attributes m
  /\ (forall std, std <> ATTR_STD_VERTEX_NORMAL ->
        attr_found (subd_attributes m') std
        = attr_found (subd_attributes m) std).
Proof.
  unfold subd_vertex_normals, subd_done, same_geometry, get_num_subd_faces.
  destruct (attr_found (subd_attributes m) ATTR_STD_VERTEX_NORMAL) eqn:E; simpl.
  - intuition.
  - destruct (num_subd_faces m =? 0) eqn:Ens; simpl.
    + apply Z.eqb_eq in Ens. intuition.
    + rewrite attr_found_add. simpl. rewrite orb_true_r.
      repeat split; auto.
      intros std Hstd. rewrite attr_found_add.
      destruct std; simpl; try apply orb_false_r. congruence.
Qed.

Lemma same_geometry_trans (m1 m2 m3 : Mesh) :
  same_geometry m1 m2 -> same_geometry m2 m3 -> same_geometry m1 m3.
Proof.
  unfold same_geometry. intuition congruence.
Qed.

(** C8.  [add_vertex_normals] is idempotent: run twice in a row it leaves
    the mesh as one run does.  The second run finds each normal attribute
    of the first (static, motion, subdivision domain) and creates or
    changes nothing. *)
Theorem add_vertex_normals_idempotent (m : Mesh) :
  add_vertex_normals safe_normalize (add_vertex_normals safe_normalize m)
  = add_vertex_normals safe_normalize m.
Proof.
  unfold add_vertex_normals at 2 3.
  set (ts := num_triangles m). set (vs := size (verts m)).
  set (flip := transform_negative_scaled m).
  set (m1 := static_vertex_normals vs ts m).
  set (m2 := motion_vertex_normals ts m1).
  set (m3 := subd_vertex_normals safe_normalize flip vs m2).
  destruct (static_vertex_normals_post vs ts m) as (G1 & D1 & S1 & A1).
  destruct (motion_vertex_normals_post ts m1) as (G2 & D2 & S2 & A2).
  destruct (subd_vertex_normals_post flip vs m2) as (G3 & D3 & S3 & A3).
  fold m1 in G1, D1, S1, A1. fold m2 in G2, D2, S2, A2.
  fold m3 in G3, D3, S3, A3.
  assert (G : same_geometry m m3)
    by (eapply same_geometry_trans; [eapply same_geometry_trans|]; eassumption).
  unfold add_vertex_normals.
  destruct G as (Gv & Gt & Gf & _).
  replace (num_triangles m3) with ts by (unfold ts, num_triangles; now rewrite Gt).
  rewrite Gv, Gf. fold vs flip.
  assert (E1 : static_vertex_normals vs ts m3 = m3).
  { apply static_vertex_normals_done. unfold static_done in *.
    destruct D1 as [D1 | D1]; [left | now right].
    rewrite S3. rewrite A2 by discriminate. exact D1. }
  rewrite E1.
  assert (E2 : motion_vertex_normals ts m3 = m3).
  { apply motion_vertex_normals_done. unfold motion_done in *.
    rewrite S3.
    destruct D2 as [D2 | [D2 | [D2 | D2]]]; auto.
    right; right; left. rewrite <- D2.
    apply has_motion_blur_ext; [exact G3 | now rewrite S3 |].
    apply A3. discriminate. }
  rewrite E2.
  now apply subd_vertex_normals_done.
Qed.

End VertexNormals.

(** ** Face normals of triangles *)


(** A vertex with an infinite coordinate: the cross product has a NaN
    component, so has its length, the guard does not fire and the normal
    returned has a NaN component. *)
Lemma compute_normal_infinite_vertex :
  isnan (fx (compute_normal first_triangle (ptr_of infinite_vertex_verts)))
  = true.
Proof. vm_compute. reflexivity. Qed.



(** The triangle [(0,0,0), (1,0,0), (0,1,0)] has the face normal
    [(0,0,1)]. *)
Lemma compute_normal_unit_triangle :
  compute_normal first_triangle (ptr_of unit_triangle_verts) = point 0 0 1.
Proof. vm_compute. reflexivity. Qed.

(** ** Shader ids *)

Lemma forallb_firstn_nth {A : Type} (P : A -> bool) (l : list A) (k : nat)
    (d : A) :
  (k < length l)%nat -> forallb P (firstn (S k) l) = true ->
  P (nth k l d) = true.
Proof.
  revert k. induction l as [|a l IH]; intros k Hk H; simpl in Hk; [lia|].
  change (firstn (S k) (a :: l)) with (a :: firstn k l) in H.
  simpl in H. apply andb_prop in H. destruct H as [Ha Hl].
  destruct k as [|k]; simpl; [exact Ha|].
  apply IH; [lia | exact Hl].
Qed.

Lemma same_as_last_resolved (scene : Scene) (m : Mesh) (ls : Z) (lsm : bool)
    (i : nat) :
  same_as_last m ls lsm i = true ->
  get_shader_id scene
    (if ls <? size (used_shaders m) then array_get 0 (used_shaders m) ls
     else default_surface scene) lsm
  = resolved_shader_id scene m (triangle_shader m i) (triangle_smooth m i).
Proof.
  unfold same_as_last, resolved_shader_id. intros H.
  apply andb_prop in H. destruct H as [H1 H2].
  apply Z.eqb_eq in H1. apply eqb_prop in H2. now subst.
Qed.

Lemma pack_shaders_loop_nth (scene : Scene) (m : Mesh) (idx : list nat) :
  forall (k : nat) (shader_id last_shader : Z) (last_smooth : bool),
    (k < length idx)%nat ->
    nth k (pack_shaders_loop scene m idx shader_id last_shader last_smooth) 0
    = if forallb (same_as_last m last_shader last_smooth) (firstn (S k) idx)
      then shader_id
      else resolved_shader_id scene m (triangle_shader m (nth k idx 0%nat))
             (triangle_smooth m (nth k idx 0%nat)).
Proof.
  induction idx as [|i idx IH]; intros k sid ls lsm Hk; simpl in Hk; [lia|].
  change (firstn (S k) (i :: idx)) with (i :: firstn k idx).
  cbn [forallb pack_shaders_loop].
  fold (triangle_shader m i). fold (triangle_smooth m i).
  replace (negb (wrap_uint (triangle_shader m i) =? ls)
           || negb (Bool.eqb lsm (triangle_smooth m i)))
    with (negb (same_as_last m ls lsm i))
    by (unfold same_as_last; apply negb_andb).
  destruct (same_as_last m ls lsm i) eqn:E; cbn [negb andb].
  - destruct k as [|k]; [reflexivity|].
    cbn [nth]. rewrite IH by lia. reflexivity.
  - destruct k as [|k]; [reflexivity|].
    cbn [nth]. rewrite IH by lia.
    destruct (forallb _ (firstn (S k) idx)) eqn:F; [|reflexivity].
    apply forallb_firstn_nth with (d := 0%nat) in F; [|lia].
    now apply same_as_last_resolved.
Qed.

Lemma firstn_seq (k a n : nat) : firstn k (seq a n) = seq a (Nat.min k n).
Proof.
  revert a n. induction k as [|k IH]; intros a n; [reflexivity|].
  destruct n as [|n]; [reflexivity|].
  simpl. now rewrite IH.
Qed.

(** Every entry [pack_shaders] writes: 0 as long as no triangle differed from
    the initial [last_shader] and [last_smooth], the resolved id of the
    triangle afterwards. *)
Lemma pack_shaders_nth (scene : Scene) (m : Mesh) (i : nat) :
  (i < Z.to_nat (num_triangles m))%nat ->
  nth i (pack_shaders scene m) 0
  = if never_resolved m i then 0
    else resolved_shader_id scene m (triangle_shader m i) (triangle_smooth m i).
Proof.
  intros Hi. unfold pack_shaders, never_resolved.
  rewrite pack_shaders_loop_nth by (now rewrite length_seq).
  rewrite seq_nth by exact Hi. simpl Nat.add.
  rewrite firstn_seq. rewrite Nat.min_l by lia. reflexivity.
Qed.

(** C10, at the failing input.  One triangle with shader index -1 and the
    smooth flag off: seen as unsigned the index equals the initial
    [last_shader], the flag equals the initial [last_smooth], no id is
    resolved and the initial [shader_id] 0 is written, whatever the id of
    the default surface shader is. *)
Theorem pack_shaders_sentinel_collision (scene : Scene) :
  pack_shaders scene (add_triangle 0 1 2 (-1) false Mesh_new) = [0]
  /\ resolved_shader_id scene (add_triangle 0 1 2 (-1) false Mesh_new)
       (-1) false
     = get_shader_id scene (default_surface scene) false.
Proof.
  split; reflexivity.
Qed.

(** * Further properties *)

(** ** Lists *)

Lemma nth_map_seq {A : Type} (f : nat -> A) (n i : nat) (d : A) :
  (i < n)%nat -> nth i (map f (seq 0 n)) d = f i.
Proof.
  intros Hi. rewrite nth_indep with (d' := f 0%nat)
    by (now rewrite length_map, length_seq).
  rewrite (map_nth f). now rewrite seq_nth.
Qed.

(** ** Packed shader ids *)

Lemma pack_shaders_loop_length (scene : Scene) (m : Mesh) (idx : list nat) :
  forall (shader_id last_shader : Z) (last_smooth : bool),
    length (pack_shaders_loop scene m idx shader_id last_shader last_smooth)
    = length idx.
Proof.
  induction idx as [|i idx IH]; intros sid ls lsm; [reflexivity|].
  cbn [pack_shaders_loop].
  destruct (negb _ || negb _); cbn [length]; now rewrite IH.
Qed.

(** X1.  [pack_shaders] writes one id per triangle, and the id of triangle
    [i] is the id resolved for its shader index and smooth flag, unless every
    triangle up to [i] has the pair the loop starts from ([(uint)-1] and
    [false]), in which case it is 0. *)
Theorem pack_shaders_entries (scene : Scene) (m : Mesh) :
  length (pack_shaders scene m) = Z.to_nat (num_triangles m)
  /\ forall i : nat, (i < Z.to_nat (num_triangles m))%nat ->
       nth i (pack_shaders scene m) 0
       = if never_resolved m i then 0
         else resolved_shader_id scene m (triangle_shader m i)
                                 (triangle_smooth m i).
Proof.
  split.
  - unfold pack_shaders. now rewrite pack_shaders_loop_length, length_seq.
  - intros i Hi. now apply pack_shaders_nth.
Qed.

Lemma pack_shaders_entries_witness :
  (1 < Z.to_nat (num_triangles two_triangle_mesh))%nat
  /\ nth 1 (pack_shaders example_scene two_triangle_mesh) 0
     = if never_resolved two_triangle_mesh 1 then 0
       else resolved_shader_id example_scene two_triangle_mesh
              (triangle_shader two_triangle_mesh 1)
              (triangle_smooth two_triangle_mesh 1).
Proof.
  assert (H : (1 < Z.to_nat (num_triangles two_triangle_mesh))%nat)
    by (vm_compute; lia).
  split; [exact H|].
  exact (proj2 (pack_shaders_entries example_scene two_triangle_mesh) 1%nat H).
Defined.

Lemma never_resolved_first (m : Mesh) (i : nat) :
  same_as_last m (wrap_uint (-1)) false 0 = false -> never_resolved m i = false.
Proof.
  intros H. unfold never_resolved.
  change (seq 0 (S i)) with (0%nat :: seq 1 i).
  cbn [forallb]. now rewrite H.
Qed.

(** X2.  The cache of the last resolved pair does not show: when the first
    triangle does not have the pair the loop starts from (its shader index
    is not -1 as an unsigned value, or it is smooth), [pack_shaders] writes
    for every triangle the id resolved for its own shader index and smooth
    flag. *)
Theorem pack_shaders_resolves_all (scene : Scene) (m : Mesh) :
  wrap_uint (triangle_shader m 0) <> wrap_uint (-1)
  \/ triangle_smooth m 0 = true ->
  pack_shaders scene m = resolved_ids scene m.
Proof.
  intros H.
  assert (H0 : same_as_last m (wrap_uint (-1)) false 0 = false).
  { unfold same_as_last. destruct H as [H | H].
    - apply Z.eqb_neq in H. now rewrite H.
    - rewrite H. apply andb_false_r. }
  assert (HL : length (pack_shaders scene m) = Z.to_nat (num_triangles m)).
  { unfold pack_shaders. now rewrite pack_shaders_loop_length, length_seq. }
  pose proof (pack_shaders_nth scene m) as HN.
  apply nth_ext with (d := 0) (d' := 0).
  - unfold resolved_ids. now rewrite HL, length_map, length_seq.
  - intros i Hi. rewrite HL in Hi. rewrite HN by exact Hi.
    rewrite never_resolved_first by exact H0.
    unfold resolved_ids. now rewrite nth_map_seq.
Qed.

Lemma pack_shaders_resolves_all_witness :
  (wrap_uint (triangle_shader two_triangle_mesh 0) <> wrap_uint (-1)
   \/ triangle_smooth two_triangle_mesh 0 = true)
  /\ pack_shaders example_scene two_triangle_mesh
     = resolved_ids example_scene two_triangle_mesh.
Proof.
  assert (H : wrap_uint (triangle_shader two_triangle_mesh 0) <> wrap_uint (-1)
              \/ triangle_smooth two_triangle_mesh 0 = true)
    by (right; reflexivity).
  split; [exact H|].
  exact (pack_shaders_resolves_all example_scene two_triangle_mesh H).
Defined.

(** ** Triangles appended and read back *)

Lemma nth_app_at {A : Type} (l l' : list A) (k : nat) (d : A) :
  nth (length l + k) (l ++ l') d = nth k l' d.
Proof.
  rewrite app_nth2 by lia. f_equal. lia.
Qed.

(** X3.  A triangle appended by [add_triangle] to a mesh whose triangle
    arrays are in lock-step is the last triangle of the mesh:
    [get_triangle] gives its three indices back, its shader and smooth
    entries sit at the same index, the triangle count goes up by one and
    every triangle before it reads as before. *)
Theorem get_triangle_add_triangle (m : Mesh) (v0 v1 v2 shader_ : Z)
    (smooth_ : bool) :
  triangles_in_sync m ->
  size (triangles m) + 2 < 2 ^ 64 ->
  let m' := add_triangle v0 v1 v2 shader_ smooth_ m in
  let i := num_triangles m in
  num_triangles m' = i + 1
  /\ get_triangle m' i = mk_Triangle v0 v1 v2
  /\ array_get 0 (shader m') i = shader_
  /\ array_get false (smooth m') i = smooth_
  /\ forall k : Z, 0 <= k < i ->
       get_triangle m' k = get_triangle m k
       /\ array_get 0 (shader m') k = array_get 0 (shader m) k
       /\ array_get false (smooth m') k = array_get false (smooth m) k.
Proof.
  intros [H1 H2] Hsz. cbv zeta.
  destruct (add_triangle_appends m v0 v1 v2 shader_ smooth_) as (Et & Es & Eb).
  cbv zeta in Et, Es, Eb.
  set (m' := add_triangle v0 v1 v2 shader_ smooth_ m) in *.
  assert (Hn : num_triangles m = size (shader m)).
  { unfold num_triangles. rewrite H1. rewrite Z.mul_comm.
    apply Z.div_mul. lia. }
  assert (Hs3 : size (smooth m) = size (shader m)) by lia.
  assert (Hst : size (triangles m') = 3 * (size (shader m) + 1)).
  { unfold size in *. rewrite Et, length_app. simpl length. lia. }
  pose proof (size_nonneg (shader m)) as Hpos.
  rewrite Hn. split.
  { unfold num_triangles. rewrite Hst, Z.mul_comm. apply Z.div_mul. lia. }
  assert (Hidx : forall j : Z, 0 <= j < 3 ->
            array_get 0 (triangles m') (wrap_size_t (size (shader m) * 3 + j))
            = nth (Z.to_nat j) [v0; v1; v2] 0).
  { intros j Hj. rewrite wrap_size_t_small by lia.
    unfold array_get. rewrite Et.
    replace (size (shader m) * 3 + j)
      with (Z.of_nat (length (elems (triangles m)) + Z.to_nat j)).
    2:{ unfold size in *. lia. }
    rewrite buf_get_nth. apply nth_app_at. }
  split.
  { unfold get_triangle. rewrite !Hidx by lia. reflexivity. }
  split.
  { unfold array_get. rewrite Es. unfold size.
    rewrite buf_get_nth.
    replace (length (elems (shader m))) with (length (elems (shader m)) + 0)%nat
      at 1 by lia.
    apply nth_app_at. }
  split.
  { unfold array_get. rewrite Eb.
    replace (size (shader m)) with (Z.of_nat (length (elems (smooth m)) + 0)).
    2:{ unfold size in *. lia. }
    rewrite buf_get_nth. apply nth_app_at. }
  intros k Hk.
  assert (Hold : forall j : Z, 0 <= j < 3 ->
            array_get 0 (triangles m') (wrap_size_t (k * 3 + j))
            = array_get 0 (triangles m) (wrap_size_t (k * 3 + j))).
  { intros j Hj. rewrite wrap_size_t_small by lia.
    unfold array_get. rewrite Et.
    replace (k * 3 + j) with (Z.of_nat (Z.to_nat (k * 3 + j))) by lia.
    rewrite !buf_get_nth. apply app_nth1. unfold size in *. lia. }
  split.
  { unfold get_triangle. rewrite !Hold by lia. reflexivity. }
  split.
  { unfold array_get. rewrite Es.
    replace k with (Z.of_nat (Z.to_nat k)) by lia.
    rewrite !buf_get_nth. apply app_nth1. unfold size in *. lia. }
  { unfold array_get. rewrite Eb.
    replace k with (Z.of_nat (Z.to_nat k)) by lia.
    rewrite !buf_get_nth. apply app_nth1. unfold size in *. lia. }
Qed.

Lemma get_triangle_add_triangle_witness :
  triangles_in_sync two_triangle_mesh
  /\ size (triangles two_triangle_mesh) + 2 < 2 ^ 64
  /\ get_triangle (add_triangle 1 2 3 0 false two_triangle_mesh)
                  (num_triangles two_triangle_mesh)
     = mk_Triangle 1 2 3.
Proof.
  assert (H1 : triangles_in_sync two_triangle_mesh) by (split; reflexivity).
  assert (H2 : size (triangles two_triangle_mesh) + 2 < 2 ^ 64)
    by (vm_compute; reflexivity).
  split; [exact H1|]. split; [exact H2|].
  exact (proj1 (proj2
           (get_triangle_add_triangle two_triangle_mesh 1 2 3 0 false H1 H2))).
Defined.

(** ** Subdivision faces appended and read back *)

Lemma push_corners_elems (corners : list Z) (n : Z) (a : array Z) :
  elems (push_corners corners n a)
  = elems a ++ map (fun i => buf_get 0 corners (Z.of_nat i))
                   (seq 0 (Z.to_nat n)).
Proof.
  unfold push_corners. generalize (seq 0 (Z.to_nat n)) as idx. intros idx.
  revert a. induction idx as [|i idx IH]; intros a; simpl.
  - now rewrite app_nil_r.
  - rewrite IH. unfold push_back_reserved. rewrite elems_push_back.
    now rewrite <- app_assoc.
Qed.

Lemma push_corners_size (corners : list Z) (n : Z) (a : array Z) :
  size (push_corners corners n a) = size a + Z.max 0 n.
Proof.
  unfold size. rewrite push_corners_elems, length_app, length_map, length_seq.
  lia.
Qed.

Lemma array_get_app_old {T : Type} (d : T) (l l' : list T) (k : Z) :
  0 <= k < Z.of_nat (length l) -> buf_get d (l ++ l') k = buf_get d l k.
Proof.
  intros Hk. replace k with (Z.of_nat (Z.to_nat k)) by lia.
  rewrite !buf_get_nth. apply app_nth1. lia.
Qed.

Lemma array_get_app_new {T : Type} (d : T) (l l' : list T) (k : Z) :
  0 <= k -> buf_get d (l ++ l') (Z.of_nat (length l) + k)
            = buf_get d l' k.
Proof.
  intros Hk.
  replace (Z.of_nat (length l) + k)
    with (Z.of_nat (length l + Z.to_nat k)) by lia.
  replace k with (Z.of_nat (Z.to_nat k)) at 2 by lia.
  rewrite !buf_get_nth. apply nth_app_at.
Qed.

Lemma buf_get_app_last {T : Type} (d : T) (l : list T) (t : T) (k : Z) :
  k = Z.of_nat (length l) -> buf_get d (l ++ [t]) k = t.
Proof.
  intros ->. rewrite buf_get_nth.
  rewrite app_nth2 by lia. now rewrite Nat.sub_diag.
Qed.

(** X4.  A face appended by [add_subd_face] to a mesh whose per-face arrays
    hold one entry per face is the last face of the mesh: [get_subd_face]
    gives back its corner count, shader and smooth flag, its corners start
    where the corner array ended and read back as given, and the faces and
    corners before it read as before. *)
Theorem get_subd_face_add_subd_face (m : Mesh) (corners : list Z)
    (n shader_ : Z) (smooth_ : bool) :
  subd_faces_in_sync m ->
  size (subd_face_corners m) <= INT_MAX ->
  let m' := add_subd_face corners n shader_ smooth_ m in
  let i := size (subd_shader m) in
  let f := get_subd_face m' i in
  subd_faces_in_sync m'
  /\ size (subd_shader m') = i + 1
  /\ start_corner f = size (subd_face_corners m)
  /\ num_corners f = n
  /\ face_shader f = shader_
  /\ face_smooth f = smooth_
  /\ size (subd_face_corners m') = start_corner f + Z.max 0 n
  /\ (forall j : Z, 0 <= j < n ->
        array_get 0 (subd_face_corners m') (start_corner f + j)
        = buf_get 0 corners j)
  /\ (forall k : Z, 0 <= k < i -> get_subd_face m' k = get_subd_face m k)
  /\ (forall j : Z, 0 <= j < size (subd_face_corners m) ->
        array_get 0 (subd_face_corners m') j
        = array_get 0 (subd_face_corners m) j).
Proof.
  intros (S1 & S2 & S3 & S4) Hint. cbv zeta.
  pose proof (size_nonneg (subd_face_corners m)) as Hpos.
  assert (Hw : wrap_int (size (subd_face_corners m))
               = size (subd_face_corners m)).
  { apply wrap_int_in_int. unfold in_int, INT_MIN, INT_MAX in *. lia. }
  unfold add_subd_face, get_subd_face, subd_faces_in_sync.
  cbn [subd_start_corner subd_num_corners subd_shader subd_smooth
       subd_ptex_offset subd_face_corners start_corner num_corners
       face_shader face_smooth tag_modified set_socket_modified
       set_subd_ptex_offset set_subd_smooth set_subd_shader
       set_subd_num_corners set_subd_start_corner set_subd_face_corners].
  unfold push_back_reserved. rewrite !size_push_back, push_corners_size.
  unfold array_get. rewrite !elems_push_back, push_corners_elems, Hw.
  unfold size in *.
  rewrite (buf_get_app_last 0 (elems (subd_start_corner m))) by lia.
  rewrite (buf_get_app_last 0 (elems (subd_num_corners m))) by lia.
  rewrite (buf_get_app_last 0 (elems (subd_shader m))) by lia.
  rewrite (buf_get_app_last false (elems (subd_smooth m))) by lia.
  split; [lia|]. do 6 (split; [reflexivity|]).
  split.
  { intros j Hj. rewrite array_get_app_new by lia.
    replace j with (Z.of_nat (Z.to_nat j)) at 1 by lia.
    rewrite buf_get_nth, nth_map_seq by lia. f_equal. lia. }
  split.
  { intros k Hk. f_equal; apply array_get_app_old; lia. }
  { intros j Hj. apply array_get_app_old. lia. }
Qed.

Lemma get_subd_face_add_subd_face_witness :
  subd_faces_in_sync square_mesh
  /\ size (subd_face_corners square_mesh) <= INT_MAX
  /\ start_corner
       (get_subd_face (add_subd_face [3; 2; 1] 3 5 false square_mesh)
                      (size (subd_shader square_mesh)))
     = size (subd_face_corners square_mesh)
  /\ num_corners
       (get_subd_face (add_subd_face [3; 2; 1] 3 5 false square_mesh)
                      (size (subd_shader square_mesh)))
     = 3.
Proof.
  assert (H1 : subd_faces_in_sync square_mesh)
    by (repeat split; reflexivity).
  assert (H2 : size (subd_face_corners square_mesh) <= INT_MAX)
    by (vm_compute; discriminate).
  split; [exact H1|]. split; [exact H2|].
  destruct (get_subd_face_add_subd_face square_mesh [3; 2; 1] 3 5 false H1 H2)
    as (_ & _ & Ec & En & _).
  split; [exact Ec | exact En].
Defined.

(** ** Corner ranges *)

Lemma corner_sum_app (ns ns' : list Z) :
  corner_sum (ns ++ ns') = corner_sum ns + corner_sum ns'.
Proof. induction ns as [|n ns IH]; simpl; [lia|]. rewrite IH. lia. Qed.

Lemma corner_sum_nonneg (ns : list Z) : 0 <= corner_sum ns.
Proof. induction ns as [|n ns IH]; simpl; lia. Qed.

Lemma corner_sum_firstn_succ (ns : list Z) (k : nat) :
  (k < length ns)%nat ->
  corner_sum (firstn (S k) ns)
  = corner_sum (firstn k ns) + Z.max 0 (nth k ns 0).
Proof.
  revert k. induction ns as [|n ns IH]; intros k H; simpl in H; [lia|].
  destruct k as [|k].
  - simpl. lia.
  - change (firstn (S (S k)) (n :: ns)) with (n :: firstn (S k) ns).
    change (firstn (S k) (n :: ns)) with (n :: firstn k ns).
    change (nth (S k) (n :: ns) 0) with (nth k ns 0).
    cbn [corner_sum]. rewrite IH by lia. lia.
Qed.

Lemma add_subd_face_corner_invariant (ns : list Z) (m : Mesh)
    (corners : list Z) (n shader_ : Z) (smooth_ : bool) :
  corner_invariant ns m ->
  corner_invariant (ns ++ [n]) (add_subd_face corners n shader_ smooth_ m).
Proof.
  intros (Hc & Hl & Hs). unfold corner_invariant, add_subd_face.
  cbn [subd_start_corner subd_face_corners tag_modified set_socket_modified
       set_subd_ptex_offset set_subd_smooth set_subd_shader
       set_subd_num_corners set_subd_start_corner set_subd_face_corners].
  unfold push_back_reserved.
  rewrite push_corners_size, elems_push_back, !length_app, corner_sum_app, Hc.
  simpl length. simpl corner_sum.
  split; [lia|]. split; [lia|].
  intros i Hi.
  assert (Hcases : (i < length ns)%nat \/ i = length ns) by lia.
  destruct Hcases as [Hlt | ->].
  - rewrite app_nth1 by lia.
    rewrite firstn_app. replace (i - length ns)%nat with 0%nat by lia.
    simpl. rewrite app_nil_r. now apply Hs.
  - rewrite app_nth2 by lia. rewrite Hl, Nat.sub_diag. simpl.
    rewrite firstn_app, Nat.sub_diag, firstn_all. simpl.
    now rewrite app_nil_r.
Qed.

Lemma apply_op_corner_invariant (op : BuildOp) (ns : list Z) (m : Mesh) :
  corner_invariant ns m ->
  corner_invariant (ns ++ appended_faces [op]) (apply_op m op).
Proof.
  intros H.
  destruct op; simpl appended_faces; rewrite ?app_nil_r;
    lazymatch goal with
    | |- corner_invariant (_ ++ [_]) _ =>
        apply add_subd_face_corner_invariant; exact H
    | |- _ =>
        destruct H as (Hc & Hl & Hs);
        unfold corner_invariant; simpl;
        rewrite ?elems_reserve, ?size_reserve; auto
    end.
Qed.

Lemma run_corner_invariant (ops : list BuildOp) :
  corner_invariant (appended_faces ops) (run ops Mesh_new).
Proof.
  induction ops as [|op ops IH] using rev_ind.
  - unfold corner_invariant. simpl. repeat split; try reflexivity.
    intros i Hi. lia.
  - rewrite run_snoc, appended_faces_app. now apply apply_op_corner_invariant.
Qed.

(** X5.  For every construction sequence from a new mesh, the corner array
    holds the corners of the appended faces back to back: its size is the
    total of their corner counts, the stored [start_corner] of face [i] is
    the total of the faces appended before it, as long as that total is an
    [int] value, and so the corners of a face end where those of the next
    face start. *)
Theorem start_corner_is_running_total (ops : list BuildOp) (i : nat) :
  let m := run ops Mesh_new in
  let faces := appended_faces ops in
  size (subd_face_corners m) = corner_sum faces
  /\ ((i < length faces)%nat -> corner_sum (firstn i faces) <= INT_MAX ->
        start_corner (get_subd_face m (Z.of_nat i))
        = corner_sum (firstn i faces))
  /\ ((S i < length faces)%nat ->
      corner_sum (firstn (S i) faces) <= INT_MAX ->
        start_corner (get_subd_face m (Z.of_nat (S i)))
        = start_corner (get_subd_face m (Z.of_nat i))
          + Z.max 0 (num_corners (get_subd_face m (Z.of_nat i)))).
Proof.
  cbv zeta.
  destruct (run_corner_invariant ops) as (Hc & Hl & Hs).
  destruct (run_invariant ops) as (Hn & _).
  assert (Hstart : forall k : nat,
            (k < length (appended_faces ops))%nat ->
            corner_sum (firstn k (appended_faces ops)) <= INT_MAX ->
            start_corner (get_subd_face (run ops Mesh_new) (Z.of_nat k))
            = corner_sum (firstn k (appended_faces ops))).
  { intros k Hk Hint. unfold get_subd_face, array_get. cbn [start_corner].
    rewrite buf_get_nth, Hs by exact Hk.
    apply wrap_int_in_int.
    pose proof (corner_sum_nonneg (firstn k (appended_faces ops))).
    unfold in_int, INT_MIN, INT_MAX in *. lia. }
  split; [exact Hc|]. split; [apply Hstart|].
  intros Hi Hint.
  pose proof (corner_sum_firstn_succ (appended_faces ops) i) as Hsucc.
  rewrite Hstart by assumption.
  rewrite Hstart by (lia || (rewrite Hsucc in Hint by lia; lia)).
  unfold get_subd_face at 1. cbn [num_corners].
  unfold array_get. rewrite buf_get_nth, Hn. apply Hsucc. lia.
Qed.

Lemma start_corner_is_running_total_witness :
  (1 < length (appended_faces quad_pentagon_ops))%nat
  /\ corner_sum (firstn 1 (appended_faces quad_pentagon_ops)) <= INT_MAX
  /\ start_corner (get_subd_face (run quad_pentagon_ops Mesh_new) 1)
     = corner_sum (firstn 1 (appended_faces quad_pentagon_ops)).
Proof.
  assert (H1 : (1 < length (appended_faces quad_pentagon_ops))%nat)
    by (simpl; lia).
  assert (H2 : corner_sum (firstn 1 (appended_faces quad_pentagon_ops))
               <= INT_MAX) by (vm_compute; discriminate).
  split; [exact H1|]. split; [exact H2|].
  exact (proj1 (proj2
           (start_corner_is_running_total quad_pentagon_ops 1)) H1 H2).
Defined.

(** ** Per-face arrays and creases in lock-step *)

Lemma apply_op_subd_faces_in_sync (op : BuildOp) (m : Mesh) :
  subd_faces_in_sync m -> subd_faces_in_sync (apply_op m op).
Proof.
  unfold subd_faces_in_sync.
  destruct op; simpl; unfold push_back_reserved, push_back_slow;
    rewrite ?size_reserve, ?size_push_back; lia.
Qed.

Lemma apply_op_creases_in_sync (op : BuildOp) (m : Mesh) :
  creases_in_sync m -> creases_in_sync (apply_op m op).
Proof.
  unfold creases_in_sync.
  destruct op; simpl; unfold push_back_reserved, push_back_slow;
    rewrite ?size_reserve, ?size_push_back; lia.
Qed.

(** X6.  [add_edge_crease] appends the two vertex indices of the edge and
    one weight, [add_vertex_crease] one vertex index and one weight; after
    any sequence of reservations and appends the edge crease array holds two
    indices per weight, the vertex crease array one index per weight, and
    the five per-face arrays of the subdivision faces one entry per face,
    when the mesh they start from does. *)
Theorem creases_and_faces_lock_step :
  (forall (m : Mesh) (v0 v1 : Z) (weight : float),
      let m' := add_edge_crease v0 v1 weight m in
      elems (subd_creases_edge m') = elems (subd_creases_edge m) ++ [v0; v1]
      /\ elems (subd_creases_weight m')
         = elems (subd_creases_weight m) ++ [weight])
  /\ (forall (m : Mesh) (v : Z) (weight : float),
      let m' := add_vertex_crease v weight m in
      elems (subd_vert_creases m') = elems (subd_vert_creases m) ++ [v]
      /\ elems (subd_vert_creases_weight m')
         = elems (subd_vert_creases_weight m) ++ [weight])
  /\ (forall (ops : list BuildOp) (m : Mesh),
      creases_in_sync m -> creases_in_sync (run ops m))
  /\ (forall (ops : list BuildOp) (m : Mesh),
      subd_faces_in_sync m -> subd_faces_in_sync (run ops m)).
Proof.
  split; [|split; [|split]].
  - intros. simpl. split; [|reflexivity]. now rewrite <- app_assoc.
  - intros. simpl. split; reflexivity.
  - intros ops. induction ops as [|op ops IH]; intros m H; simpl.
    + exact H.
    + apply IH. now apply apply_op_creases_in_sync.
  - intros ops. induction ops as [|op ops IH]; intros m H; simpl.
    + exact H.
    + apply IH. now apply apply_op_subd_faces_in_sync.
Qed.

Lemma creases_and_faces_lock_step_witness :
  creases_in_sync Mesh_new
  /\ creases_in_sync
       (run [OpReserveSubdCreases 2; OpAddEdgeCrease 0 1 fone;
             OpAddVertexCrease 2 fone; OpAddSubdFace [0; 1; 2] 3 0 true;
             OpAddEdgeCrease 1 2 fzero] Mesh_new).
Proof.
  assert (H : creases_in_sync Mesh_new) by (split; reflexivity).
  split; [exact H|].
  exact (proj1 (proj2 (proj2 creases_and_faces_lock_step)) _ Mesh_new H).
Defined.

(** ** Motion-interpolated positions, continued *)

Lemma temporal_sample_same_reads (tri : Triangle)
    (verts verts' vert_steps vert_steps' : float3_ptr)
    (num_verts num_steps s : Z) :
  motion_layout tri num_verts num_steps ->
  0 <= s <= num_steps - 1 ->
  same_reads num_verts verts verts' ->
  same_reads (num_verts * (num_steps - 1)) vert_steps vert_steps' ->
  temporal_sample tri verts vert_steps num_verts num_steps s
  = temporal_sample tri verts' vert_steps' num_verts num_steps s.
Proof.
  intros (Hn & Hsz & H0 & H1 & H2) Hs Hv Hst. unfold temporal_sample.
  set (center := (num_steps - 1) / 2).
  assert (Hc : 0 <= center <= num_steps - 1).
  { unfold center. split; [apply Z.div_pos; lia|].
    apply Z.div_le_upper_bound; lia. }
  destruct (s =? center) eqn:Ec.
  - now rewrite !Hv.
  - apply Z.eqb_neq in Ec.
    set (s' := if s <? center then s else s - 1).
    assert (Hs' : 0 <= s' <= num_steps - 2).
    { unfold s'. destruct (s <? center) eqn:E2;
        [apply Z.ltb_lt in E2 | apply Z.ltb_ge in E2]; lia. }
    rewrite !Hst by nia. reflexivity.
Qed.

(** X9.  [motion_verts] reads nothing outside the two buffers: for [time]
    in [0,1] and a triangle whose indices are vertex indices, its result
    depends only on the first [num_verts] elements behind [verts] and the
    first [num_verts * (num_steps - 1)] elements behind [vert_steps]. *)
Theorem motion_verts_reads_in_bounds (tri : Triangle)
    (verts verts' vert_steps vert_steps' : float3_ptr)
    (num_verts num_steps : Z) (time : float) :
  motion_layout tri num_verts num_steps ->
  in_unit_interval time ->
  same_reads num_verts verts verts' ->
  same_reads (num_verts * (num_steps - 1)) vert_steps vert_steps' ->
  motion_verts tri verts vert_steps num_verts num_steps time
  = motion_verts tri verts' vert_steps' num_verts num_steps time.
Proof.
  intros HL Ht Hv Hs. pose proof HL as (Hn & _).
  rewrite !motion_verts_lerp by assumption.
  pose proof (motion_step_range num_steps time Hn) as Hstep.
  rewrite (temporal_sample_same_reads tri verts verts' vert_steps vert_steps')
    by (assumption || lia).
  rewrite (temporal_sample_same_reads tri verts verts' vert_steps vert_steps')
    by (assumption || lia).
  reflexivity.
Qed.

Lemma same_reads_app (l l' : list float3) :
  same_reads (Z.of_nat (length l)) (ptr_of l) (ptr_of (l ++ l')).
Proof.
  intros i Hi. unfold ptr_of. symmetry. now apply array_get_app_old.
Qed.

Lemma motion_verts_reads_in_bounds_witness :
  motion_layout first_triangle 3 3
  /\ in_unit_interval fone
  /\ same_reads 3 (ptr_of unit_triangle_verts) (ptr_of padded_triangle_verts)
  /\ same_reads (3 * (3 - 1)) (ptr_of moving_triangle_steps)
       (ptr_of padded_triangle_steps)
  /\ motion_verts first_triangle (ptr_of unit_triangle_verts)
       (ptr_of moving_triangle_steps) 3 3 fone
     = motion_verts first_triangle (ptr_of padded_triangle_verts)
         (ptr_of padded_triangle_steps) 3 3 fone.
Proof.
  assert (H1 : motion_layout first_triangle 3 3)
    by (unfold motion_layout; simpl; lia).
  assert (H2 : in_unit_interval fone) by (split; reflexivity).
  assert (H3 : same_reads 3 (ptr_of unit_triangle_verts)
                 (ptr_of padded_triangle_verts))
    by exact (same_reads_app unit_triangle_verts [point 9 9 9]).
  assert (H4 : same_reads (3 * (3 - 1)) (ptr_of moving_triangle_steps)
                 (ptr_of padded_triangle_steps))
    by exact (same_reads_app moving_triangle_steps [point 9 9 9]).
  split; [exact H1|]. split; [exact H2|]. split; [exact H3|].
  split; [exact H4|].
  exact (motion_verts_reads_in_bounds first_triangle _ _ _ _ 3 3 fone
           H1 H2 H3 H4).
Defined.

(** ** Buffers written by index *)

Lemma list_update_length {T : Type} (l : list T) (n : nat) (f : T -> T) :
  length (list_update l n f) = length l.
Proof.
  revert n. induction l as [|a l IH]; intros n; [reflexivity|].
  destruct n; simpl; [reflexivity | now rewrite IH].
Qed.

Lemma list_update_nth {T : Type} (l : list T) (n j : nat) (f : T -> T) (d : T) :
  (j < length l)%nat ->
  nth j (list_update l n f) d
  = if (j =? n)%nat then f (nth j l d) else nth j l d.
Proof.
  revert n j. induction l as [|a l IH]; intros n j Hj; simpl in Hj; [lia|].
  destruct n as [|n], j as [|j]; simpl; try reflexivity.
  apply IH. lia.
Qed.

Lemma buf_update_length {T : Type} (l : list T) (i : Z) (f : T -> T) :
  length (buf_update l i f) = length l.
Proof.
  unfold buf_update.
  destruct (0 <=? i); [apply list_update_length | reflexivity].
Qed.

Lemma buf_get_update {T : Type} (d : T) (l : list T) (i j : Z) (f : T -> T) :
  0 <= j < Z.of_nat (length l) ->
  buf_get d (buf_update l i f) j
  = if j =? i then f (buf_get d l j) else buf_get d l j.
Proof.
  intros Hj. unfold buf_update.
  destruct (0 <=? i) eqn:Ei.
  - apply Z.leb_le in Ei.
    assert (Ej : j = Z.of_nat (Z.to_nat j)) by lia.
    revert Hj. rewrite Ej. generalize (Z.to_nat j) as k. clear Ej j.
    intros k Hk.
    rewrite !buf_get_nth, list_update_nth by lia.
    destruct (Z.of_nat k =? i) eqn:E.
    + apply Z.eqb_eq in E.
      assert (E' : (k =? Z.to_nat i)%nat = true) by (apply Nat.eqb_eq; lia).
      now rewrite E'.
    + apply Z.eqb_neq in E.
      assert (E' : (k =? Z.to_nat i)%nat = false) by (apply Nat.eqb_neq; lia).
      now rewrite E'.
  - apply Z.leb_gt in Ei.
    assert (E : (j =? i) = false) by (apply Z.eqb_neq; lia).
    now rewrite E.
Qed.

(** A loop [for (i = 0; i < n; i++) p[off + i] = g(i, p[off + i])]. *)
Lemma fold_update_length {T : Type} (g : nat -> T -> T) (off : Z)
    (idx : list nat) (N : list T) :
  length (fold_left (fun N i => buf_update N (off + Z.of_nat i) (g i)) idx N)
  = length N.
Proof.
  revert N. induction idx as [|i idx IH]; intros N; simpl; [reflexivity|].
  now rewrite IH, buf_update_length.
Qed.

Lemma fold_update_range {T : Type} (g : nat -> T -> T) (off : Z) (n : nat)
    (N : list T) (d : T) (j : Z) :
  0 <= j < Z.of_nat (length N) ->
  buf_get d
    (fold_left (fun N i => buf_update N (off + Z.of_nat i) (g i)) (seq 0 n) N) j
  = if (off <=? j) && (j <? off + Z.of_nat n)
    then g (Z.to_nat (j - off)) (buf_get d N j)
    else buf_get d N j.
Proof.
  intros Hj. induction n as [|n IH].
  - simpl. destruct (off <=? j) eqn:E1; [|reflexivity].
    destruct (j <? off + 0) eqn:E2; [|reflexivity].
    apply Z.leb_le in E1. apply Z.ltb_lt in E2. lia.
  - rewrite seq_S, fold_left_app. cbn [fold_left Nat.add].
    rewrite buf_get_update by (now rewrite fold_update_length).
    rewrite IH.
    destruct (off <=? j) eqn:E1; cbn [andb].
    + apply Z.leb_le in E1.
      destruct (j =? off + Z.of_nat n) eqn:E2.
      * apply Z.eqb_eq in E2.
        assert (E3 : (j <? off + Z.of_nat n) = false) by (apply Z.ltb_ge; lia).
        assert (E4 : (j <? off + Z.of_nat (S n)) = true)
          by (apply Z.ltb_lt; lia).
        rewrite E3, E4. f_equal. lia.
      * apply Z.eqb_neq in E2.
        destruct (j <? off + Z.of_nat n) eqn:E3.
        -- apply Z.ltb_lt in E3.
           assert (E4 : (j <? off + Z.of_nat (S n)) = true)
             by (apply Z.ltb_lt; lia).
           now rewrite E4.
        -- apply Z.ltb_ge in E3.
           assert (E4 : (j <? off + Z.of_nat (S n)) = false)
             by (apply Z.ltb_ge; lia).
           now rewrite E4.
    + apply Z.leb_gt in E1.
      assert (E2 : (j =? off + Z.of_nat n) = false) by (apply Z.eqb_neq; lia).
      now rewrite E2.
Qed.

Lemma copy_n_length (src : float3_ptr) (n : Z) (dst : list float3) (off : Z) :
  length (copy_n src n dst off) = length dst.
Proof. unfold copy_n. apply fold_update_length. Qed.

Lemma copy_n_get (src : float3_ptr) (n : Z) (dst : list float3) (off j : Z) :
  0 <= n -> 0 <= j < Z.of_nat (length dst) ->
  buf_get zero_float3 (copy_n src n dst off) j
  = if (off <=? j) && (j <? off + n) then src (j - off)
    else buf_get zero_float3 dst j.
Proof.
  intros Hn Hj. unfold copy_n.
  rewrite (fold_update_range (fun i _ => src (Z.of_nat i))) by exact Hj.
  rewrite Z2Nat.id by exact Hn.
  destruct (off <=? j) eqn:E1; [|reflexivity].
  destruct (j <? off + n); [|reflexivity].
  apply Z.leb_le in E1. cbn [andb]. f_equal. lia.
Qed.

(** ** Attribute buffers written in place *)

Lemma AttributeStandard_eqb_eq (a b : AttributeStandard) :
  AttributeStandard_eqb a b = true <-> a = b.
Proof. destruct a, b; simpl; split; intros H; congruence. Qed.

Lemma attr_find_write (s : AttributeSet) (std std' : AttributeStandard)
    (f : list float3 -> list float3) :
  attr_find (attr_write s std f) std'
  = if AttributeStandard_eqb std std'
    then option_map (fun a => mk_Attribute (attr_std a) (f (data_float3 a)))
                    (attr_find s std)
    else attr_find s std'.
Proof.
  unfold attr_find. induction s as [|a s IH]; simpl.
  - now destruct (AttributeStandard_eqb std std').
  - destruct (AttributeStandard_eqb (attr_std a) std) eqn:Ea; simpl.
    + apply AttributeStandard_eqb_eq in Ea. rewrite Ea.
      destruct (AttributeStandard_eqb std std'); reflexivity.
    + rewrite IH.
      destruct (AttributeStandard_eqb std std') eqn:Es; [|reflexivity].
      apply AttributeStandard_eqb_eq in Es. subst std'. now rewrite Ea.
Qed.

(** ** Motion steps filled from the center *)

Lemma copy_center_to_motion_step_buffer (m : Mesh) (k : Z) :
  attr_found (attributes m) ATTR_STD_MOTION_VERTEX_POSITION = true ->
  let m' := copy_center_to_motion_step k m in
  verts m' = verts m
  /\ attr_found (attributes m') ATTR_STD_MOTION_VERTEX_POSITION = true
  /\ motion_positions m'
     = copy_n (ptr_of (elems (verts m))) (size (verts m)) (motion_positions m)
              (wrap_size_t (k * size (verts m))).
Proof.
  unfold attr_found, copy_center_to_motion_step, motion_positions.
  destruct (attr_find (attributes m) ATTR_STD_MOTION_VERTEX_POSITION)
    as [a|] eqn:EP; [|discriminate].
  intros _. cbv zeta.
  destruct (attr_find (attributes m) ATTR_STD_MOTION_VERTEX_NORMAL);
    cbn [verts attributes set_attributes];
    rewrite ?attr_find_write; cbn [AttributeStandard_eqb];
    rewrite ?attr_find_write; cbn [AttributeStandard_eqb];
    rewrite EP; cbn [option_map data_float3]; auto.
Qed.

Lemma temporal_sample_block (tri : Triangle) (verts vert_steps : float3_ptr)
    (num_verts num_steps s : Z) :
  s <> (num_steps - 1) / 2 ->
  temporal_sample tri verts vert_steps num_verts num_steps s
  = (vert_steps (motion_block num_steps s * num_verts + v_0 tri),
     vert_steps (motion_block num_steps s * num_verts + v_1 tri),
     vert_steps (motion_block num_steps s * num_verts + v_2 tri)).
Proof.
  intros Hs. unfold temporal_sample, motion_block.
  apply Z.eqb_neq in Hs. now rewrite Hs.
Qed.

Lemma motion_block_range (num_steps s : Z) :
  2 <= num_steps -> 0 <= s <= num_steps - 1 -> s <> (num_steps - 1) / 2 ->
  0 <= motion_block num_steps s <= num_steps - 2.
Proof.
  intros Hn Hs Hc. unfold motion_block.
  assert (H : 0 <= (num_steps - 1) / 2 <= num_steps - 1).
  { split; [apply Z.div_pos; lia|]. apply Z.div_le_upper_bound; lia. }
  destruct (s <? (num_steps - 1) / 2) eqn:E;
    [apply Z.ltb_lt in E | apply Z.ltb_ge in E]; lia.
Qed.

(** X10.  [copy_center_to_motion_step] makes the motion step it is called
    for a copy of the vertex array: afterwards the temporal sample stored in
    that block of the motion buffer reads as the center positions of the
    triangle, and every other sample reads as before.  The vertices and the
    length of the buffer stay as they were. *)
Theorem copy_center_to_motion_step_sample (m : Mesh) (tri : Triangle)
    (num_steps k : Z) :
  attr_found (attributes m) ATTR_STD_MOTION_VERTEX_POSITION = true ->
  motion_layout tri (size (verts m)) num_steps ->
  Z.of_nat (length (motion_positions m)) = size (verts m) * (num_steps - 1) ->
  0 <= k <= num_steps - 2 ->
  let m' := copy_center_to_motion_step k m in
  let sample mesh :=
    temporal_sample tri (ptr_of (elems (verts mesh)))
      (ptr_of (motion_positions mesh)) (size (verts m)) num_steps in
  verts m' = verts m
  /\ length (motion_positions m') = length (motion_positions m)
  /\ forall s : Z, 0 <= s <= num_steps - 1 -> s <> (num_steps - 1) / 2 ->
       sample m' s
       = if motion_block num_steps s =? k
         then center_positions tri (ptr_of (elems (verts m)))
         else sample m s.
Proof.
  intros Hf HL Hlen Hk. cbv zeta.
  destruct (copy_center_to_motion_step_buffer m k Hf) as (Hv & _ & Hb).
  cbv zeta in Hv, Hb.
  pose proof HL as (Hn & Hsz & H0 & H1 & H2).
  pose proof (size_nonneg (verts m)) as Hnv.
  split; [exact Hv|]. split; [rewrite Hb; apply copy_n_length|].
  intros s Hs Hc.
  pose proof (motion_block_range num_steps s Hn Hs Hc) as Hblk.
  rewrite !temporal_sample_block by exact Hc.
  rewrite Hb, wrap_size_t_small by nia.
  set (b := motion_block num_steps s) in *.
  set (nv := size (verts m)) in *.
  unfold ptr_of, center_positions.
  rewrite !copy_n_get by nia.
  destruct (b =? k) eqn:E.
  - apply Z.eqb_eq in E. subst k.
    assert (Hin : forall i : Z, 0 <= i < nv ->
              ((b * nv <=? b * nv + i) && (b * nv + i <? b * nv + nv)) = true).
    { intros i Hi. apply andb_true_intro.
      split; [apply Z.leb_le | apply Z.ltb_lt]; lia. }
    rewrite !Hin by assumption.
    repeat (f_equal; try lia).
  - apply Z.eqb_neq in E.
    assert (Hout : forall i : Z, 0 <= i < nv ->
              ((k * nv <=? b * nv + i) && (b * nv + i <? k * nv + nv)) = false).
    { intros i Hi. apply andb_false_iff.
      destruct (Z.lt_ge_cases b k) as [Hlt | Hge].
      - left. apply Z.leb_gt. nia.
      - right. apply Z.ltb_ge. nia. }
    rewrite !Hout by assumption. reflexivity.
Qed.

Lemma copy_center_to_motion_step_sample_witness :
  attr_found (attributes moving_triangle_mesh)
             ATTR_STD_MOTION_VERTEX_POSITION = true
  /\ motion_layout first_triangle (size (verts moving_triangle_mesh)) 3
  /\ Z.of_nat (length (motion_positions moving_triangle_mesh))
     = size (verts moving_triangle_mesh) * (3 - 1)
  /\ 0 <= 1 <= 3 - 2
  /\ temporal_sample first_triangle
       (ptr_of (elems (verts (copy_center_to_motion_step 1
                                moving_triangle_mesh))))
       (ptr_of (motion_positions
                  (copy_center_to_motion_step 1 moving_triangle_mesh)))
       (size (verts moving_triangle_mesh)) 3 2
     = center_positions first_triangle
         (ptr_of (elems (verts moving_triangle_mesh))).
Proof.
  assert (H1 : attr_found (attributes moving_triangle_mesh)
                 ATTR_STD_MOTION_VERTEX_POSITION = true) by reflexivity.
  assert (H2 : motion_layout first_triangle
                 (size (verts moving_triangle_mesh)) 3)
    by (change (motion_layout first_triangle 3 3);
        unfold motion_layout; simpl; lia).
  assert (H3 : Z.of_nat (length (motion_positions moving_triangle_mesh))
               = size (verts moving_triangle_mesh) * (3 - 1)) by reflexivity.
  assert (H4 : 0 <= 1 <= 3 - 2) by lia.
  split; [exact H1|]. split; [exact H2|]. split; [exact H3|].
  split; [exact H4|].
  refine (proj2 (proj2
            (copy_center_to_motion_step_sample moving_triangle_mesh
               first_triangle 3 1 H1 H2 H3 H4)) 2 _ _).
  - lia.
  - discriminate.
Defined.

(** ** Vertex normals, continued *)

Lemma attr_find_app (s l : AttributeSet) (std : AttributeStandard) :
  attr_find (s ++ l) std
  = match attr_find s std with
    | Some a => Some a
    | None => attr_find l std
    end.
Proof.
  unfold attr_find. induction s as [|a s IH]; simpl; [reflexivity|].
  destruct (AttributeStandard_eqb (attr_std a) std); [reflexivity | exact IH].
Qed.

Lemma extends_attributes_refl (m : Mesh) : extends_attributes m m.
Proof.
  exists [], []. destruct m; simpl. now rewrite !app_nil_r.
Qed.

Lemma extends_attributes_trans (m1 m2 m3 : Mesh) :
  extends_attributes m1 m2 -> extends_attributes m2 m3 ->
  extends_attributes m1 m3.
Proof.
  intros (l1 & l1' & ->) (l2 & l2' & ->).
  exists (l1 ++ l2), (l1' ++ l2'). destruct m1; simpl.
  now rewrite !app_assoc.
Qed.

Lemma extends_attributes_add (m : Mesh) (std : AttributeStandard)
    (data : list float3) :
  extends_attributes m (set_attributes (attr_add (attributes m) std data) m).
Proof.
  exists [mk_Attribute std data], []. destruct m; simpl.
  now rewrite app_nil_r.
Qed.

Lemma extends_attributes_add_subd (m : Mesh) (std : AttributeStandard)
    (data : list float3) :
  extends_attributes m
    (set_subd_attributes (attr_add (subd_attributes m) std data) m).
Proof.
  exists [], [mk_Attribute std data]. destruct m; simpl.
  now rewrite app_nil_r.
Qed.

Section VertexNormalsFrame.

Variable safe_normalize : float3 -> float3.

Lemma static_vertex_normals_extends (vs ts : Z) (m : Mesh) :
  extends_attributes m (static_vertex_normals vs ts m).
Proof.
  unfold static_vertex_normals.
  destruct (negb _ && negb _);
    [apply extends_attributes_add | apply extends_attributes_refl].
Qed.

Lemma motion_vertex_normals_extends (ts : Z) (m : Mesh) :
  extends_attributes m (motion_vertex_normals ts m).
Proof.
  unfold motion_vertex_normals.
  destruct (attr_find (attributes m) ATTR_STD_MOTION_VERTEX_POSITION);
    [|apply extends_attributes_refl].
  destruct (attr_find (attributes m) ATTR_STD_MOTION_VERTEX_NORMAL);
    [apply extends_attributes_refl|].
  destruct (has_motion_blur m && negb (ts =? 0));
    [apply extends_attributes_add | apply extends_attributes_refl].
Qed.

Lemma subd_vertex_normals_extends (flip : bool) (vs : Z) (m : Mesh) :
  extends_attributes m (subd_vertex_normals safe_normalize flip vs m).
Proof.
  unfold subd_vertex_normals.
  destruct (negb _ && negb _);
    [apply extends_attributes_add_subd | apply extends_attributes_refl].
Qed.

Lemma add_vertex_normals_extends (m : Mesh) :
  extends_attributes m (add_vertex_normals safe_normalize m).
Proof.
  unfold add_vertex_normals.
  eapply extends_attributes_trans; [|apply subd_vertex_normals_extends].
  eapply extends_attributes_trans; [|apply motion_vertex_normals_extends].
  apply static_vertex_normals_extends.
Qed.

(** X15.  [add_vertex_normals] only adds attributes: the mesh it leaves is
    the mesh it was given with attributes appended to its two attribute
    sets, so what [find] gave for a key before, in either set, it gives
    afterwards, with the same buffer. *)
Theorem add_vertex_normals_only_adds (m : Mesh) :
  let m' := add_vertex_normals safe_normalize m in
  extends_attributes m m'
  /\ (forall (std : AttributeStandard) (a : Attribute),
        attr_find (attributes m) std = Some a ->
        attr_find (attributes m') std = Some a)
  /\ (forall (std : AttributeStandard) (a : Attribute),
        attr_find (subd_attributes m) std = Some a ->
        attr_find (subd_attributes m') std = Some a).
Proof.
  cbv zeta.
  pose proof (add_vertex_normals_extends m) as H.
  split; [exact H|].
  destruct H as (l & l' & ->).
  split; intros std a Ha; destruct m; simpl in *;
    rewrite attr_find_app, Ha; reflexivity.
Qed.

End VertexNormalsFrame.

Lemma add_vertex_normals_only_adds_witness :
  attr_find (attributes moving_triangle_mesh) ATTR_STD_MOTION_VERTEX_POSITION
  = Some (mk_Attribute ATTR_STD_MOTION_VERTEX_POSITION moving_triangle_steps)
  /\ attr_find
       (attributes (add_vertex_normals zero_guarded_normalize
                      moving_triangle_mesh))
       ATTR_STD_MOTION_VERTEX_POSITION
     = Some (mk_Attribute ATTR_STD_MOTION_VERTEX_POSITION
                          moving_triangle_steps).
Proof.
  assert (H : attr_find (attributes moving_triangle_mesh)
                ATTR_STD_MOTION_VERTEX_POSITION
              = Some (mk_Attribute ATTR_STD_MOTION_VERTEX_POSITION
                                   moving_triangle_steps)) by reflexivity.
  split; [exact H|].
  exact (proj1 (proj2 (add_vertex_normals_only_adds zero_guarded_normalize
                         moving_triangle_mesh)) _ _ H).
Defined.

(** The loops of one pass, seen from one entry of the buffer. *)
Lemma fill_n_get (N : list float3) (off n : Z) (val : float3) (j : Z) :
  0 <= n -> 0 <= j < Z.of_nat (length N) ->
  buf_get zero_float3 (fill_n N off n val) j
  = if (off <=? j) && (j <? off + n) then val else buf_get zero_float3 N j.
Proof.
  intros Hn Hj. unfold fill_n.
  rewrite (fold_update_range (fun _ _ => val)) by exact Hj.
  now rewrite Z2Nat.id by exact Hn.
Qed.

Lemma fill_n_length (N : list float3) (off n : Z) (val : float3) :
  length (fill_n N off n val) = length N.
Proof. unfold fill_n. apply (fold_update_length (fun _ _ => val)). Qed.

Lemma normalize_normals_get (flip : bool) (off n : Z) (N : list float3)
    (j : Z) :
  0 <= n -> 0 <= j < Z.of_nat (length N) ->
  buf_get zero_float3 (normalize_normals flip off n N) j
  = if (off <=? j) && (j <? off + n)
    then finish_normal flip (buf_get zero_float3 N j)
    else buf_get zero_float3 N j.
Proof.
  intros Hn Hj. unfold normalize_normals.
  rewrite (fold_update_range (fun _ => finish_normal flip)) by exact Hj.
  now rewrite Z2Nat.id by exact Hn.
Qed.

Lemma normalize_normals_length (flip : bool) (off n : Z) (N : list float3) :
  length (normalize_normals flip off n N) = length N.
Proof.
  unfold normalize_normals.
  apply (fold_update_length (fun _ => finish_normal flip)).
Qed.

Lemma add_face_normals_fold (m : Mesh) (P : float3_ptr) (idx : list nat)
    (N : list float3) (j : Z) :
  0 <= j < Z.of_nat (length N) ->
  let body N i :=
    let tri := get_triangle m (Z.of_nat i) in
    let fN := compute_normal tri P in
    let N := buf_update N (0 + v_0 tri) (fun a => f3_add a fN) in
    let N := buf_update N (0 + v_1 tri) (fun a => f3_add a fN) in
    let N := buf_update N (0 + v_2 tri) (fun a => f3_add a fN) in
    N in
  let at_j acc i :=
    let tri := get_triangle m (Z.of_nat i) in
    let fN := compute_normal tri P in
    let acc := if v_0 tri =? j then f3_add acc fN else acc in
    let acc := if v_1 tri =? j then f3_add acc fN else acc in
    let acc := if v_2 tri =? j then f3_add acc fN else acc in
    acc in
  length (fold_left body idx N) = length N
  /\ buf_get zero_float3 (fold_left body idx N) j
     = fold_left at_j idx (buf_get zero_float3 N j).
Proof.
  intros Hj body at_j. revert N Hj.
  induction idx as [|i idx IH]; intros N Hj; [split; reflexivity|].
  cbn [fold_left].
  assert (Hlen : length (body N i) = length N).
  { unfold body. cbv zeta. now rewrite !buf_update_length. }
  destruct (IH (body N i)) as [IHl IHg]; [now rewrite Hlen|].
  split; [now rewrite IHl|].
  rewrite IHg. f_equal.
  unfold body, at_j. cbv zeta.
  rewrite !buf_get_update by (now rewrite ?buf_update_length).
  rewrite !Z.add_0_l.
  rewrite (Z.eqb_sym j (v_0 _)), (Z.eqb_sym j (v_1 _)), (Z.eqb_sym j (v_2 _)).
  reflexivity.
Qed.

Lemma add_face_normals_length (m : Mesh) (P : float3_ptr) (off ts : Z)
    (N : list float3) :
  length (add_face_normals m P off ts N) = length N.
Proof.
  unfold add_face_normals. generalize (seq 0 (Z.to_nat ts)) as idx.
  intros idx. revert N. induction idx as [|i idx IH]; intros N;
    [reflexivity|].
  cbn [fold_left]. rewrite IH. now rewrite !buf_update_length.
Qed.

Lemma vertex_normals_pass_length (m : Mesh) (P : float3_ptr) (off : Z)
    (N : list float3) :
  length (vertex_normals_pass m P off N) = length N.
Proof.
  unfold vertex_normals_pass.
  now rewrite normalize_normals_length, add_face_normals_length,
    fill_n_length.
Qed.

Lemma vertex_normals_pass_get (m : Mesh) (P : float3_ptr) (j : Z) :
  0 <= j < size (verts m) ->
  let N := vertex_normals_pass m P 0
             (repeat zero_float3 (Z.to_nat (size (verts m)))) in
  length N = Z.to_nat (size (verts m))
  /\ buf_get zero_float3 N j
     = finish_normal (transform_negative_scaled m) (vertex_normal_sum m P j).
Proof.
  intros Hj. cbv zeta. unfold vertex_normals_pass.
  pose proof (size_nonneg (verts m)) as Hn.
  set (n := size (verts m)) in *.
  set (N0 := repeat zero_float3 (Z.to_nat n)).
  assert (L0 : length N0 = Z.to_nat n) by apply repeat_length.
  set (N1 := fill_n N0 0 n zero_float3).
  assert (L1 : length N1 = Z.to_nat n)
    by (unfold N1; now rewrite fill_n_length).
  destruct (add_face_normals_fold m P (seq 0 (Z.to_nat (num_triangles m)))
              N1 j) as [L2 G2]; [lia|].
  cbv zeta in L2, G2.
  unfold add_face_normals.
  split.
  - now rewrite normalize_normals_length, L2.
  - rewrite normalize_normals_get by (rewrite ?L2; lia).
    assert (E : ((0 <=? j) && (j <? 0 + n)) = true).
    { apply andb_true_intro. split; [apply Z.leb_le | apply Z.ltb_lt]; lia. }
    rewrite E, G2. f_equal. unfold vertex_normal_sum. f_equal.
    unfold N1. rewrite fill_n_get by lia. now rewrite E.
Qed.

Section VertexNormalsValues.

Variable safe_normalize : float3 -> float3.

Lemma add_vertex_normals_static_attribute (m : Mesh) :
  attr_found (attributes m) ATTR_STD_VERTEX_NORMAL = false ->
  num_triangles m <> 0 ->
  attr_find (attributes (add_vertex_normals safe_normalize m))
            ATTR_STD_VERTEX_NORMAL
  = Some (mk_Attribute ATTR_STD_VERTEX_NORMAL
            (map (fun v =>
                    finish_normal (transform_negative_scaled m)
                      (vertex_normal_sum m (ptr_of (elems (verts m)))
                                         (Z.of_nat v)))
                 (seq 0 (Z.to_nat (size (verts m)))))).
Proof.
  intros Hnf Hts.
  assert (Hfind : attr_find (attributes m) ATTR_STD_VERTEX_NORMAL = None).
  { unfold attr_found in Hnf.
    destruct (attr_find (attributes m) ATTR_STD_VERTEX_NORMAL);
      [discriminate | reflexivity]. }
  set (vN := vertex_normals_pass m (ptr_of (elems (verts m))) 0
               (repeat zero_float3 (Z.to_nat (size (verts m))))).
  assert (Hstatic : attr_find
            (attributes (static_vertex_normals (size (verts m))
                           (num_triangles m) m)) ATTR_STD_VERTEX_NORMAL
          = Some (mk_Attribute ATTR_STD_VERTEX_NORMAL vN)).
  { unfold static_vertex_normals. rewrite Hnf.
    apply Z.eqb_neq in Hts. rewrite Hts.
    cbn [negb andb attributes set_attributes].
    rewrite attr_find_add, Hfind. reflexivity. }
  assert (Hfinal : attr_find
            (attributes (add_vertex_normals safe_normalize m))
            ATTR_STD_VERTEX_NORMAL
          = Some (mk_Attribute ATTR_STD_VERTEX_NORMAL vN)).
  { unfold add_vertex_normals.
    set (m1 := static_vertex_normals (size (verts m)) (num_triangles m) m) in *.
    set (m2 := motion_vertex_normals (num_triangles m) m1).
    destruct (motion_vertex_normals_extends (num_triangles m) m1)
      as (l & l' & E2).
    destruct (subd_vertex_normals_extends safe_normalize
                (transform_negative_scaled m) (size (verts m)) m2)
      as (k & k' & E3).
    rewrite E3. fold m2 in E2. rewrite E2.
    destruct m1; simpl in *. rewrite !attr_find_app, Hstatic. reflexivity. }
  rewrite Hfinal.
  assert (Hlen : length vN = Z.to_nat (size (verts m))).
  { unfold vN. now rewrite vertex_normals_pass_length, repeat_length. }
  do 2 f_equal. apply nth_ext with (d := zero_float3) (d' := zero_float3).
  - now rewrite Hlen, length_map, length_seq.
  - intros i Hi. rewrite Hlen in Hi.
    destruct (vertex_normals_pass_get m (ptr_of (elems (verts m)))
                (Z.of_nat i)) as [_ HG]; [lia|].
    fold vN in HG. rewrite buf_get_nth in HG. rewrite HG.
    now rewrite nth_map_seq.
Qed.

Lemma add_vertex_normals_verts (m : Mesh) :
  verts (add_vertex_normals safe_normalize m) = verts m.
Proof.
  destruct (add_vertex_normals_extends safe_normalize m) as (l & l' & ->).
  now destruct m.
Qed.

(** X16.  On a mesh with triangles and no vertex-normal attribute yet,
    [add_vertex_normals] creates the attribute with one normal per vertex:
    the normal of vertex [v] is the sum of the face normals of the
    triangles over [v], one term for each corner of a triangle that is [v],
    normalized, and negated when the object transform has a negative
    scale. *)
Theorem add_vertex_normals_values (m : Mesh) :
  attr_found (attributes m) ATTR_STD_VERTEX_NORMAL = false ->
  num_triangles m <> 0 ->
  vertex_normals (add_vertex_normals safe_normalize m)
  = Some (map (fun v =>
                 finish_normal (transform_negative_scaled m)
                   (vertex_normal_sum m (ptr_of (elems (verts m)))
                                      (Z.of_nat v)))
              (seq 0 (Z.to_nat (size (verts m))))).
Proof.
  intros Hnf Hts. unfold vertex_normals.
  now rewrite add_vertex_normals_static_attribute.
Qed.

End VertexNormalsValues.

Lemma add_vertex_normals_values_witness :
  attr_found (attributes unit_triangle_mesh) ATTR_STD_VERTEX_NORMAL = false
  /\ num_triangles unit_triangle_mesh <> 0
  /\ vertex_normals (add_vertex_normals zero_guarded_normalize
                       unit_triangle_mesh)
     = Some (map (fun v =>
                    finish_normal (transform_negative_scaled unit_triangle_mesh)
                      (vertex_normal_sum unit_triangle_mesh
                         (ptr_of (elems (verts unit_triangle_mesh)))
                         (Z.of_nat v)))
                 (seq 0 (Z.to_nat (size (verts unit_triangle_mesh))))).
Proof.
  assert (H1 : attr_found (attributes unit_triangle_mesh)
                 ATTR_STD_VERTEX_NORMAL = false) by reflexivity.
  assert (H2 : num_triangles unit_triangle_mesh <> 0)
    by (vm_compute; discriminate).
  split; [exact H1|]. split; [exact H2|].
  exact (add_vertex_normals_values zero_guarded_normalize unit_triangle_mesh
           H1 H2).
Defined.

(** ** Undisplaced positions *)

Lemma copy_n_all (l : list float3) :
  copy_n (ptr_of l) (Z.of_nat (length l))
         (repeat zero_float3 (length l)) 0 = l.
Proof.
  apply nth_ext with (d := zero_float3) (d' := zero_float3).
  - now rewrite copy_n_length, repeat_length.
  - intros i Hi. rewrite copy_n_length, repeat_length in Hi.
    rewrite <- !buf_get_nth.
    rewrite copy_n_get by (rewrite ?repeat_length; lia).
    assert (E : ((0 <=? Z.of_nat i) && (Z.of_nat i <? 0 + Z.of_nat (length l)))
                = true).
    { apply andb_true_intro. split; [apply Z.leb_le | apply Z.ltb_lt]; lia. }
    rewrite E. unfold ptr_of. f_equal. lia.
Qed.

Section AddUndisplacedProperties.

Variable element_size : Mesh -> Domain -> Z.

Lemma add_undisplaced_found (m : Mesh) :
  attr_found (domain_attributes m (undisplaced_domain m))
             ATTR_STD_POSITION_UNDISPLACED = true ->
  add_undisplaced element_size m = m.
Proof.
  unfold add_undisplaced, undisplaced_domain. intros H.
  cbv zeta. now rewrite H.
Qed.

Lemma add_undisplaced_post (m : Mesh) :
  let m' := add_undisplaced element_size m in
  subdivision_type m' = subdivision_type m
  /\ attr_found (domain_attributes m' (undisplaced_domain m))
                ATTR_STD_POSITION_UNDISPLACED = true
  /\ extends_attributes m m'.
Proof.
  cbv zeta. unfold add_undisplaced, undisplaced_domain.
  destruct (SubdivisionType_eqb (subdivision_type m) SUBDIVISION_NONE);
    cbn [domain_attributes].
  - destruct (attr_found (attributes m) ATTR_STD_POSITION_UNDISPLACED) eqn:E.
    + split; [reflexivity|]. split; [exact E|]. apply extends_attributes_refl.
    + split; [reflexivity|]. cbn [attributes set_attributes].
      rewrite attr_found_add. cbn [AttributeStandard_eqb].
      split; [apply orb_true_r|]. apply extends_attributes_add.
  - destruct (attr_found (subd_attributes m) ATTR_STD_POSITION_UNDISPLACED)
      eqn:E.
    + split; [reflexivity|]. split; [exact E|]. apply extends_attributes_refl.
    + split; [reflexivity|]. cbn [subd_attributes set_subd_attributes].
      rewrite attr_found_add. cbn [AttributeStandard_eqb].
      split; [apply orb_true_r|]. apply extends_attributes_add_subd.
Qed.

End AddUndisplacedProperties.

(** X17.  [add_undisplaced] works on the subdivision domain when
    subdivision is enabled and on the triangle domain otherwise.  It leaves
    the mesh alone when the domain has the undisplaced-position attribute;
    otherwise it appends the attribute to that domain and changes nothing
    else, and with a store that sizes the buffer by the vertex count the
    buffer is a copy of the vertex positions.  A second call changes
    nothing. *)
Theorem add_undisplaced_spec (element_size : Mesh -> Domain -> Z) (m : Mesh) :
  let m' := add_undisplaced element_size m in
  let attrs mesh := domain_attributes mesh (undisplaced_domain m) in
  attr_found (attrs m') ATTR_STD_POSITION_UNDISPLACED = true
  /\ extends_attributes m m'
  /\ add_undisplaced element_size m' = m'
  /\ (attr_found (attrs m) ATTR_STD_POSITION_UNDISPLACED = true -> m' = m)
  /\ (attr_found (attrs m) ATTR_STD_POSITION_UNDISPLACED = false ->
      attr_find (attrs (add_undisplaced per_vertex_size m))
                ATTR_STD_POSITION_UNDISPLACED
      = Some (mk_Attribute ATTR_STD_POSITION_UNDISPLACED (elems (verts m)))).
Proof.
  cbv zeta.
  destruct (add_undisplaced_post element_size m) as (Hs & Hf & He).
  cbv zeta in Hs, Hf, He.
  split; [exact Hf|]. split; [exact He|]. split.
  { apply add_undisplaced_found. unfold undisplaced_domain in *.
    now rewrite Hs. }
  split; [apply add_undisplaced_found|].
  intros Hnf.
  assert (Hdata : (if per_vertex_size m DOMAIN_TRIANGLE =? 0
                   then repeat zero_float3
                          (Z.to_nat (per_vertex_size m (undisplaced_domain m)))
                   else copy_n (ptr_of (elems (verts m)))
                          (per_vertex_size m DOMAIN_TRIANGLE)
                          (repeat zero_float3
                             (Z.to_nat (per_vertex_size m
                                          (undisplaced_domain m))))
                          0)
                  = elems (verts m)).
  { unfold per_vertex_size, size. rewrite Nat2Z.id.
    destruct (Z.of_nat (length (elems (verts m))) =? 0) eqn:E.
    - apply Z.eqb_eq in E. destruct (elems (verts m)); [reflexivity|].
      simpl in E. lia.
    - apply copy_n_all. }
  assert (Hnone : attr_find (domain_attributes m (undisplaced_domain m))
                    ATTR_STD_POSITION_UNDISPLACED = None).
  { unfold attr_found in Hnf.
    destruct (attr_find _ ATTR_STD_POSITION_UNDISPLACED);
      [discriminate | reflexivity]. }
  revert Hnf Hnone Hdata. unfold add_undisplaced, undisplaced_domain.
  destruct (SubdivisionType_eqb (subdivision_type m) SUBDIVISION_NONE);
    cbn [domain_attributes]; intros Hnf Hnone Hdata; rewrite Hnf;
    cbn [domain_attributes attributes subd_attributes set_attributes
         set_subd_attributes];
    rewrite attr_find_add, Hnone; cbn [AttributeStandard_eqb];
    now rewrite Hdata.
Qed.

Lemma add_undisplaced_spec_witness :
  attr_found (domain_attributes unit_triangle_mesh
                (undisplaced_domain unit_triangle_mesh))
             ATTR_STD_POSITION_UNDISPLACED = false
  /\ attr_find
       (domain_attributes (add_undisplaced per_vertex_size unit_triangle_mesh)
          (undisplaced_domain unit_triangle_mesh))
       ATTR_STD_POSITION_UNDISPLACED
     = Some (mk_Attribute ATTR_STD_POSITION_UNDISPLACED
                          (elems (verts unit_triangle_mesh))).
Proof.
  assert (H : attr_found (domain_attributes unit_triangle_mesh
                            (undisplaced_domain unit_triangle_mesh))
                ATTR_STD_POSITION_UNDISPLACED = false) by reflexivity.
  split; [exact H|].
  exact (proj2 (proj2 (proj2 (proj2
           (add_undisplaced_spec per_vertex_size unit_triangle_mesh)))) H).
Defined.

(** ** Resizing *)

Lemma size_resize {T : Type} (d : T) (n : Z) (a : array T) :
  0 <= n -> size (resize d n a) = n.
Proof.
  intros Hn. unfold size, resize. cbn [elems].
  rewrite length_app, length_firstn, repeat_length. lia.
Qed.

Lemma buf_get_resize {T : Type} (d : T) (n : Z) (a : array T) (i : Z) :
  0 <= i < Z.min n (size a) ->
  buf_get d (elems (resize d n a)) i = buf_get d (elems a) i.
Proof.
  intros Hi. unfold size in Hi. unfold resize. cbn [elems].
  rewrite array_get_app_old by (rewrite length_firstn; lia).
  replace i with (Z.of_nat (Z.to_nat i)) by lia.
  rewrite !buf_get_nth, nth_firstn.
  destruct (Z.to_nat i <? Z.to_nat n)%nat eqn:E; [reflexivity|].
  apply Nat.ltb_ge in E. lia.
Qed.

Section ResizeProperties.

Variable resize_attributes : Domain -> Mesh -> AttributeSet.

(** X18.  [resize_mesh] and [resize_subd_faces] set the logical sizes,
    whatever the sizes were before.  After [resize_mesh] with counts that
    are not negative and a triangle count whose triple is an [int], the
    mesh has that many vertices and triangles, its triangle arrays are in
    lock-step, and the vertices and triangles below the old and the new
    count read as before.  After [resize_subd_faces] the five per-face
    arrays hold one entry per face and the stored face count is their
    size. *)
Theorem resize_sets_sizes (m : Mesh) :
  (forall numverts numtris : Z,
      0 <= numverts <= INT_MAX -> 0 <= numtris -> numtris * 3 <= INT_MAX ->
      let m' := resize_mesh resize_attributes numverts numtris m in
      size (verts m') = numverts
      /\ num_triangles m' = numtris
      /\ triangles_in_sync m'
      /\ (forall i : Z, 0 <= i < Z.min numverts (size (verts m)) ->
            array_get zero_float3 (verts m') i
            = array_get zero_float3 (verts m) i)
      /\ (forall i : Z, 0 <= i < Z.min numtris (num_triangles m) ->
            get_triangle m' i = get_triangle m i))
  /\ (forall numfaces numcorners : Z,
      0 <= numfaces <= INT_MAX -> 0 <= numcorners <= INT_MAX ->
      let m' := resize_subd_faces resize_attributes numfaces numcorners m in
      subd_faces_in_sync m'
      /\ get_num_subd_faces m' = numfaces
      /\ size (subd_shader m') = numfaces
      /\ size (subd_face_corners m') = numcorners).
Proof.
  assert (Hmax : INT_MAX < 2 ^ 64) by (vm_compute; reflexivity).
  split.
  - intros nv nt Hnv Hnt Hnt3. cbv zeta.
    unfold resize_mesh, triangles_in_sync, num_triangles, get_triangle,
      array_get.
    cbn [verts triangles shader smooth set_verts set_triangles set_shader
         set_smooth set_attributes].
    rewrite (wrap_int_in_int (nt * 3))
      by (unfold in_int, INT_MIN, INT_MAX in *; lia).
    rewrite !wrap_size_t_small by lia.
    rewrite !size_resize by lia.
    split; [reflexivity|]. split; [apply Z.div_mul; lia|].
    split; [lia|]. split.
    + intros i Hi. now apply buf_get_resize.
    + intros i Hi.
      assert (Hq : 3 * (size (triangles m) / 3) <= size (triangles m))
        by (apply Z.mul_div_le; lia).
      pose proof (size_nonneg (triangles m)) as Hsz.
      assert (Hidx : forall j : Z, 0 <= j < 3 ->
                buf_get 0 (elems (resize 0 (nt * 3) (triangles m)))
                        (wrap_size_t (i * 3 + j))
                = buf_get 0 (elems (triangles m)) (wrap_size_t (i * 3 + j))).
      { intros j Hj. rewrite wrap_size_t_small by lia.
        apply buf_get_resize. lia. }
      rewrite !Hidx by lia. reflexivity.
  - intros nf nc Hnf Hnc. cbv zeta.
    unfold resize_subd_faces, subd_faces_in_sync, get_num_subd_faces.
    cbn [subd_start_corner subd_num_corners subd_shader subd_smooth
         subd_ptex_offset subd_face_corners num_subd_faces
         set_subd_start_corner set_subd_num_corners set_subd_shader
         set_subd_smooth set_subd_ptex_offset set_subd_face_corners
         set_num_subd_faces set_subd_attributes].
    rewrite !wrap_size_t_small by lia.
    rewrite !size_resize by lia.
    repeat split; reflexivity.
Qed.

End ResizeProperties.

Lemma resize_sets_sizes_witness :
  0 <= 5 <= INT_MAX /\ 0 <= 1 /\ 1 * 3 <= INT_MAX
  /\ num_triangles
       (resize_mesh (fun d mesh => domain_attributes mesh d) 5 1
                    two_triangle_mesh) = 1.
Proof.
  assert (H1 : 0 <= 5 <= INT_MAX) by (vm_compute; split; discriminate).
  assert (H2 : 0 <= 1) by lia.
  assert (H3 : 1 * 3 <= INT_MAX) by (vm_compute; discriminate).
  split; [exact H1|]. split; [exact H2|]. split; [exact H3|].
  exact (proj1 (proj2
           (proj1 (resize_sets_sizes (fun d mesh => domain_attributes mesh d)
                     two_triangle_mesh) 5 1 H1 H2 H3))).
Defined.

(** ** Packed vertices *)

Lemma pack_vindex_loop_length (p_tris : Z -> Z) (vert_offset : Z) (n : nat) :
  forall off : Z, length (pack_vindex_loop p_tris vert_offset n off) = n.
Proof.
  induction n as [|n IH]; intros off; [reflexivity|].
  cbn [pack_vindex_loop length]. now rewrite IH.
Qed.

Lemma pack_vindex_loop_nth (p_tris : Z -> Z) (vert_offset : Z) (n : nat) :
  forall (k : nat) (off : Z),
    (k < n)%nat -> 0 <= off -> off + 3 * Z.of_nat n <= INT_MAX ->
    nth k (pack_vindex_loop p_tris vert_offset n off) (0, 0, 0)
    = (wrap_uint (p_tris (off + 3 * Z.of_nat k + 0) + vert_offset),
       wrap_uint (p_tris (off + 3 * Z.of_nat k + 1) + vert_offset),
       wrap_uint (p_tris (off + 3 * Z.of_nat k + 2) + vert_offset)).
Proof.
  induction n as [|n IH]; intros k off Hk Hoff Hmax; [lia|].
  cbn [pack_vindex_loop].
  destruct k as [|k].
  - cbn [nth]. replace (off + 3 * Z.of_nat 0) with off by lia. reflexivity.
  - cbn [nth].
    rewrite (wrap_int_in_int (off + 3))
      by (unfold in_int, INT_MIN, INT_MAX in *; lia).
    rewrite IH by lia.
    replace (off + 3 + 3 * Z.of_nat k) with (off + 3 * Z.of_nat (S k)) by lia.
    reflexivity.
Qed.

(** X19.  [pack_verts] copies the vertex positions as they are and writes
    one index triple per triangle: the three vertex indices of the
    triangle, in the order [get_triangle] gives them, each moved by the
    vertex offset of the mesh and taken as an unsigned value.  The index
    array is assumed to have an [int] size, as the running offset of the
    loop is an [int]. *)
Theorem pack_verts_entries (vert_offset : Z) (m : Mesh) :
  size (triangles m) <= INT_MAX ->
  fst (pack_verts vert_offset m) = elems (verts m)
  /\ length (snd (pack_verts vert_offset m)) = Z.to_nat (num_triangles m)
  /\ forall i : nat, (i < Z.to_nat (num_triangles m))%nat ->
       nth i (snd (pack_verts vert_offset m)) (0, 0, 0)
       = packed_triangle vert_offset (get_triangle m (Z.of_nat i)).
Proof.
  intros Hmax. unfold pack_verts. cbn [fst snd].
  pose proof (size_nonneg (triangles m)) as Hsz.
  assert (Hq : 3 * (size (triangles m) / 3) <= size (triangles m))
    by (apply Z.mul_div_le; lia).
  assert (Hq0 : 0 <= size (triangles m) / 3) by (apply Z.div_pos; lia).
  split; [|split].
  - apply nth_ext with (d := zero_float3) (d' := zero_float3).
    + rewrite length_map, length_seq. unfold size. lia.
    + intros i Hi. rewrite length_map, length_seq in Hi.
      rewrite nth_map_seq by exact Hi.
      unfold array_get. apply buf_get_nth.
  - apply pack_vindex_loop_length.
  - intros i Hi. unfold num_triangles in *.
    rewrite pack_vindex_loop_nth by lia.
    unfold packed_triangle, get_triangle, array_get. cbn [v_0 v_1 v_2].
    assert (Hint : INT_MAX < 2 ^ 64) by (vm_compute; reflexivity).
    rewrite !wrap_size_t_small by lia.
    replace (0 + 3 * Z.of_nat i) with (Z.of_nat i * 3) by lia.
    reflexivity.
Qed.

Lemma pack_verts_entries_witness :
  size (triangles two_triangle_mesh) <= INT_MAX
  /\ (1 < Z.to_nat (num_triangles two_triangle_mesh))%nat
  /\ nth 1 (snd (pack_verts 10 two_triangle_mesh)) (0, 0, 0)
     = packed_triangle 10 (get_triangle two_triangle_mesh (Z.of_nat 1)).
Proof.
  assert (H1 : size (triangles two_triangle_mesh) <= INT_MAX)
    by (vm_compute; discriminate).
  assert (H2 : (1 < Z.to_nat (num_triangles two_triangle_mesh))%nat)
    by (vm_compute; lia).
  split; [exact H1|]. split; [exact H2|].
  exact (proj2 (proj2 (pack_verts_entries 10 two_triangle_mesh H1)) 1%nat H2).
Defined.

(** ** Modified flags and tessellation *)

Lemma is_modified_tag (s s' : Socket) (m : Mesh) :
  is_modified s (tag_modified s' m)
  = if Socket_eq_dec s s' then true else is_modified s m.
Proof.
  unfold is_modified, tag_modified. cbn [socket_modified set_socket_modified].
  destruct (Socket_eq_dec s s') as [-> | Hne].
  - apply set_mem_correct2. apply set_add_intro2. reflexivity.
  - destruct (set_mem Socket_eq_dec s (socket_modified m)) eqn:E.
    + apply set_mem_correct2. apply set_add_intro1.
      now apply set_mem_correct1 in E.
    + apply set_mem_complete2. intros H.
      apply set_add_elim2 in H; [|exact Hne].
      apply set_mem_complete1 in E. contradiction.
Qed.

Lemma is_modified_tag_keeps (s s' : Socket) (m : Mesh) :
  is_modified s m = true -> is_modified s (tag_modified s' m) = true.
Proof.
  intros H. rewrite is_modified_tag. now destruct (Socket_eq_dec s s').
Qed.

Lemma apply_op_keeps_modified (s : Socket) (op : BuildOp) (m : Mesh) :
  is_modified s m = true -> is_modified s (apply_op m op) = true.
Proof.
  intros H.
  destruct op; cbn [apply_op];
    unfold reserve_mesh, reserve_subd_faces, reserve_subd_creases,
      add_vertex, add_vertex_slow, add_triangle, add_subd_face,
      add_edge_crease, add_vertex_crease; cbv zeta;
    repeat apply is_modified_tag_keeps; exact H.
Qed.

Lemma apply_op_subdivision_type (op : BuildOp) (m : Mesh) :
  subdivision_type (apply_op m op) = subdivision_type m.
Proof. destruct op; reflexivity. Qed.

Lemma run_keeps_modified (s : Socket) (ops : list BuildOp) (m : Mesh) :
  is_modified s m = true -> is_modified s (run ops m) = true.
Proof.
  revert m. induction ops as [|op ops IH]; intros m H; [exact H|].
  apply IH. now apply apply_op_keeps_modified.
Qed.

Lemma run_subdivision_type (ops : list BuildOp) (m : Mesh) :
  subdivision_type (run ops m) = subdivision_type m.
Proof.
  revert m. induction ops as [|op ops IH]; intros m; [reflexivity|].
  simpl. now rewrite IH, apply_op_subdivision_type.
Qed.

(** X20.  No reservation or append clears a modified flag or changes the
    subdivision type, and [add_vertex] and [add_vertex_slow] flag the
    vertices as modified.  So once a vertex was added, whatever is reserved
    or appended afterwards, [need_tesselation] holds exactly when
    subdivision is enabled; and it never holds on a mesh whose subdivision
    type is none. *)
Theorem need_tesselation_after_add_vertex
    (dicing_rate_modified objecttoworld_modified max_level_modified : bool)
    (m : Mesh) :
  let need := need_tesselation dicing_rate_modified objecttoworld_modified
                               max_level_modified in
  let enabled :=
    negb (SubdivisionType_eqb (subdivision_type m) SUBDIVISION_NONE) in
  (forall (s : Socket) (ops : list BuildOp),
      is_modified s m = true -> is_modified s (run ops m) = true)
  /\ (forall (P : float3) (ops : list BuildOp),
      need (run ops (add_vertex P m)) = enabled
      /\ need (run ops (add_vertex_slow P m)) = enabled)
  /\ (forall ops : list BuildOp,
      subdivision_type m = SUBDIVISION_NONE -> need (run ops m) = false).
Proof.
  cbv zeta. split; [|split].
  - intros s ops. apply run_keeps_modified.
  - intros P ops. unfold need_tesselation.
    rewrite !run_subdivision_type.
    rewrite !run_keeps_modified
      by (unfold add_vertex, add_vertex_slow; rewrite is_modified_tag;
          now destruct (Socket_eq_dec SOCKET_verts SOCKET_verts)).
    cbn [orb]. split; apply andb_true_r.
  - intros ops Hs. unfold need_tesselation.
    now rewrite run_subdivision_type, Hs.
Qed.

Lemma need_tesselation_after_add_vertex_witness :
  is_modified SOCKET_verts unit_triangle_mesh = true
  /\ is_modified SOCKET_verts
       (run [OpAddTriangle 0 1 2 0 false; OpReserveMesh 8 8]
            unit_triangle_mesh) = true.
Proof.
  assert (H : is_modified SOCKET_verts unit_triangle_mesh = true)
    by reflexivity.
  split; [exact H|].
  exact (proj1 (need_tesselation_after_add_vertex false false false
                  unit_triangle_mesh) SOCKET_verts _ H).
Defined.

(** ** Packed normals *)

Lemma map_ptr_of_all (l : list float3) :
  map (fun i => ptr_of l (Z.of_nat i)) (seq 0 (length l)) = l.
Proof.
  apply nth_ext with (d := zero_float3) (d' := zero_float3).
  - now rewrite length_map, length_seq.
  - intros i Hi. rewrite length_map, length_seq in Hi.
    rewrite nth_map_seq by exact Hi. unfold ptr_of. apply buf_get_nth.
Qed.

(** X21.  [pack_normals] writes nothing exactly when the mesh has no
    vertex-normal attribute.  With no transform applied it writes the
    normal of every vertex as the attribute has it; so after
    [add_vertex_normals] on a mesh with triangles and no vertex normals
    yet, it writes for every vertex the normalized sum of the face normals
    of the triangles over that vertex. *)
Theorem pack_normals_spec (safe_normalize transform_direction_normal
    : float3 -> float3) (m : Mesh) :
  (forall transform_applied : bool,
      pack_normals safe_normalize transform_direction_normal
                   transform_applied m = None
      <-> attr_found (attributes m) ATTR_STD_VERTEX_NORMAL = false)
  /\ (forall vN : list float3,
      vertex_normals m = Some vN -> length vN = Z.to_nat (size (verts m)) ->
      pack_normals safe_normalize transform_direction_normal false m = Some vN)
  /\ (attr_found (attributes m) ATTR_STD_VERTEX_NORMAL = false ->
      num_triangles m <> 0 ->
      pack_normals safe_normalize transform_direction_normal false
                   (add_vertex_normals safe_normalize m)
      = Some (map (fun v =>
                     finish_normal (transform_negative_scaled m)
                       (vertex_normal_sum m (ptr_of (elems (verts m)))
                                          (Z.of_nat v)))
                  (seq 0 (Z.to_nat (size (verts m)))))).
Proof.
  split; [|split].
  - intros ta. unfold pack_normals, attr_found.
    destruct (attr_find (attributes m) ATTR_STD_VERTEX_NORMAL).
    + destruct ta; split; discriminate.
    + split; reflexivity.
  - intros vN Hv Hlen. unfold vertex_normals in Hv. unfold pack_normals.
    destruct (attr_find (attributes m) ATTR_STD_VERTEX_NORMAL) as [a|];
      [|discriminate].
    cbn [option_map] in Hv. injection Hv as ->.
    cbv zeta. rewrite <- Hlen. now rewrite map_ptr_of_all.
  - intros Hnf Hts. unfold pack_normals.
    rewrite add_vertex_normals_static_attribute by assumption.
    cbv zeta. cbn [data_float3]. rewrite add_vertex_normals_verts.
    set (l := map (fun v => finish_normal _ _) _).
    assert (Hl : length l = Z.to_nat (size (verts m)))
      by (unfold l; now rewrite length_map, length_seq).
    rewrite <- Hl. f_equal. apply map_ptr_of_all.
Qed.

Lemma pack_normals_spec_witness :
  attr_found (attributes unit_triangle_mesh) ATTR_STD_VERTEX_NORMAL = false
  /\ num_triangles unit_triangle_mesh <> 0
  /\ pack_normals zero_guarded_normalize (fun a => a) false
       (add_vertex_normals zero_guarded_normalize unit_triangle_mesh)
     = Some (map (fun v =>
                    finish_normal (transform_negative_scaled unit_triangle_mesh)
                      (vertex_normal_sum unit_triangle_mesh
                         (ptr_of (elems (verts unit_triangle_mesh)))
                         (Z.of_nat v)))
                 (seq 0 (Z.to_nat (size (verts unit_triangle_mesh))))).
Proof.
  assert (H1 : attr_found (attributes unit_triangle_mesh)
                 ATTR_STD_VERTEX_NORMAL = false) by reflexivity.
  assert (H2 : num_triangles unit_triangle_mesh <> 0)
    by (vm_compute; discriminate).
  split; [exact H1|]. split; [exact H2|].
  exact (proj2 (proj2 (pack_normals_spec zero_guarded_normalize (fun a => a)
                         unit_triangle_mesh)) H1 H2).
Defined.

(** ** Transforms applied to the mesh *)

Lemma transform_n_length (f : float3 -> float3) (n : Z) (buf : list float3) :
  length (transform_n f n buf) = length buf.
Proof.
  unfold transform_n. generalize (seq 0 (Z.to_nat n)) as idx. intros idx.
  revert buf. induction idx as [|i idx IH]; intros buf; [reflexivity|].
  cbn [fold_left]. now rewrite IH, buf_update_length.
Qed.

Lemma transform_n_get (f : float3 -> float3) (n : Z) (buf : list float3)
    (j : Z) :
  0 <= n -> 0 <= j < Z.of_nat (length buf) ->
  buf_get zero_float3 (transform_n f n buf) j
  = if j <? n then f (buf_get zero_float3 buf j)
    else buf_get zero_float3 buf j.
Proof.
  intros Hn Hj.
  change (transform_n f n buf)
    with (fold_left (fun b i => buf_update b (0 + Z.of_nat i) ((fun _ => f) i))
                    (seq 0 (Z.to_nat n)) buf).
  rewrite (fold_update_range (fun _ => f)) by exact Hj.
  rewrite Z2Nat.id by exact Hn.
  assert (E : (0 <=? j) = true) by (apply Z.leb_le; lia).
  rewrite E. reflexivity.
Qed.

Lemma transform_n_all (f : float3 -> float3) (buf : list float3) :
  transform_n f (Z.of_nat (length buf)) buf = map f buf.
Proof.
  apply nth_ext with (d := zero_float3) (d' := f zero_float3).
  - now rewrite transform_n_length, length_map.
  - intros i Hi. rewrite transform_n_length in Hi.
    rewrite map_nth, <- !buf_get_nth.
    rewrite transform_n_get by lia.
    assert (E : (Z.of_nat i <? Z.of_nat (length buf)) = true)
      by (apply Z.ltb_lt; lia).
    now rewrite E.
Qed.

Lemma motion_positions_write_normals (m : Mesh)
    (f : list float3 -> list float3) :
  motion_positions
    (set_attributes
       (attr_write (attributes m) ATTR_STD_MOTION_VERTEX_NORMAL f) m)
  = motion_positions m.
Proof.
  unfold motion_positions. cbn [attributes set_attributes].
  now rewrite attr_find_write.
Qed.

Lemma motion_positions_write_positions (m : Mesh)
    (f : list float3 -> list float3) :
  attr_found (attributes m) ATTR_STD_MOTION_VERTEX_POSITION = true ->
  motion_positions
    (set_attributes
       (attr_write (attributes m) ATTR_STD_MOTION_VERTEX_POSITION f) m)
  = f (motion_positions m).
Proof.
  unfold motion_positions, attr_found. cbn [attributes set_attributes].
  rewrite attr_find_write. cbn [AttributeStandard_eqb].
  destruct (attr_find (attributes m) ATTR_STD_MOTION_VERTEX_POSITION);
    [reflexivity | discriminate].
Qed.

Lemma apply_transform_motion_positions (tp td : float3 -> float3) (m : Mesh) :
  attr_found (attributes m) ATTR_STD_MOTION_VERTEX_POSITION = true ->
  motion_positions (apply_transform tp td true m)
  = transform_n tp (steps_size m) (motion_positions m).
Proof.
  intros Hf. unfold apply_transform. cbv zeta.
  set (m1 := tag_modified SOCKET_verts _).
  assert (Ha : attributes m1 = attributes m) by reflexivity.
  assert (Hs : steps_size m1 = steps_size m).
  { unfold steps_size, size, m1.
    cbn [verts elems motion_steps tag_modified set_socket_modified set_verts].
    now rewrite transform_n_length. }
  assert (Hp : motion_positions m1 = motion_positions m) by reflexivity.
  assert (Hf1 : attr_found (attributes m1) ATTR_STD_MOTION_VERTEX_POSITION
                = true) by (now rewrite Ha).
  clearbody m1.
  unfold attr_found in Hf1.
  destruct (attr_find (attributes m1) ATTR_STD_MOTION_VERTEX_POSITION) eqn:EP;
    [|discriminate].
  assert (Hf2 : attr_found (attributes m1) ATTR_STD_MOTION_VERTEX_POSITION
                = true) by (unfold attr_found; now rewrite EP).
  set (m2 := set_attributes _ m1).
  assert (H2 : motion_positions m2
               = transform_n tp (steps_size m) (motion_positions m)).
  { unfold m2. rewrite motion_positions_write_positions by exact Hf2.
    now rewrite Hs, Hp. }
  clearbody m2.
  destruct (attr_find (attributes m2) ATTR_STD_MOTION_VERTEX_NORMAL);
    [|exact H2].
  now rewrite motion_positions_write_normals.
Qed.

(** X22.  [apply_transform] moves every vertex by the transform and flags
    the vertices as modified; the triangles, their shaders and smooth flags
    and the subdivision data stay as they are.  The motion steps are left
    alone unless [apply_to_motion] is set, and then the positions of the
    motion steps, up to the size the step count gives, are moved by the
    same transform.  Applying one transform after the other moves the
    vertices as applying their composition does. *)
Theorem apply_transform_spec (transform_point transform_direction_normal
    : float3 -> float3) (m : Mesh) :
  (forall apply_to_motion : bool,
      let m' := apply_transform transform_point transform_direction_normal
                                apply_to_motion m in
      elems (verts m') = map transform_point (elems (verts m))
      /\ is_modified SOCKET_verts m' = true
      /\ triangles m' = triangles m /\ shader m' = shader m
      /\ smooth m' = smooth m
      /\ subd_face_corners m' = subd_face_corners m
      /\ subd_attributes m' = subd_attributes m)
  /\ attributes (apply_transform transform_point transform_direction_normal
                                 false m) = attributes m
  /\ (forall i : Z,
      0 <= i < Z.of_nat (length (motion_positions m)) ->
      buf_get zero_float3
        (motion_positions
           (apply_transform transform_point transform_direction_normal
                            true m)) i
      = if i <? steps_size m
        then transform_point (buf_get zero_float3 (motion_positions m) i)
        else buf_get zero_float3 (motion_positions m) i)
  /\ (forall (g gd : float3 -> float3) (apply_to_motion : bool),
      elems (verts (apply_transform g gd apply_to_motion
                      (apply_transform transform_point
                         transform_direction_normal apply_to_motion m)))
      = elems (verts (apply_transform (fun p => g (transform_point p)) gd
                        apply_to_motion m))).
Proof.
  assert (Hverts : forall (f fd : float3 -> float3) (atm : bool) (mesh : Mesh),
            elems (verts (apply_transform f fd atm mesh))
            = map f (elems (verts mesh))).
  { intros f fd atm mesh. unfold apply_transform. cbv zeta.
    destruct atm.
    - destruct (attr_find _ ATTR_STD_MOTION_VERTEX_POSITION);
        destruct (attr_find _ ATTR_STD_MOTION_VERTEX_NORMAL);
        cbn [verts elems set_attributes tag_modified set_socket_modified
             set_verts];
        apply transform_n_all.
    - cbn [verts elems tag_modified set_socket_modified set_verts].
      apply transform_n_all. }
  split; [|split; [|split]].
  - intros atm. cbv zeta. split; [apply Hverts|].
    unfold apply_transform. cbv zeta.
    destruct atm.
    + destruct (attr_find _ ATTR_STD_MOTION_VERTEX_POSITION);
        destruct (attr_find _ ATTR_STD_MOTION_VERTEX_NORMAL);
        (split; [apply (is_modified_tag SOCKET_verts SOCKET_verts)
                | repeat split]).
    + split; [apply (is_modified_tag SOCKET_verts SOCKET_verts)
             | repeat split].
  - reflexivity.
  - intros i Hi.
    assert (Hs : 0 <= steps_size m).
    { unfold steps_size, wrap_size_t. apply Z.mod_pos_bound.
      vm_compute. reflexivity. }
    assert (Hf : attr_found (attributes m) ATTR_STD_MOTION_VERTEX_POSITION
                 = true).
    { unfold motion_positions in Hi. unfold attr_found.
      destruct (attr_find (attributes m) ATTR_STD_MOTION_VERTEX_POSITION);
        [reflexivity | simpl in Hi; lia]. }
    rewrite apply_transform_motion_positions by exact Hf.
    now apply transform_n_get.
  - intros g gd atm. rewrite !Hverts. apply map_map.
Qed.

Lemma apply_transform_spec_witness :
  0 <= 0 < Z.of_nat (length (motion_positions moving_triangle_mesh))
  /\ buf_get zero_float3
       (motion_positions (apply_transform f3_neg (fun a => a) true
                            moving_triangle_mesh)) 0
     = if 0 <? steps_size moving_triangle_mesh
       then f3_neg (buf_get zero_float3
                      (motion_positions moving_triangle_mesh) 0)
       else buf_get zero_float3 (motion_positions moving_triangle_mesh) 0.
Proof.
  assert (H : 0 <= 0
              < Z.of_nat (length (motion_positions moving_triangle_mesh)))
    by (vm_compute; split; [discriminate | reflexivity]).
  split; [exact H|].
  exact (proj1 (proj2 (proj2
           (apply_transform_spec f3_neg (fun a => a) moving_triangle_mesh)))
           0 H).
Defined.

(** ** Clearing *)

Lemma apply_op_same_data (op : BuildOp) (m m' : Mesh) :
  same_data m m' -> same_data (apply_op m op) (apply_op m' op).
Proof.
  intros (H1 & H2 & H3 & H4 & H5 & H6 & H7 & H8 & H9 & H10 & H11 & H12).
  unfold same_data.
  destruct op as [nv nt | nf nc | n | P | P | v0 v1 v2 sh sm | cs nc sh sm
                 | v0 v1 w | v w];
    cbn [apply_op];
    unfold reserve_mesh, reserve_subd_faces, reserve_subd_creases,
      add_vertex, add_vertex_slow, add_triangle, add_subd_face,
      add_edge_crease, add_vertex_crease, tag_modified, get_subd_face,
      num_ptex_faces;
    cbv zeta;
    cbn [ptex_offset num_corners
         verts triangles shader smooth subd_face_corners subd_start_corner
         subd_num_corners subd_shader subd_smooth subd_ptex_offset
         subd_creases_edge subd_creases_weight
         set_verts set_triangles set_shader set_smooth
         set_subd_face_corners set_subd_start_corner set_subd_num_corners
         set_subd_shader set_subd_smooth set_subd_ptex_offset
         set_subd_creases_edge set_subd_creases_weight
         set_subd_vert_creases set_subd_vert_creases_weight
         set_num_subd_faces set_socket_modified];
    unfold push_back_reserved, push_back_slow, array_get, size;
    rewrite ?elems_reserve, ?elems_push_back, ?push_corners_elems;
    rewrite ?H1, ?H2, ?H3, ?H4, ?H5, ?H6, ?H7, ?H8, ?H9, ?H10, ?H11, ?H12;
    repeat split; reflexivity.
Qed.

Lemma run_same_data (ops : list BuildOp) (m m' : Mesh) :
  same_data m m' -> same_data (run ops m) (run ops m').
Proof.
  revert m m'. induction ops as [|op ops IH]; intros m m' H; [exact H|].
  simpl. apply IH. now apply apply_op_same_data.
Qed.

(** X23.  [clear] resets the mesh for reuse: whatever it held, the arrays
    of vertices, triangles, subdivision faces and edge creases are empty
    afterwards, the stored face count is 0, the subdivision type is none
    and the subdivision attributes are gone, so that any sequence of
    reservations and appends builds the same data after a [clear] as on a
    new mesh.  The vertex creases are not among the arrays that [clear]
    empties: they stay as they were.  [Geometry::clear] is taken to leave
    the members of the mesh alone. *)
Theorem clear_resets_for_reuse (Geometry_clear : bool -> Mesh -> Mesh)
    (voxel_attributes : AttributeSet -> AttributeSet)
    (preserve_shaders preserve_voxel_data : bool) (m : Mesh) :
  (forall b : bool, keeps_mesh_members (Geometry_clear b)) ->
  let m' := clear Geometry_clear voxel_attributes preserve_shaders
                  preserve_voxel_data m in
  same_data Mesh_new m'
  /\ num_triangles m' = 0
  /\ get_num_subd_faces m' = 0
  /\ subdivision_type m' = SUBDIVISION_NONE
  /\ subd_attributes m' = []
  /\ subd_vert_creases m' = subd_vert_creases m
  /\ subd_vert_creases_weight m' = subd_vert_creases_weight m
  /\ forall ops : list BuildOp, same_data (run ops Mesh_new) (run ops m').
Proof.
  intros HG. cbv zeta.
  unfold clear, clear_non_sockets. cbv zeta.
  set (m0 := Geometry_clear preserve_shaders m).
  destruct (HG preserve_shaders m) as (_ & Hc0 & Hw0 & _). fold m0 in Hc0, Hw0.
  set (m1 := set_subdivision_type SUBDIVISION_NONE _).
  destruct (HG true m1) as (Hd & Hc & Hw & Ht & Hn & Ha).
  set (m2 := Geometry_clear true m1) in *.
  assert (Hd1 : same_data Mesh_new m1) by (repeat split; reflexivity).
  assert (Hsame : same_data Mesh_new (set_num_subd_faces 0 m2)).
  { destruct Hd as (H1 & H2 & H3 & H4 & H5 & H6 & H7 & H8 & H9 & H10 & H11
                    & H12).
    unfold same_data.
    cbn [verts triangles shader smooth subd_face_corners subd_start_corner
         subd_num_corners subd_shader subd_smooth subd_ptex_offset
         subd_creases_edge subd_creases_weight set_num_subd_faces].
    rewrite H1, H2, H3, H4, H5, H6, H7, H8, H9, H10, H11, H12.
    exact Hd1. }
  split; [exact Hsame|].
  split.
  { destruct Hsame as (_ & H2 & _). unfold num_triangles, size.
    rewrite H2. reflexivity. }
  split; [reflexivity|].
  split; [cbn [subdivision_type set_num_subd_faces]; now rewrite Ht|].
  split; [cbn [subd_attributes set_num_subd_faces]; now rewrite Ha|].
  split; [cbn [subd_vert_creases set_num_subd_faces]; now rewrite Hc, <- Hc0|].
  split; [cbn [subd_vert_creases_weight set_num_subd_faces];
          now rewrite Hw, <- Hw0|].
  intros ops. now apply run_same_data.
Qed.

Lemma drop_used_shaders_keeps (b : bool) :
  keeps_mesh_members (drop_used_shaders b).
Proof.
  intros m. destruct b; unfold same_data; repeat split; reflexivity.
Defined.

Lemma clear_resets_for_reuse_witness :
  (forall b : bool, keeps_mesh_members (drop_used_shaders b))
  /\ same_data Mesh_new
       (clear drop_used_shaders (fun s => s) false false creased_square_mesh)
  /\ subd_vert_creases
       (clear drop_used_shaders (fun s => s) false false creased_square_mesh)
     = subd_vert_creases creased_square_mesh.
Proof.
  split; [exact drop_used_shaders_keeps|].
  destruct (clear_resets_for_reuse drop_used_shaders (fun s => s) false false
              creased_square_mesh drop_used_shaders_keeps)
    as (H1 & _ & _ & _ & _ & H2 & _).
  split; [exact H1 | exact H2].
Defined.

